(** * Entity resolution and incremental ingestion of the soccer statistics
      scrapers: a shallow embedding of [scrapers/data_merge.py],
      [scrapers/understat_scraper.py], [scrapers/whoscored_scraper.py],
      [scrapers/database.py] and [export_for_ml.py], with the library
      routines they call ([unicodedata.normalize], [difflib.SequenceMatcher],
      SQLite's [lower] and [LIKE], pandas' [sort_values]/[drop_duplicates]). *)

From stdpp Require Import gmap list strings pretty sorting.
From Stdlib Require Import ZArith NArith QArith Lia.

(** ** Python strings

    A Python [str] is a sequence of Unicode code points.  Source literals
    are written as Rocq strings (UTF-8 bytes, like the [.py] files) and
    decoded with [u]. *)

Module PyStr.

Local Open Scope N_scope.

Abbreviation pystr := (list N).

Fixpoint bytes_of (s : string) : list N :=
  match s with
  | EmptyString => []
  | String c s' => Ascii.N_of_ascii c :: bytes_of s'
  end.

Fixpoint utf8_decode (bs : list N) : pystr :=
  match bs with
  | [] => []
  | b0 :: r0 =>
      if b0 <? 0x80 then b0 :: utf8_decode r0
      else if b0 <? 0xE0 then
        match r0 with
        | b1 :: r1 => ((b0 - 0xC0) * 64 + (b1 - 0x80)) :: utf8_decode r1
        | _ => []
        end
      else if b0 <? 0xF0 then
        match r0 with
        | b1 :: b2 :: r2 =>
            ((b0 - 0xE0) * 4096 + (b1 - 0x80) * 64 + (b2 - 0x80)) :: utf8_decode r2
        | _ => []
        end
      else
        match r0 with
        | b1 :: b2 :: b3 :: r3 =>
            ((b0 - 0xF0) * 262144 + (b1 - 0x80) * 4096 + (b2 - 0x80) * 64 + (b3 - 0x80))
              :: utf8_decode r3
        | _ => []
        end
  end.

Definition u (s : string) : pystr := utf8_decode (bytes_of s).
Arguments u s%_string.

Definition pystr_eqb (s t : pystr) : bool := bool_decide (s = t).

Definition is_ascii (c : N) : bool := c <? 0x80.

Definition ascii_lower (c : N) : N :=
  if (0x41 <=? c) && (c <=? 0x5A) then c + 0x20 else c.

(** [Py_UNICODE_ISSPACE]: the characters [str.strip()] removes. *)
Definition py_isspace (c : N) : bool :=
  ((0x09 <=? c) && (c <=? 0x0D)) || ((0x1C <=? c) && (c <=? 0x20))
  || (c =? 0x85) || (c =? 0xA0) || (c =? 0x1680)
  || ((0x2000 <=? c) && (c <=? 0x200A))
  || (c =? 0x2028) || (c =? 0x2029) || (c =? 0x202F) || (c =? 0x205F)
  || (c =? 0x3000).

Fixpoint lstrip (s : pystr) : pystr :=
  match s with
  | [] => []
  | c :: s' => if py_isspace c then lstrip s' else s
  end.

Definition rstrip (s : pystr) : pystr := rev (lstrip (rev s)).

Definition strip (s : pystr) : pystr := rstrip (lstrip s).

(** [s.encode('ASCII', 'ignore').decode('ASCII')] *)
Definition encode_ascii_ignore (s : pystr) : pystr := List.filter is_ascii s.

(** SQLite's built-in [lower()] folds the 26 ASCII capitals only. *)
Definition sqlite_lower (s : pystr) : pystr := List.map ascii_lower s.

(** SQLite's [LIKE]: [%] matches any run, [_] one character, other
    characters match up to ASCII case; there is no escape character. *)
Fixpoint sqlite_like (pat s : pystr) : bool :=
  match pat with
  | [] => match s with [] => true | _ => false end
  | p :: pat' =>
      if p =? 0x25 then
        (fix any_suffix (s : pystr) : bool :=
           sqlite_like pat' s ||
           match s with [] => false | _ :: s' => any_suffix s' end) s
      else
        match s with
        | [] => false
        | c :: s' =>
            ((p =? 0x5F) || (ascii_lower p =? ascii_lower c)) && sqlite_like pat' s'
        end
  end.

(** [s.split(",")[0]] *)
Fixpoint before_comma (s : pystr) : pystr :=
  match s with
  | [] => []
  | c :: s' => if c =? 0x2C then [] else c :: before_comma s'
  end.

End PyStr.
Export PyStr.

(** ** Unicode data

    The compatibility decompositions, combining classes and case mappings
    of U+0000..U+00FF are written out; those of the code points above
    U+00FF are the fields of [UnicodeData]. *)

Class UnicodeData := {
  (** full compatibility decomposition of a code point above U+00FF *)
  decomp_hi : N -> pystr;
  (** canonical combining class of a code point above U+00FF *)
  ccc_hi : N -> N;
  (** [str.lower()] of a string that has a code point above U+00FF *)
  lower_hi : pystr -> pystr;
}.

Module Unicode.

Local Open Scope N_scope.

Definition latin1_decomp (c : N) : pystr :=
  match c with
  | 0xA0 => [0x20] | 0xA8 => [0x20; 0x308] | 0xAA => [0x61]
  | 0xAF => [0x20; 0x304] | 0xB2 => [0x32] | 0xB3 => [0x33]
  | 0xB4 => [0x20; 0x301] | 0xB5 => [0x3BC] | 0xB8 => [0x20; 0x327]
  | 0xB9 => [0x31] | 0xBA => [0x6F]
  | 0xBC => [0x31; 0x2044; 0x34] | 0xBD => [0x31; 0x2044; 0x32]
  | 0xBE => [0x33; 0x2044; 0x34]
  | 0xC0 => [0x41; 0x300] | 0xC1 => [0x41; 0x301] | 0xC2 => [0x41; 0x302]
  | 0xC3 => [0x41; 0x303] | 0xC4 => [0x41; 0x308] | 0xC5 => [0x41; 0x30A]
  | 0xC7 => [0x43; 0x327]
  | 0xC8 => [0x45; 0x300] | 0xC9 => [0x45; 0x301] | 0xCA => [0x45; 0x302]
  | 0xCB => [0x45; 0x308]
  | 0xCC => [0x49; 0x300] | 0xCD => [0x49; 0x301] | 0xCE => [0x49; 0x302]
  | 0xCF => [0x49; 0x308]
  | 0xD1 => [0x4E; 0x303]
  | 0xD2 => [0x4F; 0x300] | 0xD3 => [0x4F; 0x301] | 0xD4 => [0x4F; 0x302]
  | 0xD5 => [0x4F; 0x303] | 0xD6 => [0x4F; 0x308]
  | 0xD9 => [0x55; 0x300] | 0xDA => [0x55; 0x301] | 0xDB => [0x55; 0x302]
  | 0xDC => [0x55; 0x308] | 0xDD => [0x59; 0x301]
  | 0xE0 => [0x61; 0x300] | 0xE1 => [0x61; 0x301] | 0xE2 => [0x61; 0x302]
  | 0xE3 => [0x61; 0x303] | 0xE4 => [0x61; 0x308] | 0xE5 => [0x61; 0x30A]
  | 0xE7 => [0x63; 0x327]
  | 0xE8 => [0x65; 0x300] | 0xE9 => [0x65; 0x301] | 0xEA => [0x65; 0x302]
  | 0xEB => [0x65; 0x308]
  | 0xEC => [0x69; 0x300] | 0xED => [0x69; 0x301] | 0xEE => [0x69; 0x302]
  | 0xEF => [0x69; 0x308]
  | 0xF1 => [0x6E; 0x303]
  | 0xF2 => [0x6F; 0x300] | 0xF3 => [0x6F; 0x301] | 0xF4 => [0x6F; 0x302]
  | 0xF5 => [0x6F; 0x303] | 0xF6 => [0x6F; 0x308]
  | 0xF9 => [0x75; 0x300] | 0xFA => [0x75; 0x301] | 0xFB => [0x75; 0x302]
  | 0xFC => [0x75; 0x308] | 0xFD => [0x79; 0x301] | 0xFF => [0x79; 0x308]
  | _ => [c]
  end.

Definition latin1_lower (c : N) : N :=
  if ((0x41 <=? c) && (c <=? 0x5A))
     || ((0xC0 <=? c) && (c <=? 0xDE) && negb (c =? 0xD7))
  then c + 0x20 else c.

Section WithData.
Context `{UnicodeData}.

Definition decomp (c : N) : pystr :=
  if c <? 0x80 then [c]
  else if c <? 0x100 then latin1_decomp c
  else decomp_hi c.

(** No code point below U+0300 is a combining mark. *)
Definition ccc (c : N) : N := if c <? 0x100 then 0 else ccc_hi c.

(** Canonical ordering: a mark moves left past the marks of a higher
    combining class that precede it.  [placed] is the prefix already
    ordered, last character first. *)
Fixpoint insert_mark (c : N) (placed : pystr) : pystr :=
  match placed with
  | d :: rest => if ccc c <? ccc d then d :: insert_mark c rest else c :: placed
  | [] => [c]
  end.

Definition canonical_order (s : pystr) : pystr :=
  rev (fold_left
         (fun placed c => if ccc c =? 0 then c :: placed else insert_mark c placed)
         s []).

(** [unicodedata.normalize('NFKD', s)] *)
Definition nfkd (s : pystr) : pystr := canonical_order (flat_map decomp s).

(** [s.lower()] *)
Definition py_lower (s : pystr) : pystr :=
  if forallb (fun c => c <? 0x100) s then List.map latin1_lower s else lower_hi s.

End WithData.
End Unicode.
Export Unicode.

(** ** [data_merge.normalize_name] *)

Definition normalize_name `{UnicodeData} (name : pystr) : pystr :=
  match name with
  | [] => []
  | _ =>
      let name := nfkd name in
      let name := encode_ascii_ignore name in
      strip (py_lower name)
  end.

(** ** [difflib.SequenceMatcher(None, a, b)]

    The matcher as [similarity_score] builds it: no junk predicate, so
    [bjunk] is empty and the two loops of [find_longest_match] that absorb
    junk never run; [autojunk] has its default [True]. *)

Module Difflib.

Local Open Scope Z_scope.

Abbreviation block := (Z * Z * Z)%type.

(** [s[i]] for the indices the matcher uses, [0 <= i < len(s)]. *)
Definition item (s : pystr) (i : Z) : option N :=
  if i <? 0 then None else s !! Z.to_nat i.

Definition same_item (a : pystr) (i : Z) (b : pystr) (j : Z) : bool :=
  match item a i, item b j with
  | Some x, Some y => N.eqb x y
  | _, _ => false
  end.

(** [__chain_b]: index the positions of every element of [b], then purge
    the popular elements when [b] has 200 elements or more. *)
Fixpoint index_from (i : Z) (b : pystr) (b2j : gmap N (list Z)) : gmap N (list Z) :=
  match b with
  | [] => b2j
  | elt :: b' =>
      index_from (i + 1) b' (<[elt := default [] (b2j !! elt) ++ [i]]> b2j)
  end.

Definition chain_b (b : pystr) : gmap N (list Z) :=
  let b2j := index_from 0 b ∅ in
  let n := Z.of_nat (length b) in
  if 200 <=? n then
    let ntest := n / 100 + 1 in
    filter (fun p : N * list Z => Z.of_nat (length p.2) <= ntest) b2j
  else b2j.

(** The inner loop of [find_longest_match] over the positions [js] of
    [a[i]] in [b]: [continue] below [blo], [break] from [bhi] on. *)
Fixpoint scan_row (js : list Z) (i blo bhi : Z) (j2len newj2len : gmap Z Z)
    (best : block) : gmap Z Z * block :=
  match js with
  | [] => (newj2len, best)
  | j :: js' =>
      if j <? blo then scan_row js' i blo bhi j2len newj2len best
      else if bhi <=? j then (newj2len, best)
      else
        let k := default 0 (j2len !! (j - 1)) + 1 in
        let newj2len := <[j := k]> newj2len in
        let best := if best.2 <? k then (i - k + 1, j - k + 1, k) else best in
        scan_row js' i blo bhi j2len newj2len best
  end.

(** The outer loop, [for i in range(alo, ahi)]. *)
Fixpoint scan (rows : list Z) (a : pystr) (b2j : gmap N (list Z)) (blo bhi : Z)
    (j2len : gmap Z Z) (best : block) : block :=
  match rows with
  | [] => best
  | i :: rows' =>
      let js := match item a i with
                | Some x => default [] (b2j !! x)
                | None => []
                end in
      let '(newj2len, best) := scan_row js i blo bhi j2len ∅ best in
      scan rows' a b2j blo bhi newj2len best
  end.

(** [while besti > alo and bestj > blo and a[besti-1] == b[bestj-1]] *)
Fixpoint extend_left (fuel : nat) (a b : pystr) (alo blo : Z) (best : block) : block :=
  let '(besti, bestj, bestsize) := best in
  match fuel with
  | O => best
  | S fuel' =>
      if (alo <? besti) && (blo <? bestj) && same_item a (besti - 1) b (bestj - 1)
      then extend_left fuel' a b alo blo (besti - 1, bestj - 1, bestsize + 1)
      else best
  end.

(** [while besti+bestsize < ahi and bestj+bestsize < bhi and
           a[besti+bestsize] == b[bestj+bestsize]] *)
Fixpoint extend_right (fuel : nat) (a b : pystr) (ahi bhi : Z) (best : block) : block :=
  let '(besti, bestj, bestsize) := best in
  match fuel with
  | O => best
  | S fuel' =>
      if (besti + bestsize <? ahi) && (bestj + bestsize <? bhi)
         && same_item a (besti + bestsize) b (bestj + bestsize)
      then extend_right fuel' a b ahi bhi (besti, bestj, bestsize + 1)
      else best
  end.

(** Each extension loop moves one end of the block by one position per
    turn, so the distance to the bound of [a] is fuel enough. *)
Definition find_longest_match (a b : pystr) (b2j : gmap N (list Z))
    (alo ahi blo bhi : Z) : block :=
  let best := scan (seqZ alo (ahi - alo)) a b2j blo bhi ∅ (alo, blo, 0) in
  let best := extend_left (Z.to_nat (best.1.1 - alo)) a b alo blo best in
  extend_right (Z.to_nat (ahi - (best.1.1 + best.2))) a b ahi bhi best.

(** The work list of [get_matching_blocks] is a stack: after a block is
    appended, the region to its right is handled (with everything it
    pushes) before the region to its left.  A region is pushed only when
    non-empty and is strictly shorter than its parent, so [fuel] above the
    length of [a[alo:ahi]] is never exhausted (see [blocks_in_fuel]). *)
Fixpoint blocks_in (fuel : nat) (a b : pystr) (b2j : gmap N (list Z))
    (alo ahi blo bhi : Z) : list block :=
  match fuel with
  | O => []
  | S fuel' =>
      let '(i, j, k) := find_longest_match a b b2j alo ahi blo bhi in
      if k =? 0 then []
      else
        (i, j, k)
          :: (if (i + k <? ahi) && (j + k <? bhi)
              then blocks_in fuel' a b b2j (i + k) ahi (j + k) bhi else [])
          ++ (if (alo <? i) && (blo <? j)
              then blocks_in fuel' a b b2j alo i blo j else [])
  end.

(** Tuple comparison, for [matching_blocks.sort()]. *)
Definition block_leb (x y : block) : bool :=
  let '(i1, j1, k1) := x in
  let '(i2, j2, k2) := y in
  (i1 <? i2) || ((i1 =? i2) && ((j1 <? j2) || ((j1 =? j2) && (k1 <=? k2)))).

Fixpoint insert_block (x : block) (l : list block) : list block :=
  match l with
  | [] => [x]
  | y :: l' => if block_leb x y then x :: l else y :: insert_block x l'
  end.

Definition sort_blocks (l : list block) : list block :=
  foldr insert_block [] l.

(** Collapse adjacent blocks; [cur] is [(i1, j1, k1)]. *)
Fixpoint collapse (cur : block) (l : list block) : list block :=
  let '(i1, j1, k1) := cur in
  match l with
  | [] => if k1 =? 0 then [] else [cur]
  | (i2, j2, k2) :: l' =>
      if (i1 + k1 =? i2) && (j1 + k1 =? j2) then collapse (i1, j1, k1 + k2) l'
      else (if k1 =? 0 then [] else [cur]) ++ collapse (i2, j2, k2) l'
  end.

Definition get_matching_blocks (a b : pystr) : list block :=
  let la := Z.of_nat (length a) in
  let lb := Z.of_nat (length b) in
  let matching_blocks := blocks_in (S (length a)) a b (chain_b b) 0 la 0 lb in
  collapse (0, 0, 0) (sort_blocks matching_blocks) ++ [(la, lb, 0)].

(** [_calculate_ratio]; the float [2.0 * matches / length] is kept as the
    exact fraction. *)
Definition calculate_ratio (matches length : Z) : Q :=
  if length =? 0 then 1%Q else Qmake (2 * matches) (Z.to_pos length).

Definition ratio (a b : pystr) : Q :=
  let matches := foldr Z.add 0 (List.map (fun t : block => t.2) (get_matching_blocks a b)) in
  calculate_ratio matches (Z.of_nat (length a) + Z.of_nat (length b)).

End Difflib.
Export Difflib.

(** ** [data_merge.similarity_score] *)

Definition similarity_score `{UnicodeData} (name1 name2 : pystr) : Q :=
  let n1 := normalize_name name1 in
  let n2 := normalize_name name2 in
  ratio n1 n2.

(** ** [database.py]: the tables

    A table is the list of its rows in rowid order, which is the order a
    SQLite scan without [ORDER BY] yields them in. *)

Local Open Scope Z_scope.

Record League := mkLeague {
  league_id : Z;
  league_name : pystr;
  league_display_name : pystr;
}.

Record Season := mkSeason {
  season_id : Z;
  season_year : Z;
  season_league_id : Z;
}.

Record Team := mkTeam {
  team_id : Z;
  team_understat_id : Z;
  team_name : pystr;
  team_league_id : Z;
}.

Record Player := mkPlayer {
  player_id : Z;
  player_understat_id : Z;
  player_name : pystr;
}.

Record WhoScoredPlayer := mkWhoScoredPlayer {
  ws_id : Z;
  ws_whoscored_id : Z;
  ws_name : pystr;
  ws_understat_player_id : option Z;
}.

Record Store := mkStore {
  leagues : list League;
  seasons : list Season;
  teams : list Team;
  players : list Player;
  whoscored_players : list WhoScoredPlayer;
}.

Definition empty_store : Store := mkStore [] [] [] [] [].

#[global] Instance League_eq_dec : EqDecision League.
Proof. solve_decision. Defined.
#[global] Instance Season_eq_dec : EqDecision Season.
Proof. solve_decision. Defined.
#[global] Instance Team_eq_dec : EqDecision Team.
Proof. solve_decision. Defined.
#[global] Instance Player_eq_dec : EqDecision Player.
Proof. solve_decision. Defined.
#[global] Instance WhoScoredPlayer_eq_dec : EqDecision WhoScoredPlayer.
Proof. solve_decision. Defined.

(** The rowid SQLite gives a new row of an [INTEGER PRIMARY KEY] table:
    one more than the largest in use. *)
Definition next_id (ids : list Z) : Z := foldr Z.max 0 ids + 1.

(** [session.query(T).filter(...).first()] *)
Definition first_row {A} (p : A -> bool) (table : list A) : option A := List.find p table.

(** A session operation: it reads and writes the store. *)
Definition Session (A : Type) : Type := Store -> A * Store.

#[global] Instance session_ret : MRet Session := fun A x s => (x, s).
#[global] Instance session_bind : MBind Session :=
  fun A B f m s => let '(x, s') := m s in f x s'.

Definition ret {A} (x : A) : Session A := mret x.
Definition query {A} (f : Store -> A) : Session A := fun s => (f s, s).

(** [session.add(row); session.commit()] for each table; the row is
    returned with its primary key. *)
Definition add_league (name display_name : pystr) : Session League :=
  fun s =>
    let row := mkLeague (next_id (league_id <$> leagues s)) name display_name in
    (row, mkStore (leagues s ++ [row]) (seasons s) (teams s) (players s)
            (whoscored_players s)).

Definition add_season (year lid : Z) : Session Season :=
  fun s =>
    let row := mkSeason (next_id (season_id <$> seasons s)) year lid in
    (row, mkStore (leagues s) (seasons s ++ [row]) (teams s) (players s)
            (whoscored_players s)).

Definition add_team (understat_id : Z) (name : pystr) (lid : Z) : Session Team :=
  fun s =>
    let row := mkTeam (next_id (team_id <$> teams s)) understat_id name lid in
    (row, mkStore (leagues s) (seasons s) (teams s ++ [row]) (players s)
            (whoscored_players s)).

Definition add_player (understat_id : Z) (name : pystr) : Session Player :=
  fun s =>
    let row := mkPlayer (next_id (player_id <$> players s)) understat_id name in
    (row, mkStore (leagues s) (seasons s) (teams s) (players s ++ [row])
            (whoscored_players s)).

(** ** [understat_scraper.py]: get-or-create by authoritative identity *)

Module Understat.

Definition LEAGUES : list (pystr * pystr) :=
  [ (u "EPL", u "English Premier League");
    (u "La_liga", u "La Liga");
    (u "Bundesliga", u "Bundesliga");
    (u "Serie_A", u "Serie A");
    (u "Ligue_1", u "Ligue 1");
    (u "RFPL", u "Russian Premier League") ].

(** [LEAGUES.get(league_code, league_code)] *)
Definition LEAGUES_get (league_code : pystr) : pystr :=
  match List.find (fun kv => pystr_eqb kv.1 league_code) LEAGUES with
  | Some kv => kv.2
  | None => league_code
  end.

Definition _get_or_create_league (league_code : pystr) : Session League :=
  league ← query (fun s =>
              first_row (fun l => pystr_eqb (league_name l) league_code) (leagues s));
  match league with
  | Some league => ret league
  | None => add_league league_code (LEAGUES_get league_code)
  end.

Definition _get_or_create_season (year : Z) (league : League) : Session Season :=
  season ← query (fun s =>
              first_row (fun r => (season_year r =? year)
                              && (season_league_id r =? league_id league))
                    (seasons s));
  match season with
  | Some season => ret season
  | None => add_season year (league_id league)
  end.

Definition _get_or_create_team (understat_id : Z) (name : pystr) (league : League)
    : Session Team :=
  team ← query (fun s =>
            first_row (fun t => team_understat_id t =? understat_id) (teams s));
  match team with
  | Some team => ret team
  | None => add_team understat_id name (league_id league)
  end.

Definition _get_or_create_player (understat_id : Z) (name : pystr) : Session Player :=
  player ← query (fun s =>
              first_row (fun p => player_understat_id p =? understat_id) (players s));
  match player with
  | Some player => ret player
  | None => add_player understat_id name
  end.

End Understat.

(** ** Placeholder identifiers

    [hash] is Python's string hash, salted anew for every process. *)

Class PyHash := { hash : pystr -> Z }.

Section Placeholder.
Context `{PyHash}.

(** [-abs(hash(name)) % 1000000]: the unary minus binds tighter than
    [%], and [%] takes the sign of the modulus. *)
Definition placeholder_id (name : pystr) : Z := (- Z.abs (hash name)) mod 1000000.

(** [understat_scraper._process_players_data], lines 232-253: the team of
    a player record, found by name or created under a placeholder. *)
Definition understat_team_name (team_title : pystr) : pystr :=
  match team_title with
  | [] => u "Unknown"
  | _ => strip (before_comma team_title)
  end.

Definition understat_player_team (team_title : pystr) (league : League) : Session Team :=
  let team_name_ := understat_team_name team_title in
  team ← query (fun s =>
            first_row (fun t => pystr_eqb (team_name t) team_name_) (teams s));
  match team with
  | Some team => ret team
  | None =>
      let placeholder := placeholder_id team_name_ in
      existing ← query (fun s =>
                    first_row (fun t => team_understat_id t =? placeholder) (teams s));
      match existing with
      | Some existing => ret existing
      | None => add_team placeholder team_name_ (league_id league)
      end
  end.

(** [whoscored_scraper._get_or_create_team]; [Team.name.ilike(name)] is
    [lower(name) LIKE lower(?)]. *)
Definition whoscored_team_name (name : pystr) : pystr :=
  match name with [] => u "Unknown" | _ => name end.

Definition whoscored_get_or_create_team (name : pystr) (league : League) : Session Team :=
  let name := whoscored_team_name name in
  team ← query (fun s => first_row (fun t => pystr_eqb (team_name t) name) (teams s));
  match team with
  | Some team => ret team
  | None =>
      team ← query (fun s => first_row (fun t => sqlite_like name (team_name t)) (teams s));
      match team with
      | Some team => ret team
      | None =>
          let placeholder := placeholder_id (u "ws_" ++ name) in
          existing ← query (fun s =>
                        first_row (fun t => team_understat_id t =? placeholder) (teams s));
          match existing with
          | Some existing => ret existing
          | None => add_team placeholder name (league_id league)
          end
      end
  end.

End Placeholder.

(** ** [data_merge.py]: the resolver and the link maintainer *)

Definition TEAM_NAME_MAP : list (pystr * list pystr) :=
  [ (u "Manchester United", [u "Man United"; u "Man Utd"]);
    (u "Manchester City", [u "Man City"]);
    (u "Tottenham", [u "Tottenham Hotspur"; u "Spurs"]);
    (u "Newcastle United", [u "Newcastle"]);
    (u "Wolverhampton Wanderers", [u "Wolves"]);
    (u "Brighton", [u "Brighton & Hove Albion"; u "Brighton and Hove Albion"]);
    (u "Nottingham Forest", [u "Nott'm Forest"]);
    (u "West Ham", [u "West Ham United"]);
    (u "Sheffield United", [u "Sheffield Utd"]);
    (u "Atletico Madrid", [u "Atlético Madrid"; u "Atletico"]);
    (u "Real Betis", [u "Betis"]);
    (u "Athletic Club", [u "Athletic Bilbao"]);
    (u "Rayo Vallecano", [u "Rayo"]);
    (u "Bayern Munich", [u "Bayern München"; u "FC Bayern"]);
    (u "Borussia Dortmund", [u "Dortmund"; u "BVB"]);
    (u "Bayer Leverkusen", [u "Leverkusen"]);
    (u "RB Leipzig", [u "Leipzig"; u "RasenBallsport Leipzig"]);
    (u "Borussia M.Gladbach",
       [u "Borussia Monchengladbach"; u "Gladbach"; u "Mönchengladbach"]);
    (u "Eintracht Frankfurt", [u "Frankfurt"]);
    (u "AC Milan", [u "Milan"]);
    (u "Inter", [u "Inter Milan"; u "Internazionale"]);
    (u "Napoli", [u "SSC Napoli"]);
    (u "AS Roma", [u "Roma"]);
    (u "Paris Saint Germain", [u "Paris Saint-Germain"; u "PSG"]);
    (u "Olympique Marseille", [u "Marseille"; u "OM"]);
    (u "Olympique Lyonnais", [u "Lyon"; u "OL"]);
    (u "AS Monaco", [u "Monaco"]) ].

Definition Qltb (x y : Q) : bool := negb (Qle_bool y x).

(** The default thresholds [0.8] and [0.85]. *)
Definition TEAM_THRESHOLD : Q := 8 # 10.
Definition PLAYER_THRESHOLD : Q := 85 # 100.

(** The first [Some] a loop body returns. *)
Fixpoint first_return {A B} (body : A -> option B) (l : list A) : option B :=
  match l with
  | [] => None
  | x :: l' => match body x with Some y => Some y | None => first_return body l' end
  end.

Section Resolver.
Context `{UnicodeData}.

(** [filter(func.lower(T.name) == name.lower()).first()] *)
Definition exact_match {A} (name_of : A -> pystr) (name : pystr) (table : list A)
    : option A :=
  first_row (fun r => pystr_eqb (sqlite_lower (name_of r)) (py_lower name)) table.

Definition alias_match (team_name_ : pystr) (table : list Team) : option Team :=
  first_return
    (fun entry : pystr * list pystr =>
       let all_names := entry.1 :: entry.2 in
       if existsb (fun n => pystr_eqb (normalize_name n) (normalize_name team_name_))
            all_names
       then first_return (fun name => exact_match team_name name table) all_names
       else None)
    TEAM_NAME_MAP.

(** One turn of the fuzzy loop; the state is [(best_match, best_score)]. *)
Definition fuzzy_step {A} (name_of : A -> pystr) (name : pystr) (threshold : Q)
    (st : option A * Q) (row : A) : option A * Q :=
  let score := similarity_score name (name_of row) in
  if Qltb st.2 score && Qle_bool threshold score then (Some row, score) else st.

Definition fuzzy_match {A} (name_of : A -> pystr) (name : pystr) (threshold : Q)
    (table : list A) : option A :=
  (fold_left (fuzzy_step name_of name threshold) table (None, 0%Q)).1.

Definition find_matching_team (team_name_ : pystr) (s : Store) (threshold : Q)
    : option Team :=
  match exact_match team_name team_name_ (teams s) with
  | Some team => Some team
  | None =>
      match alias_match team_name_ (teams s) with
      | Some team => Some team
      | None => fuzzy_match team_name team_name_ threshold (teams s)
      end
  end.

Definition find_matching_player (player_name_ : pystr) (s : Store) (threshold : Q)
    : option Player :=
  match exact_match player_name player_name_ (players s) with
  | Some player => Some player
  | None => fuzzy_match player_name player_name_ threshold (players s)
  end.

(** [ws_player.understat_player_id = understat_player.id], flushed as an
    [UPDATE ... WHERE id = ?]. *)
Definition set_link (id link : Z) (table : list WhoScoredPlayer) : list WhoScoredPlayer :=
  List.map (fun r => if ws_id r =? id
                     then mkWhoScoredPlayer (ws_id r) (ws_whoscored_id r) (ws_name r) (Some link)
                     else r)
           table.

Definition unlinked_players (s : Store) : list WhoScoredPlayer :=
  List.filter (fun w => bool_decide (ws_understat_player_id w = None)) (whoscored_players s).

Fixpoint link_loop (unlinked : list WhoScoredPlayer) (s : Store) (threshold : Q)
    (table : list WhoScoredPlayer) (linked_count : Z) : list WhoScoredPlayer * Z :=
  match unlinked with
  | [] => (table, linked_count)
  | ws_player :: rest =>
      match find_matching_player (ws_name ws_player) s threshold with
      | Some understat_player =>
          link_loop rest s threshold
            (set_link (ws_id ws_player) (player_id understat_player) table)
            (linked_count + 1)
      | None => link_loop rest s threshold table linked_count
      end
  end.

Definition link_whoscored_to_understat_players (threshold : Q) : Session Z :=
  fun s =>
    let unlinked := unlinked_players s in
    let '(table, linked_count) :=
      link_loop unlinked s threshold (whoscored_players s) 0 in
    (linked_count,
     mkStore (leagues s) (seasons s) (teams s) (players s) table).

End Resolver.

(** ** Numeric conversion of scraped fields *)

Inductive pyval :=
  | PyNone
  | PyBool (b : bool)
  | PyInt (z : Z)
  | PyStr (s : pystr)
  | PyList
  | PyDict.

#[global] Instance pyval_eq_dec : EqDecision pyval.
Proof. solve_decision. Defined.

Inductive exn := ValueError | TypeError | OverflowError.

(** A call that returns or raises. *)
Definition raising (A : Type) : Type := (exn + A)%type.

(** A float, by its exact value. *)
Inductive pyfloat := FFinite (q : Q) | FInf (negative : bool) | FNaN.

Class NumberData := {
  (** the decimal digit value of a code point above U+00FF, if it is a digit *)
  decimal_hi : N -> option N;
  (** [float] of a trimmed decimal literal: the nearest double, an infinity
      when it overflows, [None] when the text is no literal *)
  decimal_to_double : pystr -> option pyfloat;
}.

Module Numeric.

Local Open Scope N_scope.

(** C's [isspace] in the C locale, as [Py_ISSPACE]. *)
Definition c_isspace (c : N) : bool := ((0x09 <=? c) && (c <=? 0x0D)) || (c =? 0x20).

Definition is_digit (c : N) : bool := (0x30 <=? c) && (c <=? 0x39).

Fixpoint c_lstrip (s : pystr) : pystr :=
  match s with
  | [] => []
  | c :: s' => if c_isspace c then c_lstrip s' else s
  end.

Section WithData.
Context `{NumberData}.

(** [_PyUnicode_TransformDecimalAndSpaceToASCII] *)
Definition to_ascii_number (c : N) : N :=
  if c <? 127 then c
  else if py_isspace c then 0x20
  else match (if c <? 0x100 then None else decimal_hi c) with
       | Some d => 0x30 + d
       | None => 0x3F
       end.

(** The digits of a base-10 literal, single underscores allowed between
    two digits; what follows them is returned. *)
Fixpoint digits_loop (acc : Z) (s : pystr) : Z * pystr :=
  match s with
  | [] => (acc, [])
  | c :: s' =>
      if is_digit c then digits_loop (acc * 10 + Z.of_N (c - 0x30)) s'
      else if c =? 0x5F then
        match s' with
        | d :: s'' =>
            if is_digit d then digits_loop (acc * 10 + Z.of_N (d - 0x30)) s''
            else (acc, s)
        | [] => (acc, s)
        end
      else (acc, s)
  end.

(** [int(s)] for a string [s]; [None] is [ValueError]. *)
Definition int_of_str (s : pystr) : option Z :=
  let t := c_lstrip (List.map to_ascii_number s) in
  let '(negative, t) :=
    match t with
    | c :: t' => if c =? 0x2D then (true, t')
                 else if c =? 0x2B then (false, t') else (false, t)
    | [] => (false, t)
    end in
  match t with
  | c :: _ =>
      if is_digit c then
        let '(n, rest) := digits_loop 0 t in
        match c_lstrip rest with
        | [] => Some (if negative then (- n)%Z else n)
        | _ => None
        end
      else None
  | [] => None
  end.

(** [int(value)] *)
Definition py_int (value : pyval) : raising Z :=
  match value with
  | PyNone => inl TypeError
  | PyBool b => inr (Z.b2z b)
  | PyInt z => inr z
  | PyStr s => match int_of_str s with Some z => inr z | None => inl ValueError end
  | PyList | PyDict => inl TypeError
  end.

(** [float(s)] for a string [s]; [None] is [ValueError]. *)
Definition float_of_str (s : pystr) : option pyfloat :=
  let t := rev (c_lstrip (rev (c_lstrip (List.map to_ascii_number s)))) in
  let '(negative, body) :=
    match t with
    | c :: t' => if c =? 0x2D then (true, t')
                 else if c =? 0x2B then (false, t') else (false, t)
    | [] => (false, t)
    end in
  let word := List.map ascii_lower body in
  if pystr_eqb word (u "inf") || pystr_eqb word (u "infinity") then Some (FInf negative)
  else if pystr_eqb word (u "nan") then Some FNaN
  else decimal_to_double t.

(** [int(x)] for a float [x]: truncation towards zero. *)
Definition int_of_float (x : pyfloat) : raising Z :=
  match x with
  | FFinite q => inr (Z.quot (Qnum q) (Z.pos (Qden q)))
  | FInf _ => inl OverflowError
  | FNaN => inl ValueError
  end.

Definition str_of_Z (z : Z) : pystr := u (pretty z).

(** [str(value)]; the text of a list or a dict is never a number. *)
Definition py_str (value : pyval) : pystr :=
  match value with
  | PyNone => u "None"
  | PyBool true => u "True"
  | PyBool false => u "False"
  | PyInt z => str_of_Z z
  | PyStr s => s
  | PyList => u "[]"
  | PyDict => u "{}"
  end.

(** [whoscored_scraper._safe_int]: the [except] clause catches
    [ValueError] and [TypeError]. *)
Definition _safe_int (value : pyval) (default : Z) : raising Z :=
  if bool_decide (value = PyNone)
     || bool_decide (value = PyStr (u "-"))
     || bool_decide (value = PyStr [])
  then inr default
  else
    let text := List.filter (fun c => negb (c =? 0x2C)) (py_str value) in
    match float_of_str text with
    | None => inr default
    | Some x =>
        match int_of_float x with
        | inl ValueError | inl TypeError => inr default
        | r => r
        end
    end.

(** [understat_scraper._process_players_data], lines 271-278 and 282: the
    integer columns of a player record, each [int(p.get(key, 0))], in the
    order the code converts them; the first conversion that raises ends
    the call. *)
Definition UNDERSTAT_INT_KEYS : list string :=
  ["games"; "time"; "goals"; "assists"; "shots"; "key_passes";
   "yellow_cards"; "red_cards"; "npg"]%string.

Definition understat_int (p : gmap string pyval) (key : string) : raising Z :=
  py_int (default (PyInt 0) (p !! key)).

Fixpoint understat_ints (p : gmap string pyval) (keys : list string) : raising (list Z) :=
  match keys with
  | [] => inr []
  | key :: keys' =>
      match understat_int p key with
      | inl e => inl e
      | inr z =>
          match understat_ints p keys' with
          | inl e => inl e
          | inr zs => inr (z :: zs)
          end
      end
  end.

End WithData.
End Numeric.
Export Numeric.

(** ** [export_for_ml.py]: the stats merger

    A row of the joined frame, by the columns the merger reads:
    [ps.id], the key columns and [ws.tackles], which is missing (NaN)
    when the left join finds no WhoScored row. *)

Record StatsRow := mkStatsRow {
  row_id : Z;
  row_player_id : Z;
  row_team_id : Z;
  row_season_id : Z;
  row_tackles : option Z;
}.

#[global] Instance StatsRow_eq_dec : EqDecision StatsRow.
Proof. solve_decision. Defined.

(** [values[indexer]] and [DataFrame.take(indexer)]: the entries at the
    positions [indexer], in its order. *)
Definition take_at {A} (l : list A) (indexer : list nat) : list A :=
  omap (fun i => l !! i) indexer.

(** [numpy.argsort(kind='quicksort')], the default [sort_values] runs:
    some ordering of the positions by ascending value.  Quicksort is not
    stable, so the order of equal values is left open. *)
Class ArgSort := {
  argsort : list Z -> list nat;
  argsort_perm : forall l, Permutation (argsort l) (seq 0 (length l));
  argsort_sorted : forall l, Sorted Z.le (take_at l (argsort l));
}.

Module Pandas.

Definition group_key (r : StatsRow) : Z * Z := (row_player_id r, row_season_id r).

(** A position with its value, when it has one ([items[~mask]] and
    [idx[~mask]]), and the position of a missing value ([nan_idx]). *)
Definition pair_value (p : nat * option Z) : option (nat * Z) :=
  (fun v => (p.1, v)) <$> p.2.

Definition nan_position (p : nat * option Z) : option nat :=
  match p.2 with None => Some p.1 | Some _ => None end.

Section WithSort.
Context `{ArgSort}.

(** [nargsort(items, ascending=False, na_position='last')] *)
Definition nargsort (items : list (option Z)) : list nat :=
  let indexed := zip (seq 0 (length items)) items in
  let non_nan := omap pair_value indexed in
  let nan_idx := omap nan_position indexed in
  let non_nans := rev (non_nan.*2) in
  let non_nan_idx := rev (non_nan.*1) in
  let indexer := take_at non_nan_idx (argsort non_nans) in
  rev indexer ++ nan_idx.

(** [df.sort_values('tackles', ascending=False)] *)
Definition sort_values_tackles (df : list StatsRow) : list StatsRow :=
  take_at df (nargsort (row_tackles <$> df)).

(** [df.drop_duplicates(subset=['player_id', 'season_id'], keep='first')];
    [seen] holds the keys of the rows passed so far. *)
Fixpoint drop_duplicates_from (seen : list (Z * Z)) (df : list StatsRow) : list StatsRow :=
  match df with
  | [] => []
  | r :: df' =>
      if bool_decide (group_key r ∈ seen) then drop_duplicates_from seen df'
      else r :: drop_duplicates_from (group_key r :: seen) df'
  end.

Definition drop_duplicates (df : list StatsRow) : list StatsRow :=
  drop_duplicates_from [] df.

Definition stats_merger (df : list StatsRow) : list StatsRow :=
  drop_duplicates (sort_values_tackles df).

End WithSort.

(** Two orderings of positions by insertion: a position goes before the
    first one that holds a larger value ([strict]), or before the first
    one that holds a value at least as large. *)
Fixpoint insert_position (strict : bool) (l : list Z) (i : nat) (sorted : list nat)
    : list nat :=
  match sorted with
  | [] => [i]
  | j :: sorted' =>
      let vi := default 0 (l !! i) in
      let vj := default 0 (l !! j) in
      if (if strict then vi <? vj else vi <=? vj) then i :: sorted
      else j :: insert_position strict l i sorted'
  end.

Definition insertion_argsort (strict : bool) (l : list Z) : list nat :=
  fold_left (fun sorted i => insert_position strict l i sorted) (seq 0 (length l)) [].

End Pandas.
Export Pandas.

(** ** [whoscored_scraper.py]: players, leagues and seasons *)

Definition add_whoscored_player (whoscored_id : Z) (name : pystr) (link : option Z)
    : Session WhoScoredPlayer :=
  fun s =>
    let row := mkWhoScoredPlayer (next_id (ws_id <$> whoscored_players s))
                 whoscored_id name link in
    (row, mkStore (leagues s) (seasons s) (teams s) (players s)
            (whoscored_players s ++ [row])).

Module WhoScored.

(** The keys of [WHOSCORED_LEAGUES]. *)
Definition WHOSCORED_LEAGUES : list pystr :=
  [u "EPL"; u "La_liga"; u "Bundesliga"; u "Serie_A"; u "Ligue_1"].

(** [Player.name.ilike(f"%{name}%")] is [lower(name) LIKE lower(?)] with
    the pattern [%name%]. *)
Definition name_pattern (name : pystr) : pystr := u "%" ++ name ++ u "%".

Definition _get_or_create_whoscored_player (whoscored_id : Z) (name : pystr)
    : Session WhoScoredPlayer :=
  player ← query (fun s =>
              first_row (fun w => ws_whoscored_id w =? whoscored_id) (whoscored_players s));
  match player with
  | Some player => ret player
  | None =>
      understat_player ← query (fun s =>
                            first_row (fun p => sqlite_like (name_pattern name) (player_name p))
                              (players s));
      add_whoscored_player whoscored_id name (player_id <$> understat_player)
  end.

Definition _get_season (year : Z) (league : League) : Session Season :=
  season ← query (fun s =>
              first_row (fun r => (season_year r =? year)
                              && (season_league_id r =? league_id league))
                    (seasons s));
  match season with
  | Some season => ret season
  | None => add_season year (league_id league)
  end.

Definition _get_league (league_code : pystr) : Session (option League) :=
  query (fun s => first_row (fun l => pystr_eqb (league_name l) league_code) (leagues s)).

(** [scrape_player_defensive_stats], lines 463-481: the league and the
    season the statistics go under; nothing for a league that is not in
    [WHOSCORED_LEAGUES]. *)
Definition league_and_season (league_code : pystr) (year : Z)
    : Session (option (League * Season)) :=
  if negb (existsb (pystr_eqb league_code) WHOSCORED_LEAGUES) then ret None
  else
    league ← _get_league league_code;
    league ← match league with
             | Some league => ret league
             | None => add_league league_code league_code
             end;
    season ← _get_season year league;
    ret (Some (league, season)).

(** [kw in s] for two strings. *)
Fixpoint starts_with (kw s : pystr) : bool :=
  match kw, s with
  | [], _ => true
  | k :: kw', c :: s' => (k =? c)%N && starts_with kw' s'
  | _ :: _, [] => false
  end.

Fixpoint contains (kw s : pystr) : bool :=
  starts_with kw s || match s with [] => false | _ :: s' => contains kw s' end.

(** [_create_header_map]: the statistic of a column header, and the
    column of every statistic. *)
Definition defensive_stats : list (string * list pystr) :=
  [ ("tackles", [u "tackles"; u "tkl"]);
    ("interceptions", [u "interceptions"; u "inter"; u "int"]);
    ("clearances", [u "clearances"; u "clear"; u "clr"]);
    ("blocks", [u "blocks"; u "blk"]);
    ("aerial", [u "aerial"; u "aer"; u "aerialswon"]);
    ("fouls", [u "fouls"]);
    ("recoveries", [u "recoveries"; u "rec"]);
    ("apps", [u "apps"; u "appearances"; u "mp"]);
    ("mins", [u "mins"; u "minutes"; u "min"]);
    ("dribbles", [u "drb"; u "dribbles"]);
    ("offsides", [u "offsides"; u "off"]);
    ("own_goals", [u "owng"; u "own goals"]);
    ("rating", [u "rating"]) ]%string.

Section WithUnicode.
Context `{UnicodeData}.

Definition header_stat (header : pystr) : option string :=
  let header_lower := strip (py_lower header) in
  first_return
    (fun entry : string * list pystr =>
       if existsb (pystr_eqb header_lower) entry.2
          || existsb (fun kw => contains kw header_lower) entry.2
       then Some entry.1 else None)
    defensive_stats.

Definition _create_header_map (headers : list pystr) : gmap string nat :=
  fold_left
    (fun mapping (ih : nat * pystr) =>
       match header_stat ih.2 with
       | Some stat_name => <[stat_name := ih.1]> mapping
       | None => mapping
       end)
    (zip (seq 0 (length headers)) headers) ∅.

End WithUnicode.

End WhoScored.

(** * The vocabulary of the statements *)

(** ** Names and scores *)

(** Unicode data that leaves the code points above U+00FF alone: enough
    to run the functions on Latin-1 text. *)
Definition latin1_only : UnicodeData :=
  {| decomp_hi c := [c]; ccc_hi _ := 0%N; lower_hi s := s |}.

(** [normalize_name] without the reordering of marks, which the ASCII
    step makes irrelevant ([normalize_name_key]). *)
Definition normalize_key `{UnicodeData} (name : pystr) : pystr :=
  match name with
  | [] => []
  | _ => strip (py_lower (encode_ascii_ignore (flat_map decomp name)))
  end.

(** The score the fuzzy loop gives a row: the input name comes first. *)
Definition candidate_score `{UnicodeData} {A} (name_of : A -> pystr) (name : pystr)
    (r : A) : Q :=
  similarity_score name (name_of r).

(** Rows in rowid order: the primary keys grow along the table. *)
Definition rowid_order {A} (id : A -> Z) (table : list A) : Prop :=
  StronglySorted (fun x y => id x < id y) table.

(** What the fuzzy loop knows after the rows [seen]: no row reached the
    threshold, or [b] is the first row with the highest score. *)
Definition fuzzy_inv `{UnicodeData} {A} (name_of : A -> pystr) (name : pystr)
    (threshold : Q) (seen : list A) (st : option A * Q) : Prop :=
  match st.1 with
  | None =>
      (st.2 == 0)%Q
      /\ forall r, r ∈ seen -> (candidate_score name_of name r < threshold)%Q
  | Some b =>
      st.2 = candidate_score name_of name b
      /\ (threshold <= candidate_score name_of name b)%Q
      /\ exists l1 l2, seen = l1 ++ b :: l2
           /\ (forall r, r ∈ l1 ->
                 (candidate_score name_of name r < candidate_score name_of name b)%Q)
           /\ (forall r, r ∈ l2 ->
                 (candidate_score name_of name r <= candidate_score name_of name b)%Q)
  end.

Definition linked (w : WhoScoredPlayer) : Prop := ws_understat_player_id w <> None.

(** ** Matching blocks *)

(** A block that lies inside the two regions it was searched in. *)
Definition in_region (alo ahi blo bhi : Z) (x : block) : Prop :=
  alo <= x.1.1 /\ blo <= x.1.2 /\ 0 <= x.2 /\ x.1.1 + x.2 <= ahi /\ x.1.2 + x.2 <= bhi.

(** What a row of [j2len] holds before row [i]: lengths of matches that
    end inside the regions. *)
Definition row_ok (alo blo i : Z) (j2len : gmap Z Z) : Prop :=
  forall j v, j2len !! j = Some v -> 1 <= v /\ v <= i - alo /\ v <= j - blo + 1.

Definition total_size (l : list block) : Z :=
  foldr Z.add 0 (List.map (fun t : block => t.2) l).

(** The positions of [x] in [b], counted from [i0]. *)
Fixpoint positions_from (i0 : Z) (x : N) (b : pystr) : list Z :=
  match b with
  | [] => []
  | y :: b' =>
      if N.eqb x y then i0 :: positions_from (i0 + 1) x b'
      else positions_from (i0 + 1) x b'
  end.

(** [j2len.get(j, 0)] *)
Definition val (m : gmap Z Z) (j : Z) : Z := default 0 (m !! j).

(** The length of the run of indexed (not popular) elements of [a] that
    ends with the [n]-th element from [alo] on. *)
Fixpoint run (a : pystr) (alo : Z) (n : nat) : Z :=
  match n with
  | O => 0
  | S n' =>
      match item a (alo + Z.of_nat n') with
      | Some x => if bool_decide (is_Some (chain_b a !! x)) then run a alo n' + 1 else 0
      | None => 0
      end
  end.

Definition run_at (a : pystr) (alo i : Z) : Z := run a alo (Z.to_nat (i + 1 - alo)).

(** ** Tables *)

Definition league_is (code : pystr) (l : League) : bool := pystr_eqb (league_name l) code.
Definition season_is (year lid : Z) (r : Season) : bool :=
  (season_year r =? year) && (season_league_id r =? lid).
Definition team_is (understat_id : Z) (t : Team) : bool := team_understat_id t =? understat_id.
Definition player_is (understat_id : Z) (p : Player) : bool :=
  player_understat_id p =? understat_id.



(** ** The sorted frame *)

Definition has_tackles (r : StatsRow) : bool := bool_decide (is_Some (row_tackles r)).

(** The order on the sort column: a missing value sorts below the rest. *)
Definition tackles_le (x y : option Z) : Prop :=
  match x, y with
  | None, _ => True
  | Some a, Some b => a <= b
  | Some _, None => False
  end.


(** [r] may stand before [r'] in the frame sorted by descending tackles. *)
Definition descending (r r' : StatsRow) : Prop :=
  tackles_le (row_tackles r') (row_tackles r).

(** The column with its positions, from [i0] on. *)
Definition numbered (i0 : nat) (df : list StatsRow) : list (nat * option Z) :=
  zip (seq i0 (length (row_tackles <$> df))) (row_tackles <$> df).

Definition position_value (l : list Z) (i : nat) : Z := default 0 (l !! i).
Definition by_value (l : list Z) (i j : nat) : Prop := position_value l i <= position_value l j.


(** ** Further vocabulary *)

(** The block [x] pairs equal elements of [a] and [b]. *)
Definition block_matches (a b : pystr) (x : block) : Prop :=
  forall t, 0 <= t < x.2 -> same_item a (x.1.1 + t) b (x.1.2 + t) = true.

(** Every length a row of [j2len] holds before row [i] is the length of
    a match that ends at row [i - 1]. *)
Definition row_matches (a b : pystr) (i : Z) (j2len : gmap Z Z) : Prop :=
  forall j v, j2len !! j = Some v ->
    forall t, 0 <= t < v -> same_item a (i - 1 - t) b (j - t) = true.

(** The index [b2j] lists positions of [b] only. *)
Definition index_of (b : pystr) (b2j : gmap N (list Z)) : Prop :=
  forall x js j, b2j !! x = Some js -> j ∈ js -> item b j = Some x.

(** Neither end of [s] is whitespace. *)
Definition stripped (s : pystr) : Prop :=
  match s with
  | [] => True
  | c :: _ => py_isspace c = false /\ forall d, last s = Some d -> py_isspace d = false
  end.

(** A lowercase ASCII character. *)
Definition key_char (c : N) : Prop := (c < 0x80)%N /\ ~ (0x41 <= c <= 0x5A)%N.

(** What a run makes of the row [w]: a row without a link gets the id of
    the player the resolver finds for its name. *)
Definition relinked `{UnicodeData} (s : Store) (threshold : Q) (w : WhoScoredPlayer)
    : WhoScoredPlayer :=
  match ws_understat_player_id w, find_matching_player (ws_name w) s threshold with
  | None, Some p => mkWhoScoredPlayer (ws_id w) (ws_whoscored_id w) (ws_name w)
                      (Some (player_id p))
  | _, _ => w
  end.

(** The rows of [unlinked] the resolver finds a player for. *)
Definition resolvable `{UnicodeData} (s : Store) (threshold : Q) (w : WhoScoredPlayer) : bool :=
  bool_decide (is_Some (find_matching_player (ws_name w) s threshold)).

(** One turn of the loop, seen from the row [r] of the table. *)
Definition link_turn `{UnicodeData} (s : Store) (threshold : Q) (r w : WhoScoredPlayer)
    : WhoScoredPlayer :=
  match find_matching_player (ws_name w) s threshold with
  | Some p =>
      if ws_id r =? ws_id w
      then mkWhoScoredPlayer (ws_id r) (ws_whoscored_id r) (ws_name r) (Some (player_id p))
      else r
  | None => r
  end.

(** The test of the alias loop on one group, by keys. *)
Definition group_has_key `{UnicodeData} (name : pystr) (entry : pystr * list pystr) : bool :=
  existsb (fun n => pystr_eqb (normalize_key n) (normalize_key name)) (entry.1 :: entry.2).

(** Every name of the table meets its own group first. *)
Definition groups_apart `{UnicodeData} : bool :=
  forallb (fun entry : pystr * list pystr =>
             forallb (fun name =>
                        bool_decide (List.find (group_has_key name) TEAM_NAME_MAP = Some entry))
                     (entry.1 :: entry.2))
          TEAM_NAME_MAP.

(** A pattern character that stands for itself. *)
Definition plain_char (c : N) : Prop := c <> 0x25%N /\ c <> 0x5F%N.

(** [s'] holds the rows of [s], each unchanged and at its place, and new
    rows, if any, after them. *)
Definition grows (s s' : Store) : Prop :=
  leagues s `prefix_of` leagues s'
  /\ seasons s `prefix_of` seasons s'
  /\ teams s `prefix_of` teams s'
  /\ players s `prefix_of` players s'
  /\ whoscored_players s `prefix_of` whoscored_players s'.

(** The primary keys of every table grow along the table. *)
Definition ordered (s : Store) : Prop :=
  rowid_order league_id (leagues s)
  /\ rowid_order season_id (seasons s)
  /\ rowid_order team_id (teams s)
  /\ rowid_order player_id (players s)
  /\ rowid_order ws_id (whoscored_players s).

(** A session operation that only adds rows, with fresh primary keys. *)
Definition grows_only {A} (op : Session A) : Prop :=
  forall s, grows s (op s).2 /\ (ordered s -> ordered (op s).2).

(** A capital letter of Latin-1 outside ASCII. *)
Definition latin1_capital (c : N) : Prop := (0xC0 <= c <= 0xDE)%N /\ c <> 0xD7%N.

(** ** Sample data *)

Definition epl : League := mkLeague 1 (u "EPL") (u "English Premier League").
Definition bundesliga : League := mkLeague 2 (u "Bundesliga") (u "Bundesliga").
Definition man_utd : Team := mkTeam 1 89 (u "Manchester United") 1.
Definition arsenal : Team := mkTeam 2 83 (u "Arsenal") 1.
Definition bayern : Team := mkTeam 3 117 (u "Bayern Munich") 2.
Definition saka : Player := mkPlayer 1 7322 (u "Bukayo Saka").
Definition ws_saka : WhoScoredPlayer := mkWhoScoredPlayer 1 367185 (u "Bukayo Saka") (Some 1).

Definition league_only_store : Store := mkStore [epl] [] [] [] [].
Definition one_team_store : Store := mkStore [epl] [] [man_utd] [] [].
Definition sample_store : Store :=
  mkStore [epl; bundesliga] [] [man_utd; arsenal; bayern] [saka] [ws_saka].

(** A stand-in for the string hash of one process. *)
Definition length_hash : PyHash := {| hash s := Z.of_nat (length s) |}.

Definition tied_first : StatsRow := mkStatsRow 1 7 10 3 (Some 5).
Definition tied_second : StatsRow := mkStatsRow 2 7 11 3 (Some 5).
Definition row_12 : StatsRow := mkStatsRow 3 8 10 3 (Some 12).

(** Sample data *)
Definition ws_new : WhoScoredPlayer := mkWhoScoredPlayer 2 300001 (u "bukayo saka") None.

Definition ws_lost : WhoScoredPlayer := mkWhoScoredPlayer 3 300002 (u "Nobody") None.

Definition unlinked_store : Store :=
  mkStore [epl] [] [man_utd; arsenal] [saka] [ws_saka; ws_new; ws_lost].

(** Sample data *)
Definition rodrigo : Player := mkPlayer 1 2000 (u "Rodrigo").

Definition rodri : Player := mkPlayer 2 2496 (u "Rodri").

Definition two_players_store : Store := mkStore [epl] [] [man_utd] [rodrigo; rodri] [].

(** Sample data *)
Definition ostersund : Team := mkTeam 1 500 (u "Östersund") 1.

(** * Lemmas and theorems *)

(** ** Strings *)

Lemma pystr_eqb_refl (s : pystr) : pystr_eqb s s = true.
Proof. unfold pystr_eqb. by apply bool_decide_eq_true_2. Qed.

Lemma pystr_eqb_eq (s t : pystr) : pystr_eqb s t = true <-> s = t.
Proof. unfold pystr_eqb. apply bool_decide_eq_true. Qed.

Lemma Qltb_lt (x y : Q) : Qltb x y = true <-> (x < y)%Q.
Proof.
  unfold Qltb. rewrite negb_true_iff. split.
  - intros Hf. apply Qnot_le_lt. intros Hle. apply Qle_bool_iff in Hle. congruence.
  - intros Hlt. destruct (Qle_bool y x) eqn:E; [|done].
    apply Qle_bool_iff in E. by apply Qlt_not_le in Hlt.
Qed.

Section NormalizeFacts.
Context `{UnicodeData}.

Lemma insert_mark_ascii (c : N) (placed : pystr) :
  is_ascii c = false ->
  encode_ascii_ignore (insert_mark c placed) = encode_ascii_ignore placed.
Proof.
  intros Hc. unfold encode_ascii_ignore.
  induction placed as [|d placed IH]; simpl; [by rewrite Hc|].
  destruct (N.ltb (ccc c) (ccc d)); simpl; [by rewrite IH|by rewrite Hc].
Qed.

Lemma mark_not_ascii (c : N) : N.eqb (ccc c) 0 = false -> is_ascii c = false.
Proof.
  unfold ccc, is_ascii. destruct (N.ltb_spec c 0x100); [done|].
  intros _. apply N.ltb_ge. lia.
Qed.

(** The marks that canonical ordering moves are not ASCII, so the ASCII
    step sees the same characters in the same order with or without it. *)
Lemma canonical_order_ascii (s : pystr) :
  encode_ascii_ignore (canonical_order s) = encode_ascii_ignore s.
Proof.
  unfold canonical_order.
  assert (forall placed,
            encode_ascii_ignore
              (fold_left (fun placed c => if N.eqb (ccc c) 0 then c :: placed
                                          else insert_mark c placed) s placed)
            = rev (encode_ascii_ignore s) ++ encode_ascii_ignore placed) as Hfold.
  { induction s as [|c s IH]; intros placed; simpl; [done|]. rewrite IH.
    destruct (N.eqb (ccc c) 0) eqn:E.
    - unfold encode_ascii_ignore. simpl. destruct (is_ascii c); simpl; [|done].
      by rewrite <- app_assoc.
    - rewrite insert_mark_ascii by (by apply mark_not_ascii).
      unfold encode_ascii_ignore at 3. simpl.
      rewrite (mark_not_ascii c E). done. }
  unfold encode_ascii_ignore at 1. rewrite List.filter_rev.
  fold (encode_ascii_ignore
          (fold_left (fun placed c => if N.eqb (ccc c) 0 then c :: placed
                                      else insert_mark c placed) s [])).
  rewrite Hfold. unfold encode_ascii_ignore at 2. simpl.
  by rewrite app_nil_r, rev_involutive.
Qed.

Lemma normalize_name_key (name : pystr) : normalize_name name = normalize_key name.
Proof.
  unfold normalize_name, normalize_key, nfkd. destruct name; [done|].
  by rewrite canonical_order_ascii.
Qed.

Lemma all_stripped_key (name : pystr) :
  encode_ascii_ignore (nfkd name) = [] -> normalize_name name = [].
Proof. intros Hs. unfold normalize_name. destruct name; [done|]. by rewrite Hs. Qed.

Lemma bayern_keys :
  normalize_name (u "Bayern München") = u "bayern munchen"
  /\ normalize_name (u "Bayern Munich") = u "bayern munich".
Proof. rewrite !normalize_name_key. split; vm_compute; reflexivity. Qed.

Lemma existsb_key (name : pystr) (names : list pystr) :
  existsb (fun n => pystr_eqb (normalize_name n) (normalize_name name)) names
  = existsb (fun n => pystr_eqb (normalize_key n) (normalize_key name)) names.
Proof.
  induction names as [|n names IH]; simpl; [done|].
  by rewrite IH, !normalize_name_key.
Qed.

(** Of the groups of [TEAM_NAME_MAP], only that of Bayern Munich holds a
    name with the key of "Bayern München". *)
Lemma alias_match_bayern (table : list Team) :
  alias_match (u "Bayern München") table
  = first_return (fun name => exact_match team_name name table)
      [u "Bayern Munich"; u "Bayern München"; u "FC Bayern"].
Proof.
  unfold alias_match, TEAM_NAME_MAP. cbn [first_return fst snd].
  rewrite !existsb_key.
  repeat match goal with
  | |- context [existsb ?f ?l] =>
      let b := eval vm_compute in (existsb f l) in
      change (existsb f l) with b; cbv iota
  end.
  match goal with |- match ?x with _ => _ end = _ => by destruct x end.
Qed.

End NormalizeFacts.

(** ** The matching blocks of [SequenceMatcher] *)

Lemma row_ok_empty alo blo i : row_ok alo blo i ∅.
Proof. intros j v Hv. rewrite lookup_empty in Hv. discriminate. Qed.

Lemma row_ok_get alo blo i j2len j :
  row_ok alo blo i j2len -> alo <= i -> blo <= j ->
  1 <= default 0 (j2len !! (j - 1)) + 1 <= i - alo + 1 /\
  default 0 (j2len !! (j - 1)) + 1 <= j - blo + 1.
Proof.
  intros Hrow Hi Hj. destruct (j2len !! (j - 1)) as [v|] eqn:E; simpl.
  - destruct (Hrow _ _ E) as (? & ? & ?). lia.
  - lia.
Qed.

Lemma scan_row_region js : forall i alo ahi blo bhi j2len newj2len best,
  alo <= i < ahi ->
  row_ok alo blo i j2len ->
  row_ok alo blo (i + 1) newj2len ->
  in_region alo ahi blo bhi best ->
  row_ok alo blo (i + 1) (scan_row js i blo bhi j2len newj2len best).1 /\
  in_region alo ahi blo bhi (scan_row js i blo bhi j2len newj2len best).2.
Proof.
  induction js as [|j js IH]; intros i alo ahi blo bhi j2len newj2len best Hi Hrow Hnew Hbest;
    simpl; [done|].
  destruct (Z.ltb_spec j blo); [by apply IH|].
  destruct (Z.leb_spec bhi j); [done|].
  destruct (row_ok_get alo blo i j2len j Hrow) as [Hk1 Hk2]; [lia..|].
  apply IH; try done.
  - intros j' v. rewrite lookup_insert. case_decide; [|by apply Hnew].
    intros [= <-]. subst j'. lia.
  - destruct (Z.ltb_spec best.2 (default 0 (j2len !! (j - 1)) + 1)); [|done].
    unfold in_region; simpl. lia.
Qed.

Lemma scan_region n : forall a b2j alo ahi blo bhi i j2len best,
  alo <= i -> i + Z.of_nat n <= ahi ->
  row_ok alo blo i j2len ->
  in_region alo ahi blo bhi best ->
  in_region alo ahi blo bhi (scan (seqZ i (Z.of_nat n)) a b2j blo bhi j2len best).
Proof.
  induction n as [|n IH]; intros a b2j alo ahi blo bhi i j2len best Hlo Hhi Hrow Hbest.
  - done.
  - rewrite seqZ_cons by lia. simpl.
    set (js := match item a i with Some x => default [] (b2j !! x) | None => [] end).
    destruct (scan_row_region js i alo ahi blo bhi j2len ∅ best) as [Hrow' Hbest'];
      [lia | done | apply row_ok_empty | done |].
    destruct (scan_row js i blo bhi j2len ∅ best) as [newj2len best'].
    replace (Z.pred (Z.of_nat (S n))) with (Z.of_nat n) by lia.
    apply IH; [lia | lia | done | done].
Qed.

Lemma extend_left_region fuel : forall a b alo ahi blo bhi best,
  in_region alo ahi blo bhi best ->
  in_region alo ahi blo bhi (extend_left fuel a b alo blo best).
Proof.
  induction fuel as [|fuel IH]; intros a b alo ahi blo bhi [[besti bestj] bestsize] Hbest;
    simpl; [done|].
  destruct (_ && _) eqn:E; [|done].
  apply IH. unfold in_region in *; simpl in *.
  rewrite !andb_true_iff, !Z.ltb_lt in E. lia.
Qed.

Lemma extend_right_region fuel : forall a b alo ahi blo bhi best,
  in_region alo ahi blo bhi best ->
  in_region alo ahi blo bhi (extend_right fuel a b ahi bhi best).
Proof.
  induction fuel as [|fuel IH]; intros a b alo ahi blo bhi [[besti bestj] bestsize] Hbest;
    simpl; [done|].
  destruct (_ && _) eqn:E; [|done].
  apply IH. unfold in_region in *; simpl in *.
  rewrite !andb_true_iff, !Z.ltb_lt in E. lia.
Qed.

Lemma find_longest_match_region a b b2j alo ahi blo bhi :
  alo <= ahi -> blo <= bhi ->
  in_region alo ahi blo bhi (find_longest_match a b b2j alo ahi blo bhi).
Proof.
  intros Ha Hb. unfold find_longest_match.
  apply extend_right_region, extend_left_region.
  replace (ahi - alo) with (Z.of_nat (Z.to_nat (ahi - alo))) by lia.
  apply scan_region; [lia | lia | | unfold in_region; simpl; lia].
  intros j v Hv. rewrite lookup_empty in Hv. discriminate.
Qed.


Lemma total_size_app l1 l2 : total_size (l1 ++ l2) = total_size l1 + total_size l2.
Proof. unfold total_size. induction l1 as [|x l1 IH]; simpl; lia. Qed.

Lemma total_size_cons x l : total_size (x :: l) = x.2 + total_size l.
Proof. done. Qed.

Lemma blocks_in_total fuel : forall a b b2j alo ahi blo bhi,
  alo <= ahi -> blo <= bhi ->
  0 <= total_size (blocks_in fuel a b b2j alo ahi blo bhi) <= Z.min (ahi - alo) (bhi - blo).
Proof.
  induction fuel as [|fuel IH]; intros a b b2j alo ahi blo bhi Ha Hb; simpl.
  - unfold total_size; simpl. lia.
  - pose proof (find_longest_match_region a b b2j alo ahi blo bhi Ha Hb) as Hr.
    destruct (find_longest_match a b b2j alo ahi blo bhi) as [[i j] k].
    unfold in_region in Hr; simpl in Hr.
    destruct (Z.eqb_spec k 0); [unfold total_size; simpl; lia|].
    rewrite total_size_cons, total_size_app. simpl.
    assert (0 <= total_size
                   (if (i + k <? ahi) && (j + k <? bhi)
                    then blocks_in fuel a b b2j (i + k) ahi (j + k) bhi else [])
            <= Z.min (ahi - (i + k)) (bhi - (j + k))) as Hright.
    { destruct ((i + k <? ahi) && (j + k <? bhi)) eqn:E.
      - rewrite andb_true_iff, !Z.ltb_lt in E. apply IH; lia.
      - unfold total_size; simpl. lia. }
    assert (0 <= total_size
                   (if (alo <? i) && (blo <? j)
                    then blocks_in fuel a b b2j alo i blo j else [])
            <= Z.min (i - alo) (j - blo)) as Hleft.
    { destruct ((alo <? i) && (blo <? j)) eqn:E.
      - rewrite andb_true_iff, !Z.ltb_lt in E. apply IH; lia.
      - unfold total_size; simpl. lia. }
    lia.
Qed.

(** More fuel than the region of [a] is long changes nothing. *)
Lemma blocks_in_fuel fuel : forall fuel' a b b2j alo ahi blo bhi,
  alo <= ahi -> blo <= bhi ->
  (Z.to_nat (ahi - alo) < fuel)%nat -> (fuel <= fuel')%nat ->
  blocks_in fuel' a b b2j alo ahi blo bhi = blocks_in fuel a b b2j alo ahi blo bhi.
Proof.
  induction fuel as [|fuel IH]; intros fuel' a b b2j alo ahi blo bhi Ha Hb Hlt Hle; [lia|].
  destruct fuel' as [|fuel']; [lia|]. simpl.
  pose proof (find_longest_match_region a b b2j alo ahi blo bhi Ha Hb) as Hr.
  destruct (find_longest_match a b b2j alo ahi blo bhi) as [[i j] k].
  unfold in_region in Hr; simpl in Hr.
  destruct (Z.eqb_spec k 0); [done|].
  f_equal. f_equal.
  - destruct ((i + k <? ahi) && (j + k <? bhi)) eqn:E; [|done].
    rewrite andb_true_iff, !Z.ltb_lt in E. apply IH; lia.
  - destruct ((alo <? i) && (blo <? j)) eqn:E; [|done].
    rewrite andb_true_iff, !Z.ltb_lt in E. apply IH; lia.
Qed.

Lemma insert_block_total x l : total_size (insert_block x l) = x.2 + total_size l.
Proof.
  induction l as [|y l IH]; simpl; [done|].
  destruct (block_leb x y); [done|].
  unfold total_size in *. simpl. rewrite IH. lia.
Qed.

Lemma sort_blocks_total l : total_size (sort_blocks l) = total_size l.
Proof.
  induction l as [|x l IH]; [done|].
  unfold sort_blocks in *. simpl. rewrite insert_block_total, IH. done.
Qed.

Lemma collapse_total l : forall cur, total_size (collapse cur l) = cur.2 + total_size l.
Proof.
  induction l as [|[[i2 j2] k2] l IH]; intros [[i1 j1] k1]; simpl.
  - destruct (Z.eqb_spec k1 0); unfold total_size; simpl; lia.
  - destruct (_ && _).
    + rewrite IH. unfold total_size; simpl. lia.
    + rewrite total_size_app, IH.
      destruct (Z.eqb_spec k1 0); unfold total_size; simpl; lia.
Qed.

Lemma matches_total a b :
  total_size (get_matching_blocks a b)
  = total_size (blocks_in (S (length a)) a b (chain_b b) 0 (Z.of_nat (length a)) 0
                  (Z.of_nat (length b))).
Proof.
  unfold get_matching_blocks. rewrite total_size_app, collapse_total, sort_blocks_total.
  unfold total_size at 2. simpl. lia.
Qed.

Lemma ratio_range a b : (0 <= ratio a b <= 1)%Q.
Proof.
  unfold ratio. fold (total_size (get_matching_blocks a b)). rewrite matches_total.
  pose proof (blocks_in_total (S (length a)) a b (chain_b b) 0 (Z.of_nat (length a)) 0
                (Z.of_nat (length b))) as Hm.
  set (m := total_size _) in *.
  unfold calculate_ratio.
  destruct (Z.eqb_spec (Z.of_nat (length a) + Z.of_nat (length b)) 0) as [|Hne].
  - split; [discriminate | apply Qle_refl].
  - unfold Qle; simpl. rewrite Z2Pos.id by lia. lia.
Qed.

Lemma index_from_lookup b : forall i0 m x,
  index_from i0 b m !! x =
  match positions_from i0 x b with
  | [] => m !! x
  | ps => Some (default [] (m !! x) ++ ps)
  end.
Proof.
  induction b as [|y b IH]; intros i0 m x; simpl; [done|].
  rewrite IH. destruct (N.eqb_spec x y) as [->|Hne].
  - rewrite lookup_insert_eq. simpl.
    destruct (positions_from (i0 + 1) y b); [done|].
    by rewrite <- app_assoc.
  - by rewrite lookup_insert_ne.
Qed.

Lemma chain_b_lookup b x js :
  chain_b b !! x = Some js -> js = positions_from 0 x b.
Proof.
  unfold chain_b. intros Hl.
  assert (index_from 0 b ∅ !! x = Some js) as Hi.
  { destruct (200 <=? Z.of_nat (length b)); [|done].
    by apply map_lookup_filter_Some in Hl as [? _]. }
  rewrite index_from_lookup, lookup_empty in Hi.
  destruct (positions_from 0 x b); [done|]. by injection Hi as <-.
Qed.

Lemma positions_from_elem b : forall i0 x j,
  j ∈ positions_from i0 x b <-> i0 <= j /\ b !! Z.to_nat (j - i0) = Some x.
Proof.
  induction b as [|y b IH]; intros i0 x j; simpl.
  - rewrite elem_of_nil. split; [done|]. intros [_ Hl]. by rewrite lookup_nil in Hl.
  - destruct (Z.eq_dec j i0) as [->|Hne].
    + replace (Z.to_nat (i0 - i0)) with 0%nat by lia. simpl.
      destruct (N.eqb_spec x y) as [->|Hxy].
      * split; [intros _; split; [lia|done] | intros _; apply elem_of_cons; by left].
      * rewrite IH. split; [lia|]. intros [_ [= ->]]. done.
    + assert (j ∈ (if N.eqb x y then i0 :: positions_from (i0 + 1) x b
                   else positions_from (i0 + 1) x b)
              <-> j ∈ positions_from (i0 + 1) x b) as ->.
      { destruct (N.eqb x y); [|done]. rewrite elem_of_cons. tauto. }
      rewrite IH. split.
      * intros [Hle Hl]. split; [lia|].
        replace (Z.to_nat (j - i0)) with (S (Z.to_nat (j - (i0 + 1)))) by lia. done.
      * intros [Hle Hl]. split; [lia|].
        replace (Z.to_nat (j - i0)) with (S (Z.to_nat (j - (i0 + 1)))) in Hl by lia. done.
Qed.

Lemma positions_from_sorted b : forall i0 x, StronglySorted Z.lt (positions_from i0 x b).
Proof.
  induction b as [|y b IH]; intros i0 x; simpl; [constructor|].
  destruct (N.eqb x y); [|apply IH].
  constructor; [apply IH|].
  apply Forall_forall. intros j Hj. apply positions_from_elem in Hj. lia.
Qed.

Lemma positions_item b x j : j ∈ positions_from 0 x b <-> item b j = Some x.
Proof.
  rewrite positions_from_elem. unfold item.
  destruct (Z.ltb_spec j 0).
  - split; [lia|done].
  - replace (j - 0) with j by lia. tauto.
Qed.

Lemma val_empty j : val ∅ j = 0.
Proof. unfold val. by rewrite lookup_empty. Qed.

Lemma val_insert m j k j' : val (<[j := k]> m) j' = if decide (j = j') then k else val m j'.
Proof. unfold val. rewrite lookup_insert. by case_decide. Qed.

Section Diagonal.
Variables (a : pystr) (alo ahi : Z).
Hypothesis Hlo : 0 <= alo.
Hypothesis Hhi : ahi <= Z.of_nat (length a).

Local Abbreviation run_here := (run_at a alo).


Lemma run_nonneg (n : nat) : 0 <= run a alo n.
Proof. induction n; simpl; [lia|]. repeat case_match; lia. Qed.

Lemma run_at_nonneg i : 0 <= run_here i.
Proof. apply run_nonneg. Qed.

Lemma run_at_below i : i < alo -> run_here i = 0.
Proof. intros Hi. unfold run_at. by replace (Z.to_nat (i + 1 - alo)) with 0%nat by lia. Qed.

Lemma run_at_unfold i :
  alo <= i ->
  run_here i = match item a i with
             | Some x => if bool_decide (is_Some (chain_b a !! x))
                         then run_here (i - 1) + 1 else 0
             | None => 0
             end.
Proof.
  intros Hi. unfold run_at.
  replace (Z.to_nat (i + 1 - alo)) with (S (Z.to_nat (i - 1 + 1 - alo))) by lia.
  simpl. replace (alo + Z.of_nat (Z.to_nat (i - 1 + 1 - alo))) with i by lia. done.
Qed.

Lemma run_at_step i x :
  alo <= i -> item a i = Some x -> is_Some (chain_b a !! x) ->
  run_here i = run_here (i - 1) + 1.
Proof.
  intros Hi Hx Hk. rewrite run_at_unfold, Hx by done.
  by rewrite bool_decide_eq_true_2.
Qed.

Lemma item_in_range i : 0 <= i < Z.of_nat (length a) -> is_Some (item a i).
Proof.
  intros Hi. unfold item. destruct (Z.ltb_spec i 0); [lia|].
  apply lookup_lt_is_Some. lia.
Qed.

Lemma scan_row_diag js : forall i x j2len newj2len best,
  alo <= i < ahi ->
  item a i = Some x -> is_Some (chain_b a !! x) ->
  StronglySorted Z.lt js -> (forall j, j ∈ js -> item a j = Some x) ->
  (forall j, val j2len j <= run_here j) ->
  (forall j, val j2len j <= run_here (i - 1)) ->
  val j2len (i - 1) = run_here (i - 1) ->
  best.1.1 = best.1.2 ->
  (forall y, alo <= y < i -> run_here y <= best.2) ->
  (forall j, val newj2len j <= run_here j /\ val newj2len j <= run_here i) ->
  (i ∈ js \/ (val newj2len i = run_here i /\ run_here i <= best.2)) ->
  let r := scan_row js i alo ahi j2len newj2len best in
  r.2.1.1 = r.2.1.2 /\
  (forall y, alo <= y < i + 1 -> run_here y <= r.2.2) /\
  (forall j, val r.1 j <= run_here j /\ val r.1 j <= run_here i) /\
  val r.1 i = run_here i.
Proof.
  induction js as [|j js IH];
    intros i x j2len newj2len best Hi Hx Hk Hsorted Hitems Hprev1 Hprev2 Hprev3
           Hdiag Hbest Hnew Hseen.
  - simpl. destruct Hseen as [Hin|[Hv Hr]]; [by apply elem_of_nil in Hin|].
    repeat split; try done; try apply Hnew.
    intros y Hy. destruct (Z.eq_dec y i) as [->|]; [done|apply Hbest; lia].
  - apply StronglySorted_inv in Hsorted as [Hsorted Hlt].
    rewrite Forall_forall in Hlt.
    assert (forall j', j' ∈ js -> item a j' = Some x) as Hitems'.
    { intros j' Hj'. apply Hitems, elem_of_cons. by right. }
    simpl. destruct (Z.ltb_spec j alo) as [Hjlo|Hjlo].
    { apply (IH i x); try done.
      destruct Hseen as [Hin|]; [|by right].
      apply elem_of_cons in Hin as [->|]; [lia|by left]. }
    destruct (Z.leb_spec ahi j) as [Hjhi|Hjhi].
    { simpl. assert (val newj2len i = run_here i /\ run_here i <= best.2) as [Hv Hr].
      { destruct Hseen as [Hin|]; [|done].
        apply elem_of_cons in Hin as [->|Hin]; [lia|]. apply Hlt in Hin. lia. }
      repeat split; try done; try apply Hnew.
      intros y Hy. destruct (Z.eq_dec y i) as [->|]; [done|apply Hbest; lia]. }
    assert (item a j = Some x) as Hj by (apply Hitems, elem_of_cons; by left).
    pose proof (run_at_step j x Hjlo Hj Hk) as Hrj.
    pose proof (run_at_step i x (proj1 Hi) Hx Hk) as Hri.
    fold (val j2len (j - 1)).
    set (k := val j2len (j - 1) + 1).
    assert (k <= run_here j) as Hkj by (specialize (Hprev1 (j - 1)); lia).
    assert (k <= run_here i) as Hki by (specialize (Hprev2 (j - 1)); lia).
    set (best' := if best.2 <? k then (i - k + 1, j - k + 1, k) else best).
    assert (best.2 <= best'.2 /\ k <= best'.2) as [Hge Hgek].
    { unfold best'. destruct (Z.ltb_spec best.2 k); simpl; lia. }
    apply (IH i x); try done.
    + unfold best'. destruct (Z.ltb_spec best.2 k); [|done]. simpl.
      destruct Hseen as [Hin|[_ Hr]].
      * apply elem_of_cons in Hin as [->|Hin]; [done|]. apply Hlt in Hin.
        specialize (Hbest j). lia.
      * lia.
    + intros y Hy. specialize (Hbest y Hy). lia.
    + intros j'. rewrite val_insert. case_decide; [subst j'; done|apply Hnew].
    + rewrite val_insert.
      destruct Hseen as [Hin|[Hv Hr]].
      * apply elem_of_cons in Hin as [->|Hin]; [|by left].
        right. rewrite decide_True by done. unfold k in *. lia.
      * right. case_decide; [subst j; unfold k in *; lia|lia].
Qed.

Lemma scan_diag n : forall i j2len best,
  alo <= i -> i + Z.of_nat n <= ahi ->
  best.1.1 = best.1.2 -> 0 <= best.2 ->
  (forall y, alo <= y < i -> run_here y <= best.2) ->
  (forall j, val j2len j <= run_here j) ->
  (forall j, val j2len j <= run_here (i - 1)) ->
  val j2len (i - 1) = run_here (i - 1) ->
  let r := scan (seqZ i (Z.of_nat n)) a (chain_b a) alo ahi j2len best in
  r.1.1 = r.1.2.
Proof.
  induction n as [|n IH];
    intros i j2len best Hi Hn Hdiag Hpos Hbest Hprev1 Hprev2 Hprev3; [done|].
  rewrite seqZ_cons by lia. simpl.
  replace (Z.pred (Z.of_nat (S n))) with (Z.of_nat n) by lia.
  destruct (item_in_range i) as [x Hx]; [lia|]. rewrite Hx.
  destruct (chain_b a !! x) as [js|] eqn:Hjs; simpl.
  - pose proof (chain_b_lookup _ _ _ Hjs) as ->.
    assert (is_Some (chain_b a !! x)) as Hk by (by rewrite Hjs).
    assert (forall j, j ∈ positions_from 0 x a -> item a j = Some x) as Hitems.
    { intros j Hj. by apply positions_item. }
    assert (forall j, val ∅ j <= run_here j /\ val ∅ j <= run_here i) as Hnew.
    { intros j. rewrite val_empty. split; apply run_at_nonneg. }
    assert (i ∈ positions_from 0 x a) as Hin by (by apply positions_item).
    destruct (scan_row_diag (positions_from 0 x a) i x j2len ∅ best
                ltac:(lia) Hx Hk (positions_from_sorted a 0 x) Hitems
                Hprev1 Hprev2 Hprev3 Hdiag Hbest Hnew (or_introl Hin))
      as (Hd & Hb & Hn1 & Hn2).
    destruct (scan_row (positions_from 0 x a) i alo ahi j2len ∅ best)
      as [newj2len best'] eqn:E. simpl in *.
    apply IH.
    + lia.
    + lia.
    + done.
    + specialize (Hb i). pose proof (run_at_nonneg i). lia.
    + intros y Hy. apply Hb. lia.
    + intros j. apply Hn1.
    + intros j. replace (Z.succ i - 1) with i by lia. apply Hn1.
    + by replace (Z.succ i - 1) with i by lia.
  - assert (run_here i = 0) as Hr0.
    { rewrite run_at_unfold, Hx by done. rewrite bool_decide_eq_false_2; [done|].
      rewrite Hjs. by intros [? ?]. }
    apply IH.
    + lia.
    + lia.
    + done.
    + done.
    + intros y Hy. destruct (Z.eq_dec y i) as [->|]; [lia|apply Hbest; lia].
    + intros j. rewrite val_empty. apply run_at_nonneg.
    + intros j. rewrite val_empty. apply run_at_nonneg.
    + replace (Z.succ i - 1) with i by lia. by rewrite val_empty.
Qed.

Lemma same_item_refl i : 0 <= i < Z.of_nat (length a) -> same_item a i a i = true.
Proof.
  intros Hi. unfold same_item. destruct (item_in_range i Hi) as [x ->].
  apply N.eqb_refl.
Qed.

Lemma extend_left_diag fuel : forall d s,
  alo <= d -> d <= Z.of_nat (length a) -> fuel = Z.to_nat (d - alo) ->
  extend_left fuel a a alo alo (d, d, s) = (alo, alo, s + (d - alo)).
Proof.
  induction fuel as [|fuel IH]; intros d s Hd Hlen Hf; simpl.
  - f_equal; [f_equal|]; lia.
  - destruct (Z.ltb_spec alo d); [|lia]. simpl.
    rewrite same_item_refl by lia.
    rewrite IH by lia. f_equal. lia.
Qed.

Lemma extend_right_diag fuel : forall s,
  0 <= s -> alo + s <= ahi -> fuel = Z.to_nat (ahi - (alo + s)) ->
  extend_right fuel a a ahi ahi (alo, alo, s) = (alo, alo, ahi - alo).
Proof.
  induction fuel as [|fuel IH]; intros s Hs Hle Hf; simpl.
  - f_equal. lia.
  - destruct (Z.ltb_spec (alo + s) ahi); [|lia]. simpl.
    rewrite same_item_refl by lia.
    apply IH; lia.
Qed.

Lemma find_longest_match_self :
  alo <= ahi ->
  find_longest_match a a (chain_b a) alo ahi alo ahi = (alo, alo, ahi - alo).
Proof.
  intros Hle. unfold find_longest_match.
  pose proof (scan_region (Z.to_nat (ahi - alo)) a (chain_b a) alo ahi alo ahi alo ∅
                (alo, alo, 0)) as Hreg.
  pose proof (scan_diag (Z.to_nat (ahi - alo)) alo ∅ (alo, alo, 0)) as Hdiag.
  replace (Z.of_nat (Z.to_nat (ahi - alo))) with (ahi - alo) in * by lia.
  destruct (scan (seqZ alo (ahi - alo)) a (chain_b a) alo ahi ∅ (alo, alo, 0))
    as [[d d'] s].
  destruct Hreg as (Hr1 & Hr2 & Hr3 & Hr4 & Hr5);
    [lia | lia | apply row_ok_empty | unfold in_region; simpl; lia |].
  simpl in *.
  assert (d = d') as <-.
  { apply Hdiag.
    - lia.
    - lia.
    - done.
    - simpl. lia.
    - intros y Hy. lia.
    - intros j. rewrite val_empty. apply run_at_nonneg.
    - intros j. rewrite val_empty. apply run_at_nonneg.
    - rewrite val_empty. by rewrite run_at_below by lia. }
  rewrite extend_left_diag by lia. simpl.
  apply extend_right_diag; lia.
Qed.

End Diagonal.

Lemma blocks_in_self a :
  blocks_in (S (length a)) a a (chain_b a) 0 (Z.of_nat (length a)) 0 (Z.of_nat (length a))
  = match a with [] => [] | _ => [(0, 0, Z.of_nat (length a))] end.
Proof.
  simpl blocks_in at 1.
  rewrite find_longest_match_self by lia.
  replace (Z.of_nat (length a) - 0) with (Z.of_nat (length a)) by lia.
  destruct a as [|x a]; [done|].
  destruct (Z.eqb_spec (Z.of_nat (length (x :: a))) 0) as [E|_]; [simpl in E; lia|].
  rewrite !Z.ltb_irrefl. simpl. done.
Qed.

(** A sequence matches itself in one block. *)
Lemma ratio_self (a : pystr) : (ratio a a == 1)%Q.
Proof.
  unfold ratio. fold (total_size (get_matching_blocks a a)).
  rewrite matches_total, blocks_in_self.
  unfold calculate_ratio. destruct a as [|x a]; [done|].
  rewrite total_size_cons. unfold total_size. simpl foldr. cbn [snd].
  destruct (Z.eqb_spec (Z.of_nat (length (x :: a)) + Z.of_nat (length (x :: a))) 0) as [E|_];
    [simpl in E; lia|].
  unfold Qeq. simpl Qnum. simpl Qden. lia.
Qed.

(** ** The similarity score *)

(** C7, as stated, fails: the score depends on the order of its two
    arguments.  "tide" against "diet" scores 1/4 and "diet" against "tide"
    scores 1/2, whatever the Unicode data. *)
Lemma similarity_not_symmetric :
  exists a b : pystr,
    forall U : UnicodeData, ~ (similarity_score a b == similarity_score b a)%Q.
Proof.
  exists (u "tide"), (u "diet"). intros U. unfold similarity_score.
  rewrite !normalize_name_key. by vm_compute.
Qed.

(** C7, amended: for all names [a] and [b] the score lies in [0, 1], and
    the score of a name against itself is 1. *)
Theorem similarity_score_bounds `{UnicodeData} (a b : pystr) :
  (0 <= similarity_score a b <= 1)%Q /\ (similarity_score a a == 1)%Q.
Proof. split; [apply ratio_range | apply ratio_self]. Qed.

(** ** Tables and [first_row] *)

Lemma first_row_head {A} (p : A -> bool) (table : list A) :
  first_row p table = head (List.filter p table).
Proof.
  unfold first_row. induction table as [|r table IH]; simpl; [done|].
  by destruct (p r).
Qed.

Lemma first_row_only {A} (p : A -> bool) (table : list A) (r : A) :
  first_row p table = Some r -> (length (List.filter p table) <= 1)%nat ->
  List.filter p table = [r].
Proof.
  rewrite first_row_head. destruct (List.filter p table) as [|r' [|r'' l]]; simpl; try done.
  - by intros [= ->].
  - lia.
Qed.

Lemma first_row_none {A} (p : A -> bool) (table : list A) :
  first_row p table = None -> List.filter p table = [].
Proof. rewrite first_row_head. by destruct (List.filter p table). Qed.

Lemma first_row_none_elem {A} (p : A -> bool) (table : list A) (r : A) :
  first_row p table = None -> r ∈ table -> p r = false.
Proof.
  intros Hn Hr. apply list_elem_of_In in Hr.
  exact (List.find_none p table Hn r Hr).
Qed.

Lemma first_row_some {A} (p : A -> bool) (table : list A) (r : A) :
  first_row p table = Some r -> r ∈ table /\ p r = true.
Proof.
  intros Hs. apply List.find_some in Hs as [Hin Hp]. by apply list_elem_of_In in Hin.
Qed.

Lemma first_row_app {A} (p : A -> bool) (table : list A) (r : A) :
  first_row p (table ++ [r]) =
  match first_row p table with
  | Some r' => Some r'
  | None => if p r then Some r else None
  end.
Proof.
  unfold first_row. induction table as [|r' table IH]; simpl; [done|].
  by destruct (p r').
Qed.

Lemma first_row_added {A} (p : A -> bool) (table : list A) (r : A) :
  first_row p table = None -> p r = true ->
  first_row p (table ++ [r]) = Some r /\ List.filter p (table ++ [r]) = [r].
Proof.
  intros Hn Hp. rewrite first_row_app, Hn, Hp. split; [done|].
  rewrite List.filter_app, (first_row_none _ _ Hn). simpl. by rewrite Hp.
Qed.

Lemma next_id_above (ids : list Z) (id : Z) : id ∈ ids -> id < next_id ids.
Proof.
  unfold next_id. induction ids as [|i ids IH]; intros Hin.
  - by apply elem_of_nil in Hin.
  - simpl. apply elem_of_cons in Hin as [->|Hin]; [lia|]. specialize (IH Hin). lia.
Qed.

(** A row added with the next rowid keeps the table in rowid order. *)
Lemma rowid_order_add {A} (id : A -> Z) (table : list A) (r : A) :
  rowid_order id table -> id r = next_id (id <$> table) -> rowid_order id (table ++ [r]).
Proof.
  intros Hord Hid. unfold rowid_order. apply StronglySorted_app.
  split; [|split; [done|repeat constructor]].
  intros x y Hx Hy. apply list_elem_of_singleton in Hy. subst y. rewrite Hid.
  by apply next_id_above, list_elem_of_fmap_2.
Qed.

Lemma store_eta (s : Store) :
  mkStore (leagues s) (seasons s) (teams s) (players s) (whoscored_players s) = s.
Proof. by destruct s. Qed.

(** ** Get-or-create by authoritative identity *)

(** The four get-or-create functions are one pattern: look the identity
    up with [p] in a table, and add a row when there is none. *)
Definition get_or_create_by {A} (p : A -> bool) (table : Store -> list A)
    (add : Session A) : Session A :=
  row ← query (fun s => first_row p (table s));
  match row with
  | Some row => ret row
  | None => add
  end.

Lemma get_or_create_by_twice {A} (p : A -> bool) (table : Store -> list A)
    (add : Session A) :
  (forall s, p (add s).1 = true /\ table (add s).2 = table s ++ [(add s).1]) ->
  forall s r1 s1,
    (length (List.filter p (table s)) <= 1)%nat ->
    get_or_create_by p table add s = (r1, s1) ->
    get_or_create_by p table add s1 = (r1, s1)
    /\ List.filter p (table s1) = [r1].
Proof.
  intros Hadd s r1 s1 Hone.
  unfold get_or_create_by, mbind, session_bind, query, ret, mret, session_ret.
  destruct (first_row p (table s)) as [r|] eqn:E.
  - intros [= <- <-]. rewrite E. split; [done|]. by apply first_row_only.
  - intros Hs. destruct (Hadd s) as [Hp Htable]. rewrite Hs in Hp, Htable. simpl in *.
    destruct (first_row_added p (table s) r1 E Hp) as [Hfirst Hfilter].
    rewrite Htable, Hfirst, Hfilter. done.
Qed.

Lemma get_or_create_by_found {A} (p : A -> bool) (table : Store -> list A)
    (add : Session A) (s : Store) (r : A) :
  first_row p (table s) = Some r -> get_or_create_by p table add s = (r, s).
Proof.
  intros Hr. unfold get_or_create_by, mbind, session_bind, query. by rewrite Hr.
Qed.

(** C3: for each of league, season, team and player, a table that holds
    at most one row of an identity holds exactly one after get-or-create
    was called with it, and a second call with the same identity returns
    that row and leaves the store as it is. *)
Theorem get_or_create_idempotent :
  (forall s code r1 s1,
     (length (List.filter (league_is code) (leagues s)) <= 1)%nat ->
     Understat._get_or_create_league code s = (r1, s1) ->
     Understat._get_or_create_league code s1 = (r1, s1)
     /\ List.filter (league_is code) (leagues s1) = [r1])
  /\ (forall s year league r1 s1,
     (length (List.filter (season_is year (league_id league)) (seasons s)) <= 1)%nat ->
     Understat._get_or_create_season year league s = (r1, s1) ->
     Understat._get_or_create_season year league s1 = (r1, s1)
     /\ List.filter (season_is year (league_id league)) (seasons s1) = [r1])
  /\ (forall s understat_id name league r1 s1,
     (length (List.filter (team_is understat_id) (teams s)) <= 1)%nat ->
     Understat._get_or_create_team understat_id name league s = (r1, s1) ->
     Understat._get_or_create_team understat_id name league s1 = (r1, s1)
     /\ List.filter (team_is understat_id) (teams s1) = [r1])
  /\ (forall s understat_id name r1 s1,
     (length (List.filter (player_is understat_id) (players s)) <= 1)%nat ->
     Understat._get_or_create_player understat_id name s = (r1, s1) ->
     Understat._get_or_create_player understat_id name s1 = (r1, s1)
     /\ List.filter (player_is understat_id) (players s1) = [r1]).
Proof.
  split; [|split; [|split]].
  - intros s code.
    apply (get_or_create_by_twice (league_is code) leagues
             (add_league code (Understat.LEAGUES_get code))).
    intros s'. split; [apply pystr_eqb_refl|done].
  - intros s year league.
    apply (get_or_create_by_twice (season_is year (league_id league)) seasons
             (add_season year (league_id league))).
    intros s'. split; [|done]. unfold season_is. simpl. by rewrite !Z.eqb_refl.
  - intros s understat_id name league.
    apply (get_or_create_by_twice (team_is understat_id) teams
             (add_team understat_id name (league_id league))).
    intros s'. split; [apply Z.eqb_refl|done].
  - intros s understat_id name.
    apply (get_or_create_by_twice (player_is understat_id) players
             (add_player understat_id name)).
    intros s'. split; [apply Z.eqb_refl|done].
Qed.

Lemma get_or_create_idempotent_witness :
  (length (List.filter (team_is 89) (teams league_only_store)) <= 1)%nat
  /\ Understat._get_or_create_team 89 (u "Manchester United") epl league_only_store
     = (man_utd, one_team_store)
  /\ Understat._get_or_create_team 89 (u "Manchester United") epl one_team_store
     = (man_utd, one_team_store)
  /\ List.filter (team_is 89) (teams one_team_store) = [man_utd].
Proof.
  split; [simpl; lia|]. split; [reflexivity|].
  apply (proj1 (proj2 (proj2 get_or_create_idempotent))
           league_only_store 89 (u "Manchester United") epl man_utd one_team_store).
  - simpl. lia.
  - reflexivity.
Defined.

(** C2, as stated, fails: Understat's id 89 is stored under the name
    "Manchester United"; a call with the same id and the name
    "Newcastle United" returns the stored row and leaves the store as it
    is.  Nothing is raised and the record is not skipped. *)
Lemma conflicting_name_reuses_row :
  team_name man_utd <> u "Newcastle United"
  /\ Understat._get_or_create_team 89 (u "Newcastle United") epl one_team_store
     = (man_utd, one_team_store).
Proof. split; by vm_compute. Qed.

(** C2, amended: when the supplied authoritative id is already in the
    table, get-or-create of a team or of a player returns the stored row
    and leaves the store as it is, whatever name is supplied; the names
    are not compared. *)
Theorem get_or_create_existing_id :
  (forall s understat_id name league t,
     first_row (team_is understat_id) (teams s) = Some t ->
     Understat._get_or_create_team understat_id name league s = (t, s))
  /\ (forall s understat_id name p,
     first_row (player_is understat_id) (players s) = Some p ->
     Understat._get_or_create_player understat_id name s = (p, s)).
Proof.
  split.
  - intros s understat_id name league t.
    apply (get_or_create_by_found (team_is understat_id) teams).
  - intros s understat_id name p.
    apply (get_or_create_by_found (player_is understat_id) players).
Qed.

Lemma get_or_create_existing_id_witness :
  first_row (team_is 89) (teams one_team_store) = Some man_utd
  /\ Understat._get_or_create_team 89 (u "Newcastle United") epl one_team_store
     = (man_utd, one_team_store).
Proof.
  split; [reflexivity|].
  apply (proj1 get_or_create_existing_id). reflexivity.
Defined.

(** ** Placeholder identifiers *)




Section PlaceholderFacts.
Context `{PyHash}.





End PlaceholderFacts.



(** ** The fuzzy step of the resolver *)

Section FuzzyFacts.
Context `{UnicodeData}.
Context {A : Type} (name_of : A -> pystr) (name : pystr) (threshold : Q).
Hypothesis threshold_pos : (0 < threshold)%Q.

Local Abbreviation score := (candidate_score name_of name).
Local Abbreviation inv := (fuzzy_inv name_of name threshold).

Lemma fuzzy_step_inv seen st r :
  inv seen st -> inv (seen ++ [r]) (fuzzy_step name_of name threshold st r).
Proof.
  destruct st as [best best_score]. unfold fuzzy_inv, fuzzy_step. simpl.
  fold (candidate_score name_of name r). intros Hinv.
  destruct (Qltb best_score (score r) && Qle_bool threshold (score r)) eqn:E.
  - apply andb_true_iff in E as [Hlt Hle].
    apply Qltb_lt in Hlt. apply Qle_bool_iff in Hle. simpl.
    split; [done|]. split; [done|]. exists seen, []. split; [done|].
    split; [|intros r' Hr'; by apply elem_of_nil in Hr'].
    intros r' Hr'. destruct best as [b|].
    + destruct Hinv as (-> & Hth & l1 & l2 & -> & Hl1 & Hl2).
      apply elem_of_app in Hr' as [Hr'|Hr'].
      * eapply Qlt_trans; [by apply Hl1|done].
      * apply elem_of_cons in Hr' as [->|Hr']; [done|].
        eapply Qle_lt_trans; [by apply Hl2|done].
    + destruct Hinv as [_ Hall]. eapply Qlt_le_trans; [by apply Hall|done].
  - apply andb_false_iff in E. simpl. destruct best as [b|].
    + destruct Hinv as (-> & Hth & l1 & l2 & -> & Hl1 & Hl2).
      split; [done|]. split; [done|]. exists l1, (l2 ++ [r]).
      split; [by rewrite <- app_assoc|]. split; [done|].
      intros r' Hr'. apply elem_of_app in Hr' as [Hr'|Hr']; [by apply Hl2|].
      apply list_elem_of_singleton in Hr'. subst r'.
      apply Qnot_lt_le. intros Hlt. destruct E as [E|E].
      * apply Qltb_lt in Hlt. congruence.
      * assert (threshold <= score r)%Q as Hle.
        { apply Qlt_le_weak. eapply Qle_lt_trans; [exact Hth|done]. }
        apply Qle_bool_iff in Hle. congruence.
    + destruct Hinv as [H0 Hall]. split; [done|].
      intros r' Hr'. apply elem_of_app in Hr' as [Hr'|Hr']; [by apply Hall|].
      apply list_elem_of_singleton in Hr'. subst r'.
      apply Qnot_le_lt. intros Hle. destruct E as [E|E].
      * assert (best_score < score r)%Q as Hlt.
        { rewrite H0. eapply Qlt_le_trans; [exact threshold_pos|done]. }
        apply Qltb_lt in Hlt. congruence.
      * apply Qle_bool_iff in Hle. congruence.
Qed.

Lemma fuzzy_fold_inv table : forall seen st,
  inv seen st ->
  inv (seen ++ table) (fold_left (fuzzy_step name_of name threshold) table st).
Proof.
  induction table as [|r table IH]; intros seen st Hinv; simpl.
  - by rewrite app_nil_r.
  - replace (seen ++ r :: table) with ((seen ++ [r]) ++ table) by (by rewrite <- app_assoc).
    apply IH. by apply fuzzy_step_inv.
Qed.

Lemma fuzzy_match_spec (id : A -> Z) (table : list A) :
  rowid_order id table ->
  match fuzzy_match name_of name threshold table with
  | Some b =>
      b ∈ table /\ (threshold <= score b)%Q
      /\ (forall r, r ∈ table -> (score r <= score b)%Q)
      /\ (forall r, r ∈ table -> (score r == score b)%Q -> id b <= id r)
  | None => forall r, r ∈ table -> (score r < threshold)%Q
  end.
Proof.
  intros Hord. unfold fuzzy_match.
  pose proof (fuzzy_fold_inv table [] (None, 0%Q)) as Hinv.
  simpl in Hinv. unfold fuzzy_inv in Hinv at 2.
  destruct (fold_left _ table _) as [[b|] best_score]; simpl in *.
  - destruct Hinv as (_ & Hth & l1 & l2 & -> & Hl1 & Hl2).
    { unfold fuzzy_inv. simpl. split; [done|]. intros r Hr. by apply elem_of_nil in Hr. }
    split; [apply elem_of_app; right; apply elem_of_cons; by left|].
    split; [done|]. split.
    + intros r Hr. apply elem_of_app in Hr as [Hr|Hr].
      * apply Qlt_le_weak. by apply Hl1.
      * apply elem_of_cons in Hr as [->|Hr]; [apply Qle_refl|by apply Hl2].
    + intros r Hr Heq. apply elem_of_app in Hr as [Hr|Hr].
      * specialize (Hl1 r Hr). rewrite Heq in Hl1. by apply Qlt_irrefl in Hl1.
      * apply elem_of_cons in Hr as [->|Hr]; [lia|].
        unfold rowid_order in Hord. apply StronglySorted_app_1_r in Hord.
        apply StronglySorted_inv in Hord as [_ Hb].
        rewrite Forall_forall in Hb. specialize (Hb r Hr). lia.
  - apply Hinv. unfold fuzzy_inv. simpl. split; [done|].
    intros r Hr. by apply elem_of_nil in Hr.
Qed.

End FuzzyFacts.
(** The tables stay in rowid order when the scrapers add rows. *)
Lemma add_team_keeps_order (s : Store) (understat_id : Z) (name : pystr) (lid : Z) :
  rowid_order team_id (teams s) ->
  rowid_order team_id (teams (add_team understat_id name lid s).2).
Proof. intros Hord. by apply rowid_order_add. Qed.

Lemma add_player_keeps_order (s : Store) (understat_id : Z) (name : pystr) :
  rowid_order player_id (players s) ->
  rowid_order player_id (players (add_player understat_id name s).2).
Proof. intros Hord. by apply rowid_order_add. Qed.

(** C4: when the exact and the alias step find nothing, the resolver
    returns a row only if its score against the input is the highest of
    the table and reaches the threshold of the kind (0.80 for teams, 0.85
    for players); of the rows with the highest score it returns the one
    with the lowest id (the tables are scanned in rowid order); and it
    returns nothing exactly when every row scores below the threshold.
    The resolver reads the store and returns no store: it creates no row. *)
Theorem fuzzy_resolution `{UnicodeData} :
  (forall name s,
     rowid_order team_id (teams s) ->
     exact_match team_name name (teams s) = None ->
     alias_match name (teams s) = None ->
     match find_matching_team name s TEAM_THRESHOLD with
     | Some t =>
         t ∈ teams s
         /\ (TEAM_THRESHOLD <= candidate_score team_name name t)%Q
         /\ (forall t', t' ∈ teams s ->
               (candidate_score team_name name t' <= candidate_score team_name name t)%Q)
         /\ (forall t', t' ∈ teams s ->
               (candidate_score team_name name t' == candidate_score team_name name t)%Q ->
               team_id t <= team_id t')
     | None =>
         forall t', t' ∈ teams s -> (candidate_score team_name name t' < TEAM_THRESHOLD)%Q
     end)
  /\ (forall name s,
     rowid_order player_id (players s) ->
     exact_match player_name name (players s) = None ->
     match find_matching_player name s PLAYER_THRESHOLD with
     | Some p =>
         p ∈ players s
         /\ (PLAYER_THRESHOLD <= candidate_score player_name name p)%Q
         /\ (forall p', p' ∈ players s ->
               (candidate_score player_name name p' <= candidate_score player_name name p)%Q)
         /\ (forall p', p' ∈ players s ->
               (candidate_score player_name name p' == candidate_score player_name name p)%Q ->
               player_id p <= player_id p')
     | None =>
         forall p', p' ∈ players s ->
           (candidate_score player_name name p' < PLAYER_THRESHOLD)%Q
     end).
Proof.
  split.
  - intros name s Hord Hexact Halias. unfold find_matching_team.
    rewrite Hexact, Halias. by apply fuzzy_match_spec.
  - intros name s Hord Hexact. unfold find_matching_player.
    rewrite Hexact. by apply fuzzy_match_spec.
Qed.

Lemma fuzzy_resolution_witness :
  rowid_order team_id (teams sample_store)
  /\ @exact_match latin1_only Team team_name (u "Arsenall") (teams sample_store) = None
  /\ @alias_match latin1_only (u "Arsenall") (teams sample_store) = None
  /\ match @find_matching_team latin1_only (u "Arsenall") sample_store TEAM_THRESHOLD with
     | Some t =>
         t ∈ teams sample_store
         /\ (TEAM_THRESHOLD <= @candidate_score latin1_only Team team_name (u "Arsenall") t)%Q
         /\ (forall t', t' ∈ teams sample_store ->
               (@candidate_score latin1_only Team team_name (u "Arsenall") t'
                <= @candidate_score latin1_only Team team_name (u "Arsenall") t)%Q)
         /\ (forall t', t' ∈ teams sample_store ->
               (@candidate_score latin1_only Team team_name (u "Arsenall") t'
                == @candidate_score latin1_only Team team_name (u "Arsenall") t)%Q ->
               team_id t <= team_id t')
     | None =>
         forall t', t' ∈ teams sample_store ->
           (@candidate_score latin1_only Team team_name (u "Arsenall") t' < TEAM_THRESHOLD)%Q
     end.
Proof.
  assert (rowid_order team_id (teams sample_store)) as Hord.
  { unfold rowid_order. repeat constructor; simpl; lia. }
  assert (@exact_match latin1_only Team team_name (u "Arsenall") (teams sample_store) = None)
    as Hexact by (vm_compute; reflexivity).
  assert (@alias_match latin1_only (u "Arsenall") (teams sample_store) = None)
    as Halias by (vm_compute; reflexivity).
  split; [exact Hord|]. split; [exact Hexact|]. split; [exact Halias|].
  exact (proj1 (@fuzzy_resolution latin1_only) (u "Arsenall") sample_store Hord Hexact Halias).
Defined.

Example fuzzy_resolution_example :
  @find_matching_team latin1_only (u "Arsenall") sample_store TEAM_THRESHOLD = Some arsenal.
Proof. vm_compute. reflexivity. Qed.

(** ** The link maintainer *)

Lemma unlinked_players_spec (s : Store) (w : WhoScoredPlayer) :
  w ∈ unlinked_players s <-> w ∈ whoscored_players s /\ ws_understat_player_id w = None.
Proof.
  unfold unlinked_players. rewrite list_elem_of_In, List.filter_In, <- list_elem_of_In.
  by rewrite bool_decide_eq_true.
Qed.

Lemma unlinked_players_nil (s : Store) :
  (forall w, w ∈ whoscored_players s -> linked w) -> unlinked_players s = [].
Proof.
  intros Hall. unfold unlinked_players.
  induction (whoscored_players s) as [|w table IH]; simpl; [done|].
  rewrite bool_decide_eq_false_2.
  - apply IH. intros w' Hw'. apply Hall, elem_of_cons. by right.
  - apply Hall, elem_of_cons. by left.
Qed.

Lemma set_link_other (id link : Z) (table : list WhoScoredPlayer) (n : nat)
    (w : WhoScoredPlayer) :
  table !! n = Some w -> ws_id w <> id -> set_link id link table !! n = Some w.
Proof.
  intros Hn Hid. unfold set_link.
  change (List.map ?f table) with (f <$> table).
  rewrite list_lookup_fmap, Hn. simpl.
  by destruct (Z.eqb_spec (ws_id w) id).
Qed.

(** A primary key names one row. *)
Lemma primary_key_inj (table : list WhoScoredPlayer) (w w' : WhoScoredPlayer) :
  NoDup (ws_id <$> table) -> w ∈ table -> w' ∈ table -> ws_id w = ws_id w' -> w = w'.
Proof.
  induction table as [|r table IH]; intros Hnd Hw Hw' Heq.
  - by apply elem_of_nil in Hw.
  - rewrite fmap_cons in Hnd. apply NoDup_cons in Hnd as [Hr Hnd].
    apply elem_of_cons in Hw as [->|Hw]; apply elem_of_cons in Hw' as [->|Hw'].
    + done.
    + exfalso. apply Hr. rewrite Heq. by apply list_elem_of_fmap_2.
    + exfalso. apply Hr. rewrite <- Heq. by apply list_elem_of_fmap_2.
    + by apply IH.
Qed.

Section LinkFacts.
Context `{UnicodeData}.

Lemma link_loop_other (unlinked : list WhoScoredPlayer) :
  forall s threshold table linked_count n w,
    table !! n = Some w ->
    (forall w', w' ∈ unlinked -> ws_id w' <> ws_id w) ->
    (link_loop unlinked s threshold table linked_count).1 !! n = Some w.
Proof.
  induction unlinked as [|w0 unlinked IH]; intros s threshold table linked_count n w Hn Hids;
    simpl; [done|].
  assert (forall w', w' ∈ unlinked -> ws_id w' <> ws_id w) as Hids'.
  { intros w' Hw'. apply Hids, elem_of_cons. by right. }
  destruct (find_matching_player (ws_name w0) s threshold); [|by apply IH].
  apply IH; [|done]. apply set_link_other; [done|].
  intros Heq. apply (Hids w0); [apply elem_of_cons; by left|done].
Qed.

(** C6: when every WhoScored player has its link set, a run of the link
    maintainer returns 0 and leaves the store as it is; and in every run a
    row whose link is set is not among the rows the loop goes through and
    stands unchanged at its place in the table afterwards. *)
Theorem link_maintainer_fixed_point :
  (forall s threshold,
     (forall w, w ∈ whoscored_players s -> linked w) ->
     link_whoscored_to_understat_players threshold s = (0, s))
  /\ (forall s threshold n w,
     NoDup (ws_id <$> whoscored_players s) ->
     whoscored_players s !! n = Some w -> linked w ->
     (w ∉ unlinked_players s)
     /\ whoscored_players (link_whoscored_to_understat_players threshold s).2 !! n
        = Some w).
Proof.
  split.
  - intros s threshold Hall. unfold link_whoscored_to_understat_players.
    rewrite (unlinked_players_nil s Hall). simpl. by rewrite store_eta.
  - intros s threshold n w Hnd Hn Hlinked. split.
    + rewrite unlinked_players_spec. by intros [_ Hnone].
    + unfold link_whoscored_to_understat_players.
      pose proof (link_loop_other (unlinked_players s) s threshold (whoscored_players s) 0
                    n w Hn) as Hloop.
      destruct (link_loop (unlinked_players s) s threshold (whoscored_players s) 0)
        as [table linked_count]. simpl in *.
      apply Hloop. intros w' Hw' Heq.
      apply unlinked_players_spec in Hw' as [Hin Hnone].
      assert (w' = w) as ->.
      { apply (primary_key_inj (whoscored_players s)); try done.
        by apply list_elem_of_lookup_2 in Hn. }
      done.
Qed.

End LinkFacts.

Lemma link_maintainer_fixed_point_witness :
  (forall w, w ∈ whoscored_players sample_store -> linked w)
  /\ @link_whoscored_to_understat_players latin1_only PLAYER_THRESHOLD sample_store
     = (0, sample_store).
Proof.
  assert (forall w, w ∈ whoscored_players sample_store -> linked w) as Hall.
  { intros w Hw. apply list_elem_of_singleton in Hw. by subst w. }
  split; [exact Hall|].
  exact (proj1 (@link_maintainer_fixed_point latin1_only) sample_store PLAYER_THRESHOLD Hall).
Defined.

(** ** Two spellings of one club *)

(** C8, as stated, fails: the key of "Bayern München" is "bayern munchen",
    which is not the key "bayern munich" of "Bayern Munich", whatever the
    Unicode data. *)
Lemma bayern_keys_differ :
  ~ (exists U : UnicodeData,
       normalize_name (u "Bayern München") = normalize_name (u "Bayern Munich")).
Proof.
  intros [U Heq]. destruct (@bayern_keys U) as [Hk1 Hk2]. by rewrite Hk1, Hk2 in Heq.
Qed.

(** C8, amended: "Bayern München" and "Bayern Munich" have the keys
    "bayern munchen" and "bayern munich"; in a table that holds a team
    found by the exact step for "Bayern Munich" and none found by it for
    "Bayern München", the resolver gives both names that team, the second
    by the exact step and the first by the alias step. *)
Theorem bayern_resolves_by_alias `{UnicodeData} (s : Store) (threshold : Q) (t : Team) :
  exact_match team_name (u "Bayern München") (teams s) = None ->
  exact_match team_name (u "Bayern Munich") (teams s) = Some t ->
  normalize_name (u "Bayern München") = u "bayern munchen"
  /\ normalize_name (u "Bayern Munich") = u "bayern munich"
  /\ alias_match (u "Bayern München") (teams s) = Some t
  /\ find_matching_team (u "Bayern München") s threshold = Some t
  /\ find_matching_team (u "Bayern Munich") s threshold = Some t.
Proof.
  intros Hmiss Hhit. destruct bayern_keys as [-> ->].
  assert (alias_match (u "Bayern München") (teams s) = Some t) as Halias.
  { rewrite alias_match_bayern. simpl. by rewrite Hhit. }
  unfold find_matching_team. by rewrite Hmiss, Halias, Hhit.
Qed.

Lemma bayern_resolves_by_alias_witness :
  @exact_match latin1_only Team team_name (u "Bayern München") (teams sample_store) = None
  /\ @exact_match latin1_only Team team_name (u "Bayern Munich") (teams sample_store)
     = Some bayern
  /\ @find_matching_team latin1_only (u "Bayern München") sample_store TEAM_THRESHOLD
     = Some bayern.
Proof.
  assert (@exact_match latin1_only Team team_name (u "Bayern München") (teams sample_store)
          = None) as Hmiss by (vm_compute; reflexivity).
  assert (@exact_match latin1_only Team team_name (u "Bayern Munich") (teams sample_store)
          = Some bayern) as Hhit by (vm_compute; reflexivity).
  split; [exact Hmiss|]. split; [exact Hhit|].
  exact (proj1 (proj2 (proj2 (proj2
           (@bayern_resolves_by_alias latin1_only sample_store TEAM_THRESHOLD bayern
              Hmiss Hhit))))).
Defined.

(** ** Names that the ASCII step empties *)

(** C10, as stated, fails in its last part: "ØÆ" and "Þß" are distinct and
    not empty, the ASCII step removes every character of both, and the
    exact step, which compares the lowercased names and not the keys,
    does not take one for the other. *)
Lemma stripped_names_differ_exactly :
  exists a b : pystr,
    a <> b /\ a <> [] /\ b <> []
    /\ forall U : UnicodeData,
         encode_ascii_ignore (nfkd a) = [] /\ encode_ascii_ignore (nfkd b) = []
         /\ forall t : Team, team_name t = b -> exact_match team_name a [t] = None.
Proof.
  exists (u "ØÆ"), (u "Þß").
  split; [by vm_compute|]. split; [by vm_compute|]. split; [by vm_compute|].
  intros U. split; [|split].
  - unfold nfkd. rewrite canonical_order_ascii. by vm_compute.
  - unfold nfkd. rewrite canonical_order_ascii. by vm_compute.
  - intros t Ht. unfold exact_match, first_row. simpl. rewrite Ht. by vm_compute.
Qed.

(** C10, amended: two names of which the ASCII step removes every
    character both have the empty key and score 1 against each other, so
    the fuzzy step takes a row named by one for the other at every
    threshold up to 1; the exact step takes it only when the lowercased
    names are equal. *)
Theorem stripped_names_match_fuzzily `{UnicodeData} (a b : pystr) :
  encode_ascii_ignore (nfkd a) = [] ->
  encode_ascii_ignore (nfkd b) = [] ->
  normalize_name a = [] /\ normalize_name b = []
  /\ (similarity_score a b == 1)%Q
  /\ (forall (A : Type) (name_of : A -> pystr) (r : A) (threshold : Q),
        name_of r = b -> (threshold <= 1)%Q ->
        fuzzy_match name_of a threshold [r] = Some r)
  /\ (forall (A : Type) (name_of : A -> pystr) (r : A),
        name_of r = b ->
        (exact_match name_of a [r] = Some r <-> sqlite_lower b = py_lower a)).
Proof.
  intros Ha Hb.
  pose proof (all_stripped_key a Ha) as Hka. pose proof (all_stripped_key b Hb) as Hkb.
  assert (similarity_score a b == 1)%Q as Hsim.
  { unfold similarity_score. rewrite Hka, Hkb. reflexivity. }
  split; [done|]. split; [done|]. split; [done|]. split.
  - intros A name_of r threshold Hr Hth. unfold fuzzy_match, fuzzy_step. simpl.
    rewrite Hr.
    assert (Qltb 0 (similarity_score a b) = true) as ->.
    { apply Qltb_lt. by rewrite Hsim. }
    assert (Qle_bool threshold (similarity_score a b) = true) as ->.
    { apply Qle_bool_iff. by rewrite Hsim. }
    done.
  - intros A name_of r Hr. unfold exact_match, first_row. simpl. rewrite Hr.
    destruct (pystr_eqb (sqlite_lower b) (py_lower a)) eqn:E.
    + apply pystr_eqb_eq in E. by split.
    + split; [done|]. intros Heq. apply pystr_eqb_eq in Heq. congruence.
Qed.

Lemma stripped_names_match_fuzzily_witness :
  encode_ascii_ignore (@nfkd latin1_only (u "ØÆ")) = []
  /\ encode_ascii_ignore (@nfkd latin1_only (u "Þß")) = []
  /\ (@similarity_score latin1_only (u "ØÆ") (u "Þß") == 1)%Q.
Proof.
  assert (encode_ascii_ignore (@nfkd latin1_only (u "ØÆ")) = []) as Ha
    by (vm_compute; reflexivity).
  assert (encode_ascii_ignore (@nfkd latin1_only (u "Þß")) = []) as Hb
    by (vm_compute; reflexivity).
  split; [exact Ha|]. split; [exact Hb|].
  exact (proj1 (proj2 (proj2
           (@stripped_names_match_fuzzily latin1_only (u "ØÆ") (u "Þß") Ha Hb)))).
Defined.

(** ** Numeric conversion *)

Section NumericFacts.
Context `{NumberData}.

(** The three values [_safe_int] tests for before it converts. *)
Lemma safe_int_placeholder (value : pyval) (default : Z) :
  value = PyNone \/ value = PyStr (u "-") \/ value = PyStr [] ->
  _safe_int value default = inr default.
Proof. by intros [-> | [-> | ->]]. Qed.

(** Text that [float] rejects once the commas are gone. *)
Lemma safe_int_rejected_text (s : pystr) (default : Z) :
  float_of_str (List.filter (fun c => negb (c =? 0x2C)%N) s) = None ->
  _safe_int (PyStr s) default = inr default.
Proof.
  intros Hnone. unfold _safe_int.
  destruct (_ || _); [done|].
  change (py_str (PyStr s)) with s. by rewrite Hnone.
Qed.

(** A NaN is caught, an infinity is not: [int(float('inf'))] raises
    [OverflowError], which the [except] clause does not list. *)
Lemma safe_int_nan (default : Z) : _safe_int (PyStr (u "nan")) default = inr default.
Proof. vm_compute. reflexivity. Qed.

Lemma safe_int_infinity (default : Z) :
  _safe_int (PyStr (u "inf")) default = inl OverflowError.
Proof. vm_compute. reflexivity. Qed.

(** The integer columns of a record are converted in order, and the first
    failure ends the conversion. *)
Lemma understat_ints_raises (p : gmap string pyval) (keys : list string) (key : string) :
  key ∈ keys ->
  (exists e, understat_int p key = inl e) ->
  exists e, understat_ints p keys = inl e.
Proof.
  induction keys as [|k keys IH]; intros Hin Hraise.
  - by apply elem_of_nil in Hin.
  - simpl. destruct (understat_int p k) as [e|z] eqn:E; [by exists e|].
    apply elem_of_cons in Hin as [-> | Hin].
    + destruct Hraise as [e He]. congruence.
    + destruct (IH Hin Hraise) as [e ->]. by exists e.
Qed.

(** C9, on the code: a record of the Understat path whose integer column
    holds text that [int] rejects is not given a zero; the conversion
    raises, whatever the other columns hold.  The empty text and the dash
    are such texts, and they are the very values for which [_safe_int] of
    the WhoScored path returns its default. *)
Theorem understat_malformed_field_raises
    (p : gmap string pyval) (key : string) (s : pystr) (default : Z) :
  key ∈ UNDERSTAT_INT_KEYS ->
  p !! key = Some (PyStr s) ->
  int_of_str s = None ->
  (exists e, understat_ints p UNDERSTAT_INT_KEYS = inl e)
  /\ int_of_str [] = None
  /\ int_of_str (u "-") = None
  /\ _safe_int (PyStr []) default = inr default
  /\ _safe_int (PyStr (u "-")) default = inr default.
Proof.
  intros Hkey Hp Hs. split.
  - apply (understat_ints_raises p _ key Hkey).
    exists ValueError. unfold understat_int, py_int. by rewrite Hp; simpl; rewrite Hs.
  - repeat split; vm_compute; reflexivity.
Qed.

End NumericFacts.

(** Number data that knows no digit beyond ASCII and no decimal literal:
    enough to run the conversions on the placeholder texts. *)
Definition ascii_numbers : NumberData :=
  {| decimal_hi _ := None; decimal_to_double _ := None |}.

Lemma understat_malformed_field_raises_witness :
  exists e,
    @understat_ints ascii_numbers (<["games"%string := PyStr []]> ∅) UNDERSTAT_INT_KEYS
    = inl e.
Proof.
  refine (proj1 (@understat_malformed_field_raises ascii_numbers
                   (<["games"%string := PyStr []]> ∅) "games"%string [] 0 _ _ _)).
  - vm_compute. set_solver.
  - vm_compute. reflexivity.
  - vm_compute. reflexivity.
Defined.

(** The record whose [games] column is the empty text, run: the first
    column already raises [ValueError]. *)
Example understat_empty_games :
  @understat_ints ascii_numbers (<["games"%string := PyStr []]> ∅) UNDERSTAT_INT_KEYS
  = inl ValueError.
Proof. vm_compute. reflexivity. Qed.

(** ** The stats merger *)

(** ** Facts on [take_at] *)

Lemma omap_rev {A B} (f : A -> option B) (l : list A) : omap f (rev l) = rev (omap f l).
Proof.
  induction l as [|x l IH]; simpl; [done|].
  rewrite omap_app, IH. simpl. destruct (f x); simpl; [done|by rewrite app_nil_r].
Qed.

Lemma take_at_cons {A} (l : list A) i s :
  take_at l (i :: s)
  = match l !! i with Some x => x :: take_at l s | None => take_at l s end.
Proof. done. Qed.

Lemma take_at_app {A} (l : list A) s1 s2 : take_at l (s1 ++ s2) = take_at l s1 ++ take_at l s2.
Proof. apply omap_app. Qed.

Lemma take_at_rev {A} (l : list A) s : take_at l (rev s) = rev (take_at l s).
Proof. apply omap_rev. Qed.

Lemma take_at_fmap {A B} (f : A -> B) (l : list A) s :
  f <$> take_at l s = take_at (f <$> l) s.
Proof.
  induction s as [|i s IH]; [done|].
  rewrite !take_at_cons, list_lookup_fmap.
  destruct (l !! i); simpl; [f_equal; exact IH|exact IH].
Qed.

Lemma take_at_lookup {A} (l : list A) idxs k :
  Forall (fun i => (i < length l)%nat) idxs ->
  take_at l idxs !! k = match idxs !! k with Some i => l !! i | None => None end.
Proof.
  intros Hvalid. revert k. induction Hvalid as [|i idxs Hi Hvalid IH]; intros k; [done|].
  rewrite take_at_cons.
  destruct (lookup_lt_is_Some_2 l i Hi) as [x Hx]. rewrite Hx.
  destruct k as [|k]; [done|exact (IH k)].
Qed.

Lemma take_at_take_at {A} (l : list A) idxs s :
  Forall (fun i => (i < length l)%nat) idxs ->
  take_at l (take_at idxs s) = take_at (take_at l idxs) s.
Proof.
  intros Hvalid. induction s as [|k s IH]; [done|].
  rewrite !take_at_cons, (take_at_lookup l idxs k Hvalid).
  destruct (idxs !! k) as [i|]; [|exact IH].
  rewrite take_at_cons. destruct (l !! i); [f_equal; exact IH|exact IH].
Qed.

Lemma take_at_seq {A} (pre l : list A) :
  take_at (pre ++ l) (seq (length pre) (length l)) = l.
Proof.
  revert pre. induction l as [|x l IH]; intros pre; [done|].
  simpl length. simpl seq. rewrite take_at_cons.
  rewrite lookup_app_r, Nat.sub_diag by done. simpl. f_equal.
  specialize (IH (pre ++ [x])). rewrite <- app_assoc, length_app in IH. simpl in IH.
  by rewrite Nat.add_1_r in IH.
Qed.

Lemma take_at_perm {A} (l : list A) s :
  s ≡ₚ seq 0 (length l) -> take_at l s ≡ₚ l.
Proof.
  intros Hs. unfold take_at. rewrite Hs. pose proof (take_at_seq [] l) as Hseq.
  unfold take_at in Hseq. simpl in Hseq. by rewrite Hseq.
Qed.

(** ** The frame after [sort_values] *)

Lemma numbered_cons i0 r df :
  numbered i0 (r :: df) = (i0, row_tackles r) :: numbered (S i0) df.
Proof. done. Qed.

Lemma numbered_some i0 r df v :
  row_tackles r = Some v ->
  omap pair_value (numbered i0 (r :: df)) = (i0, v) :: omap pair_value (numbered (S i0) df)
  /\ omap nan_position (numbered i0 (r :: df)) = omap nan_position (numbered (S i0) df).
Proof.
  intros Hv. rewrite numbered_cons. split.
  - change (omap pair_value ((i0, row_tackles r) :: numbered (S i0) df))
      with (match pair_value (i0, row_tackles r) with
            | Some y => y :: omap pair_value (numbered (S i0) df)
            | None => omap pair_value (numbered (S i0) df) end).
    unfold pair_value at 1. simpl fst. simpl snd. by rewrite Hv.
  - change (omap nan_position ((i0, row_tackles r) :: numbered (S i0) df))
      with (match nan_position (i0, row_tackles r) with
            | Some y => y :: omap nan_position (numbered (S i0) df)
            | None => omap nan_position (numbered (S i0) df) end).
    unfold nan_position at 1. simpl snd. by rewrite Hv.
Qed.

Lemma numbered_none i0 r df :
  row_tackles r = None ->
  omap pair_value (numbered i0 (r :: df)) = omap pair_value (numbered (S i0) df)
  /\ omap nan_position (numbered i0 (r :: df))
     = i0 :: omap nan_position (numbered (S i0) df).
Proof.
  intros Hv. rewrite numbered_cons. split.
  - change (omap pair_value ((i0, row_tackles r) :: numbered (S i0) df))
      with (match pair_value (i0, row_tackles r) with
            | Some y => y :: omap pair_value (numbered (S i0) df)
            | None => omap pair_value (numbered (S i0) df) end).
    unfold pair_value at 1. simpl fst. simpl snd. by rewrite Hv.
  - change (omap nan_position ((i0, row_tackles r) :: numbered (S i0) df))
      with (match nan_position (i0, row_tackles r) with
            | Some y => y :: omap nan_position (numbered (S i0) df)
            | None => omap nan_position (numbered (S i0) df) end).
    unfold nan_position at 1. simpl fst. simpl snd. by rewrite Hv.
Qed.

Lemma omap_tackles_cons r df :
  omap row_tackles (r :: df)
  = match row_tackles r with Some v => v :: omap row_tackles df | None => omap row_tackles df end.
Proof. done. Qed.

Lemma indexed_split (df : list StatsRow) : forall pre : list StatsRow,
  (omap pair_value (numbered (length pre) df)).*2 = omap row_tackles df
  /\ take_at (pre ++ df) ((omap pair_value (numbered (length pre) df)).*1)
     = List.filter has_tackles df
  /\ take_at (pre ++ df) (omap nan_position (numbered (length pre) df))
     = List.filter (fun r => negb (has_tackles r)) df
  /\ Forall (fun i => (i < length (pre ++ df))%nat)
       ((omap pair_value (numbered (length pre) df)).*1).
Proof.
  induction df as [|r df IH]; intros pre; [by rewrite app_nil_r|].
  specialize (IH (pre ++ [r])). rewrite <- app_assoc, length_app in IH. simpl in IH.
  rewrite Nat.add_1_r in IH. destruct IH as (IH1 & IH2 & IH3 & IH4).
  rewrite omap_tackles_cons. simpl List.filter.
  destruct (row_tackles r) as [v|] eqn:E.
  - assert (has_tackles r = true) as ->.
    { unfold has_tackles. rewrite E. by apply bool_decide_eq_true_2. }
    destruct (numbered_some (length pre) r df v E) as [-> ->].
    rewrite !fmap_cons. simpl fst. simpl snd. rewrite IH1, take_at_cons.
    rewrite lookup_app_r, Nat.sub_diag by done. simpl lookup.
    rewrite IH2, IH3. simpl.
    repeat split; try done.
    constructor; [rewrite length_app; simpl; lia|done].
  - assert (has_tackles r = false) as ->.
    { unfold has_tackles. rewrite E. apply bool_decide_eq_false_2. by intros [? ?]. }
    destruct (numbered_none (length pre) r df E) as [-> ->].
    rewrite take_at_cons.
    rewrite lookup_app_r, Nat.sub_diag by done. simpl lookup.
    rewrite IH1, IH2, IH3. simpl.
    done.
Qed.

Section MergerFacts.
Context `{ArgSort}.

(** The sorted frame: the rows with a value, as [argsort] orders them
    from the last to the first, then the rows without one. *)
Lemma sort_values_shape df :
  sort_values_tackles df
  = rev (take_at (rev (List.filter has_tackles df)) (argsort (rev (omap row_tackles df))))
    ++ List.filter (fun r => negb (has_tackles r)) df.
Proof.
  unfold sort_values_tackles, nargsort.
  fold (numbered 0 df). fold pair_value. fold nan_position.
  destruct (indexed_split df []) as (H1 & H2 & H3 & H4). simpl in H1, H2, H3, H4.
  rewrite take_at_app, take_at_rev, H3. f_equal. f_equal.
  rewrite take_at_take_at.
  - by rewrite take_at_rev, H2, H1.
  - apply Forall_forall. intros i Hi. rewrite Forall_forall in H4. apply H4.
    apply list_elem_of_In. apply list_elem_of_In in Hi. by apply in_rev.
Qed.

Lemma filter_partition_perm (df : list StatsRow) :
  List.filter has_tackles df ++ List.filter (fun r => negb (has_tackles r)) df ≡ₚ df.
Proof.
  induction df as [|r df IH]; simpl; [done|].
  destruct (has_tackles r); simpl.
  - by rewrite IH.
  - rewrite <- Permutation_middle. by rewrite IH.
Qed.

Lemma has_tackles_some r v : row_tackles r = Some v -> has_tackles r = true.
Proof. intros E. unfold has_tackles. rewrite E. by apply bool_decide_eq_true_2. Qed.

Lemma has_tackles_none r : row_tackles r = None -> has_tackles r = false.
Proof.
  intros E. unfold has_tackles. rewrite E. apply bool_decide_eq_false_2. by intros [? ?].
Qed.

Lemma omap_tackles_length df :
  length (omap row_tackles df) = length (List.filter has_tackles df).
Proof.
  induction df as [|r df IH]; [done|]. rewrite omap_tackles_cons. simpl List.filter.
  destruct (row_tackles r) eqn:E.
  - rewrite (has_tackles_some r _ E). simpl. by rewrite IH.
  - by rewrite (has_tackles_none r E).
Qed.

Lemma tackles_of_filter df :
  row_tackles <$> List.filter has_tackles df = Some <$> omap row_tackles df.
Proof.
  induction df as [|r df IH]; [done|]. rewrite omap_tackles_cons. simpl List.filter.
  destruct (row_tackles r) eqn:E.
  - rewrite (has_tackles_some r _ E), !fmap_cons, E. f_equal. exact IH.
  - by rewrite (has_tackles_none r E).
Qed.

Lemma sort_values_perm df : sort_values_tackles df ≡ₚ df.
Proof.
  rewrite sort_values_shape. rewrite <- Permutation_rev.
  rewrite take_at_perm.
  - rewrite <- Permutation_rev. apply filter_partition_perm.
  - rewrite argsort_perm. by rewrite !length_rev, omap_tackles_length.
Qed.


Lemma fmap_rev {A B} (f : A -> B) (l : list A) : f <$> rev l = rev (f <$> l).
Proof.
  induction l as [|x l IH]; [done|]. simpl rev. rewrite fmap_app, IH. done.
Qed.

Lemma StronglySorted_rev {A} (R : relation A) (l : list A) :
  StronglySorted R l -> StronglySorted (flip R) (rev l).
Proof.
  induction 1 as [|x l Hl IH Hx]; simpl; [constructor|].
  apply StronglySorted_app. split; [|split; [done|repeat constructor]].
  intros y z Hy Hz. apply list_elem_of_singleton in Hz. subst z.
  rewrite Forall_forall in Hx. apply Hx.
  apply list_elem_of_In. apply list_elem_of_In in Hy. by apply in_rev.
Qed.

Lemma ascending_rows (rows : list StatsRow) : forall ws : list Z,
  row_tackles <$> rows = Some <$> ws ->
  StronglySorted Z.le ws ->
  StronglySorted (flip descending) rows.
Proof.
  induction rows as [|r rows IH]; intros ws Hws Hsorted; [constructor|].
  destruct ws as [|w ws]; [done|]. rewrite !fmap_cons in Hws.
  injection Hws as Hr Hrows. apply StronglySorted_inv in Hsorted as [Hsorted Hw].
  constructor; [by apply (IH ws)|].
  apply Forall_forall. intros r' Hr'.
  apply (list_elem_of_fmap_2 row_tackles) in Hr'. rewrite Hrows in Hr'.
  apply list_elem_of_fmap in Hr' as (w' & Hw' & Hin).
  unfold flip, descending. rewrite Hr, Hw'. simpl.
  rewrite Forall_forall in Hw. by apply Hw.
Qed.

Lemma descending_missing (rows : list StatsRow) :
  Forall (fun r => row_tackles r = None) rows -> StronglySorted descending rows.
Proof.
  induction 1 as [|r rows Hr Hrows IH]; constructor; [done|].
  apply Forall_forall. intros r' Hr'. rewrite Forall_forall in Hrows.
  unfold descending. by rewrite (Hrows r' Hr').
Qed.

Lemma missing_rows (df : list StatsRow) r :
  r ∈ List.filter (fun r => negb (has_tackles r)) df -> row_tackles r = None.
Proof.
  rewrite list_elem_of_In, List.filter_In. intros [_ Hn].
  unfold has_tackles in Hn. apply negb_true_iff, bool_decide_eq_false in Hn.
  destruct (row_tackles r); [|done]. exfalso. apply Hn. by eexists.
Qed.

Lemma sort_values_descending df : StronglySorted descending (sort_values_tackles df).
Proof.
  rewrite sort_values_shape. apply StronglySorted_app. split; [|split].
  - intros r r' _ Hr'. unfold descending. by rewrite (missing_rows df r' Hr').
  - apply (StronglySorted_rev (flip descending)).
    apply (ascending_rows _ (take_at (rev (omap row_tackles df))
                               (argsort (rev (omap row_tackles df))))).
    + by rewrite take_at_fmap, fmap_rev, tackles_of_filter, <- fmap_rev, <- take_at_fmap.
    + apply Sorted_StronglySorted; [|apply argsort_sorted]. intros x y z. apply Z.le_trans.
  - apply descending_missing, Forall_forall. apply missing_rows.
Qed.

(** ** [drop_duplicates] *)

Lemma drop_duplicates_from_elem seen df r :
  r ∈ drop_duplicates_from seen df -> r ∈ df /\ group_key r ∉ seen.
Proof.
  revert seen. induction df as [|r0 df IH]; intros seen; simpl.
  - intros Hr. by apply elem_of_nil in Hr.
  - case_bool_decide as Hseen.
    + intros Hr. destruct (IH _ Hr) as [Hin Hk]. split; [apply elem_of_cons; by right|done].
    + intros Hr. apply elem_of_cons in Hr as [->|Hr].
      * split; [apply elem_of_cons; by left|done].
      * destruct (IH _ Hr) as [Hin Hk]. split; [apply elem_of_cons; by right|].
        intros Hs. apply Hk, elem_of_cons. by right.
Qed.

Lemma drop_duplicates_from_keys seen df :
  NoDup (group_key <$> drop_duplicates_from seen df).
Proof.
  revert seen. induction df as [|r0 df IH]; intros seen; simpl; [constructor|].
  case_bool_decide as Hseen; [apply IH|].
  rewrite fmap_cons. constructor; [|apply IH].
  intros Hin. apply list_elem_of_fmap in Hin as (r & Hk & Hr).
  apply drop_duplicates_from_elem in Hr as [_ Hr]. apply Hr. rewrite <- Hk.
  apply elem_of_cons. by left.
Qed.




End MergerFacts.

(** ** Two sorts that [ArgSort] admits *)

Section InsertionSort.
Variables (strict : bool) (l : list Z).

Lemma insert_position_perm i sorted : insert_position strict l i sorted ≡ₚ i :: sorted.
Proof.
  induction sorted as [|j sorted IH]; simpl; [done|].
  destruct (if strict then _ else _); [done|].
  rewrite IH. apply Permutation_swap.
Qed.

Lemma insert_position_sorted i sorted :
  StronglySorted (by_value l) sorted ->
  StronglySorted (by_value l) (insert_position strict l i sorted).
Proof.
  induction 1 as [|j sorted Hsorted IH Hj]; simpl; [repeat constructor|].
  fold (position_value l i). fold (position_value l j).
  destruct (if strict then position_value l i <? position_value l j
            else position_value l i <=? position_value l j) eqn:E.
  - assert (position_value l i <= position_value l j) as Hij by (destruct strict; lia).
    constructor; [by constructor|].
    constructor; [done|]. rewrite Forall_forall in *. intros k Hk.
    specialize (Hj k Hk). unfold by_value in *. lia.
  - assert (position_value l j <= position_value l i) as Hji by (destruct strict; lia).
    constructor; [done|]. rewrite Forall_forall in *. intros k Hk.
    rewrite insert_position_perm in Hk. apply elem_of_cons in Hk as [->|Hk]; [done|].
    by apply Hj.
Qed.

Lemma insertion_fold positions : forall sorted,
  StronglySorted (by_value l) sorted ->
  fold_left (fun sorted i => insert_position strict l i sorted) positions sorted
    ≡ₚ sorted ++ positions
  /\ StronglySorted (by_value l)
       (fold_left (fun sorted i => insert_position strict l i sorted) positions sorted).
Proof.
  induction positions as [|i positions IH]; intros sorted Hsorted; simpl.
  - by rewrite app_nil_r.
  - destruct (IH (insert_position strict l i sorted)) as [Hperm Hs];
      [by apply insert_position_sorted|].
    split; [|done]. rewrite Hperm, insert_position_perm. simpl. apply Permutation_middle.
Qed.

Lemma insertion_argsort_perm : insertion_argsort strict l ≡ₚ seq 0 (length l).
Proof. by destruct (insertion_fold (seq 0 (length l)) []) as [Hperm _]; [constructor|]. Qed.

Lemma take_at_value positions :
  Forall (fun i => (i < length l)%nat) positions ->
  take_at l positions = position_value l <$> positions.
Proof.
  induction 1 as [|i positions Hi Hpos IH]; [done|].
  rewrite take_at_cons, fmap_cons, IH.
  destruct (lookup_lt_is_Some_2 l i Hi) as [x Hx]. rewrite Hx.
  unfold position_value. by rewrite Hx.
Qed.

Lemma insertion_argsort_sorted : Sorted Z.le (take_at l (insertion_argsort strict l)).
Proof.
  rewrite take_at_value.
  - apply StronglySorted_Sorted.
    destruct (insertion_fold (seq 0 (length l)) []) as [_ Hs]; [constructor|].
    fold (insertion_argsort strict l) in Hs.
    induction Hs as [|i positions Hs IH Hi]; [constructor|].
    rewrite fmap_cons. constructor; [done|].
    apply Forall_forall. intros v Hv. apply list_elem_of_fmap in Hv as (j & -> & Hj).
    rewrite Forall_forall in Hi. by apply Hi.
  - apply Forall_forall. intros i Hi. rewrite insertion_argsort_perm in Hi.
    apply elem_of_seq in Hi. lia.
Qed.

End InsertionSort.

(** The stable insertion sort, and the one that puts the later of two
    equal values first. *)
Definition stable_argsort : ArgSort :=
  {| argsort := insertion_argsort true;
     argsort_perm := insertion_argsort_perm true;
     argsort_sorted := insertion_argsort_sorted true |}.

Definition late_argsort : ArgSort :=
  {| argsort := insertion_argsort false;
     argsort_perm := insertion_argsort_perm false;
     argsort_sorted := insertion_argsort_sorted false |}.

(** The merger under the two sorts, on two rows of one group with equal
    tackles: each sort keeps another row. *)
Example stable_sort_keeps_first :
  @stats_merger stable_argsort [tied_first; tied_second] = [tied_first].
Proof. by vm_compute. Qed.





(** * Lemmas for the further properties *)

(** ** Blocks are matches *)

Lemma chain_b_index (b : pystr) : index_of b (chain_b b).
Proof.
  intros x js j Hjs Hj. apply chain_b_lookup in Hjs. subst js.
  by apply positions_item.
Qed.

Lemma scan_row_matches a b js : forall i x blo bhi j2len newj2len best,
  item a i = Some x ->
  (forall j, j ∈ js -> item b j = Some x) ->
  row_matches a b i j2len ->
  row_matches a b (i + 1) newj2len ->
  block_matches a b best ->
  row_matches a b (i + 1) (scan_row js i blo bhi j2len newj2len best).1
  /\ block_matches a b (scan_row js i blo bhi j2len newj2len best).2.
Proof.
  induction js as [|j js IH]; intros i x blo bhi j2len newj2len best Hx Hjs Hrow Hnew Hbest;
    simpl; [done|].
  assert (forall j', j' ∈ js -> item b j' = Some x) as Hjs'.
  { intros j' Hj'. apply Hjs, elem_of_cons. by right. }
  destruct (Z.ltb_spec j blo); [by apply (IH i x)|].
  destruct (Z.leb_spec bhi j); [done|].
  assert (forall t, 0 <= t < default 0 (j2len !! (j - 1)) + 1 ->
            same_item a (i - t) b (j - t) = true) as Hk.
  { intros t Ht. destruct (Z.eq_dec t 0) as [->|Hne].
    - rewrite !Z.sub_0_r. unfold same_item. rewrite Hx, (Hjs j) by (apply elem_of_cons; by left).
      apply N.eqb_refl.
    - destruct (j2len !! (j - 1)) as [v|] eqn:E; simpl in Ht; [|lia].
      replace (i - t) with (i - 1 - (t - 1)) by lia.
      replace (j - t) with (j - 1 - (t - 1)) by lia.
      apply (Hrow _ _ E). lia. }
  apply (IH i x); try done.
  - intros j' v. rewrite lookup_insert. case_decide; [|by apply Hnew].
    intros [= <-]. subst j'. intros t Ht.
    replace (i + 1 - 1 - t) with (i - t) by lia. by apply Hk.
  - destruct (Z.ltb_spec best.2 (default 0 (j2len !! (j - 1)) + 1)); [|done].
    intros t Ht. simpl in *.
    set (k := default 0 (j2len !! (j - 1)) + 1) in *.
    replace (i - k + 1 + t) with (i - (k - 1 - t)) by lia.
    replace (j - k + 1 + t) with (j - (k - 1 - t)) by lia.
    apply Hk. lia.
Qed.

Lemma row_matches_empty a b i : row_matches a b i ∅.
Proof. intros j v Hv. rewrite lookup_empty in Hv. discriminate. Qed.

Lemma scan_matches n : forall a b b2j blo bhi i j2len best,
  index_of b b2j ->
  row_matches a b i j2len ->
  block_matches a b best ->
  block_matches a b (scan (seqZ i (Z.of_nat n)) a b2j blo bhi j2len best).
Proof.
  induction n as [|n IH]; intros a b b2j blo bhi i j2len best Hidx Hrow Hbest.
  - done.
  - rewrite seqZ_cons by lia. simpl.
    replace (Z.pred (Z.of_nat (S n))) with (Z.of_nat n) by lia.
    destruct (item a i) as [x|] eqn:Hx.
    + assert (forall j, j ∈ default [] (b2j !! x) -> item b j = Some x) as Hjs.
      { intros j Hj. destruct (b2j !! x) as [js|] eqn:E; simpl in Hj.
        - by apply (Hidx x js).
        - by apply elem_of_nil in Hj. }
      destruct (scan_row_matches a b (default [] (b2j !! x)) i x blo bhi j2len ∅ best
                  Hx Hjs Hrow (row_matches_empty a b (i + 1)) Hbest) as [Hrow' Hbest'].
      destruct (scan_row (default [] (b2j !! x)) i blo bhi j2len ∅ best) as [newj2len best'].
      replace (Z.succ i) with (i + 1) by lia.
      by apply IH.
    + simpl. replace (Z.succ i) with (i + 1) by lia.
      apply IH; [done | apply row_matches_empty | done].
Qed.

Lemma extend_left_matches fuel : forall a b alo blo best,
  block_matches a b best -> block_matches a b (extend_left fuel a b alo blo best).
Proof.
  induction fuel as [|fuel IH]; intros a b alo blo [[besti bestj] bestsize] Hbest;
    simpl; [done|].
  destruct ((alo <? besti) && (blo <? bestj) && same_item a (besti - 1) b (bestj - 1)) eqn:E;
    [|done].
  apply IH. rewrite !andb_true_iff in E. destruct E as [_ Hsame].
  intros t Ht. simpl in *. destruct (Z.eq_dec t 0) as [->|Hne].
  - by rewrite !Z.add_0_r.
  - replace (besti - 1 + t) with (besti + (t - 1)) by lia.
    replace (bestj - 1 + t) with (bestj + (t - 1)) by lia.
    apply Hbest. simpl. lia.
Qed.

Lemma extend_right_matches fuel : forall a b ahi bhi best,
  0 <= best.2 ->
  block_matches a b best -> block_matches a b (extend_right fuel a b ahi bhi best).
Proof.
  induction fuel as [|fuel IH]; intros a b ahi bhi [[besti bestj] bestsize] Hsize Hbest;
    simpl; [done|].
  destruct ((besti + bestsize <? ahi) && (bestj + bestsize <? bhi)
            && same_item a (besti + bestsize) b (bestj + bestsize)) eqn:E; [|done].
  simpl in Hsize. apply IH; [simpl; lia|].
  rewrite !andb_true_iff in E. destruct E as [_ Hsame].
  intros t Ht. simpl in *. destruct (Z.eq_dec t bestsize) as [->|Hne]; [done|].
  apply Hbest. simpl. lia.
Qed.

Lemma find_longest_match_matches a b b2j alo ahi blo bhi :
  alo <= ahi -> blo <= bhi ->
  index_of b b2j ->
  block_matches a b (find_longest_match a b b2j alo ahi blo bhi).
Proof.
  intros Ha Hb Hidx. unfold find_longest_match.
  set (best0 := scan (seqZ alo (ahi - alo)) a b2j blo bhi ∅ (alo, blo, 0)).
  assert (block_matches a b best0) as H0.
  { unfold best0. replace (ahi - alo) with (Z.of_nat (Z.to_nat (ahi - alo))) by lia.
    apply scan_matches; [done | apply row_matches_empty |].
    intros t Ht. simpl in Ht. lia. }
  assert (in_region alo ahi blo bhi best0) as Hr0.
  { unfold best0. replace (ahi - alo) with (Z.of_nat (Z.to_nat (ahi - alo))) by lia.
    apply scan_region; [lia | lia | apply row_ok_empty | unfold in_region; simpl; lia]. }
  apply extend_right_matches.
  - pose proof (extend_left_region (Z.to_nat (best0.1.1 - alo)) a b alo ahi blo bhi best0 Hr0)
      as Hr. unfold in_region in Hr. lia.
  - by apply extend_left_matches.
Qed.

(** Every block the search appends is a match of at least one element. *)
Lemma blocks_in_matches fuel : forall a b b2j alo ahi blo bhi,
  alo <= ahi -> blo <= bhi ->
  index_of b b2j ->
  Forall (fun x => 1 <= x.2 /\ block_matches a b x) (blocks_in fuel a b b2j alo ahi blo bhi).
Proof.
  induction fuel as [|fuel IH]; intros a b b2j alo ahi blo bhi Ha Hb Hidx; simpl; [constructor|].
  pose proof (find_longest_match_region a b b2j alo ahi blo bhi Ha Hb) as Hr.
  pose proof (find_longest_match_matches a b b2j alo ahi blo bhi Ha Hb Hidx) as Hm.
  destruct (find_longest_match a b b2j alo ahi blo bhi) as [[i j] k].
  unfold in_region in Hr; simpl in Hr.
  destruct (Z.eqb_spec k 0); [constructor|].
  constructor; [split; [simpl; lia|done]|].
  apply Forall_app. split.
  - destruct ((i + k <? ahi) && (j + k <? bhi)) eqn:E; [|constructor].
    rewrite andb_true_iff, !Z.ltb_lt in E. apply IH; [lia | lia | done].
  - destruct ((alo <? i) && (blo <? j)) eqn:E; [|constructor].
    rewrite andb_true_iff, !Z.ltb_lt in E. apply IH; [lia | lia | done].
Qed.

(** Blocks that fill both regions: the regions hold the same elements. *)
Lemma blocks_in_full fuel : forall a b b2j alo ahi blo bhi,
  alo <= ahi -> blo <= bhi ->
  index_of b b2j ->
  total_size (blocks_in fuel a b b2j alo ahi blo bhi) = ahi - alo ->
  ahi - alo = bhi - blo ->
  forall t, 0 <= t < ahi - alo -> same_item a (alo + t) b (blo + t) = true.
Proof.
  induction fuel as [|fuel IH]; intros a b b2j alo ahi blo bhi Ha Hb Hidx Htotal Hlen t Ht.
  - simpl in Htotal. unfold total_size in Htotal; simpl in Htotal. lia.
  - simpl in Htotal.
    pose proof (find_longest_match_region a b b2j alo ahi blo bhi Ha Hb) as Hr.
    pose proof (find_longest_match_matches a b b2j alo ahi blo bhi Ha Hb Hidx) as Hm.
    destruct (find_longest_match a b b2j alo ahi blo bhi) as [[i j] k].
    unfold in_region in Hr; simpl in Hr.
    destruct (Z.eqb_spec k 0); [unfold total_size in Htotal; simpl in Htotal; lia|].
    rewrite total_size_cons, total_size_app in Htotal. simpl in Htotal.
    set (right := if (i + k <? ahi) && (j + k <? bhi)
                  then blocks_in fuel a b b2j (i + k) ahi (j + k) bhi else []) in *.
    set (left := if (alo <? i) && (blo <? j)
                 then blocks_in fuel a b b2j alo i blo j else []) in *.
    assert (0 <= total_size right <= Z.min (ahi - (i + k)) (bhi - (j + k))) as Hright.
    { unfold right. destruct ((i + k <? ahi) && (j + k <? bhi)) eqn:E.
      - rewrite andb_true_iff, !Z.ltb_lt in E. apply blocks_in_total; lia.
      - unfold total_size; simpl. lia. }
    assert (0 <= total_size left <= Z.min (i - alo) (j - blo)) as Hleft.
    { unfold left. destruct ((alo <? i) && (blo <? j)) eqn:E.
      - rewrite andb_true_iff, !Z.ltb_lt in E. apply blocks_in_total; lia.
      - unfold total_size; simpl. lia. }
    assert (i - alo = j - blo /\ total_size left = i - alo /\
            total_size right = ahi - (i + k)) as (Hij & Hl & Hrt) by lia.
    destruct (Z.lt_ge_cases t (i - alo)) as [Hlo|Hge].
    + unfold left in Hl. destruct ((alo <? i) && (blo <? j)) eqn:E.
      * rewrite andb_true_iff, !Z.ltb_lt in E.
        apply (IH a b b2j alo i blo j); try done; lia.
      * unfold total_size in Hl; simpl in Hl. lia.
    + destruct (Z.lt_ge_cases t (i - alo + k)) as [Hmid|Hhi].
      * replace (alo + t) with (i + (t - (i - alo))) by lia.
        replace (blo + t) with (j + (t - (i - alo))) by lia.
        apply Hm. simpl. lia.
      * unfold right in Hrt. destruct ((i + k <? ahi) && (j + k <? bhi)) eqn:E.
        -- rewrite andb_true_iff, !Z.ltb_lt in E.
           replace (alo + t) with (i + k + (t - (i + k - alo))) by lia.
           replace (blo + t) with (j + k + (t - (i + k - alo))) by lia.
           apply (IH a b b2j (i + k) ahi (j + k) bhi); try done; lia.
        -- unfold total_size in Hrt; simpl in Hrt. lia.
Qed.

Lemma same_items_eq (a b : pystr) :
  length a = length b ->
  (forall t, 0 <= t < Z.of_nat (length a) -> same_item a t b t = true) ->
  a = b.
Proof.
  intros Hlen Hsame. apply list_eq. intros n.
  destruct (decide (n < length a)%nat) as [Hn|Hn].
  - specialize (Hsame (Z.of_nat n)). unfold same_item, item in Hsame.
    destruct (Z.ltb_spec (Z.of_nat n) 0); [lia|]. rewrite Nat2Z.id in Hsame.
    destruct (a !! n) as [x|] eqn:Ea, (b !! n) as [y|] eqn:Eb;
      try (specialize (Hsame ltac:(lia)); discriminate).
    specialize (Hsame ltac:(lia)). apply N.eqb_eq in Hsame. by subst.
  - rewrite !lookup_ge_None_2 by lia. done.
Qed.

Lemma total_matches a b :
  foldr Z.add 0 (List.map (fun t : block => t.2) (get_matching_blocks a b))
  = total_size (blocks_in (S (length a)) a b (chain_b b) 0 (Z.of_nat (length a)) 0
                  (Z.of_nat (length b))).
Proof. apply matches_total. Qed.

(** A ratio of 1 is reached by equal sequences only. *)
Lemma ratio_one_eq (a b : pystr) : (ratio a b == 1)%Q -> a = b.
Proof.
  unfold ratio. rewrite total_matches.
  pose proof (blocks_in_total (S (length a)) a b (chain_b b) 0 (Z.of_nat (length a)) 0
                (Z.of_nat (length b)) ltac:(lia) ltac:(lia)) as Hm.
  intros Hone. unfold calculate_ratio in Hone.
  destruct (Z.eqb_spec (Z.of_nat (length a) + Z.of_nat (length b)) 0) as [Hz|Hne].
  - destruct a, b; simpl in Hz; try lia. done.
  - assert (total_size (blocks_in (S (length a)) a b (chain_b b) 0 (Z.of_nat (length a)) 0
                          (Z.of_nat (length b))) = Z.of_nat (length a)
            /\ length a = length b) as [Htotal Hlen].
    { set (m := total_size _) in *. unfold Qeq in Hone. cbn [Qnum Qden] in Hone.
      rewrite Z2Pos.id in Hone by lia. lia. }
    apply same_items_eq; [done|].
    intros t Ht. rewrite <- (Z.add_0_l t) at 1. rewrite <- (Z.add_0_l t) at 2.
    apply (blocks_in_full (S (length a)) a b (chain_b b) 0 (Z.of_nat (length a)) 0
             (Z.of_nat (length b))); try lia.
    apply chain_b_index.
Qed.

(** Sequences without a common element have no matching block. *)
Lemma ratio_disjoint (a b : pystr) :
  (forall x, x ∈ a -> x ∉ b) -> a <> [] \/ b <> [] -> (ratio a b == 0)%Q.
Proof.
  intros Hdisj Hne. unfold ratio. rewrite total_matches.
  pose proof (blocks_in_matches (S (length a)) a b (chain_b b) 0 (Z.of_nat (length a)) 0
                (Z.of_nat (length b))) as Hall.
  destruct (blocks_in _ a b _ _ _ _ _) as [|[[i j] k] rest].
  - unfold total_size, calculate_ratio. simpl.
    destruct (Z.eqb_spec (Z.of_nat (length a) + Z.of_nat (length b)) 0) as [Hz|_]; [|done].
    destruct a, b; simpl in Hz; try lia. by destruct Hne.
  - exfalso. apply Forall_cons in Hall as [[Hk Hmatch] _]; [|lia|lia|apply chain_b_index].
    specialize (Hmatch 0). simpl in *. rewrite !Z.add_0_r in Hmatch.
    specialize (Hmatch ltac:(lia)). unfold same_item, item in Hmatch.
    destruct (i <? 0); [done|]. destruct (a !! Z.to_nat i) as [x|] eqn:Ea; [|done].
    destruct (j <? 0); [done|]. destruct (b !! Z.to_nat j) as [y|] eqn:Eb; [|done].
    apply N.eqb_eq in Hmatch. subst y.
    apply (Hdisj x); by eapply list_elem_of_lookup_2.
Qed.

(** ** Stripped strings *)

Lemma lstrip_suffix (s : pystr) :
  exists t, s = t ++ lstrip s /\ Forall (fun c => py_isspace c = true) t.
Proof.
  induction s as [|c s (t & Hs & Ht)]; simpl; [by exists []|].
  destruct (py_isspace c) eqn:E.
  - exists (c :: t). split; [simpl; congruence|by constructor].
  - by exists [].
Qed.

Lemma lstrip_head (s : pystr) :
  match lstrip s with [] => True | c :: _ => py_isspace c = false end.
Proof.
  induction s as [|c s IH]; simpl; [done|].
  destruct (py_isspace c) eqn:E; [done|]. simpl. done.
Qed.

Lemma lstrip_fixed (s : pystr) :
  match s with [] => True | c :: _ => py_isspace c = false end -> lstrip s = s.
Proof. destruct s as [|c s]; simpl; [done|]. by intros ->. Qed.

Lemma rstrip_snoc (s : pystr) (c : N) :
  rstrip (s ++ [c]) = if py_isspace c then rstrip s else s ++ [c].
Proof.
  unfold rstrip. rewrite rev_app_distr. simpl.
  destruct (py_isspace c); [done|]. simpl. by rewrite rev_involutive.
Qed.

Lemma rstrip_prefix (s : pystr) :
  exists t, s = rstrip s ++ t /\ Forall (fun c => py_isspace c = true) t.
Proof.
  induction s as [|c s (t & Hs & Ht)] using rev_ind; [by exists []|].
  rewrite rstrip_snoc. destruct (py_isspace c) eqn:E.
  - exists (t ++ [c]). split.
    + rewrite app_assoc. congruence.
    + apply Forall_app. split; [done|by repeat constructor].
  - exists []. by rewrite app_nil_r.
Qed.

Lemma rstrip_last (s : pystr) (d : N) : last (rstrip s) = Some d -> py_isspace d = false.
Proof.
  induction s as [|c s IH] using rev_ind; [done|].
  rewrite rstrip_snoc. destruct (py_isspace c) eqn:E; [done|].
  rewrite last_snoc. by intros [= <-].
Qed.

Lemma rstrip_fixed (s : pystr) :
  (forall d, last s = Some d -> py_isspace d = false) -> rstrip s = s.
Proof.
  destruct s as [|c s _] using rev_ind; [done|].
  intros Hlast. rewrite rstrip_snoc, (Hlast c); [done|by rewrite last_snoc].
Qed.

Lemma strip_stripped (s : pystr) : stripped (strip s).
Proof.
  unfold strip. pose proof (lstrip_head s) as Hhead.
  destruct (rstrip_prefix (lstrip s)) as (t & Hs & Ht).
  pose proof (rstrip_last (lstrip s)) as Hlast.
  destruct (rstrip (lstrip s)) as [|c r]; [done|]. split; [|done].
  rewrite Hs in Hhead. done.
Qed.

Lemma stripped_strip (s : pystr) : stripped s -> strip s = s.
Proof.
  intros Hs. unfold strip. destruct s as [|c s]; [done|]. destruct Hs as [Hc Hlast].
  rewrite (lstrip_fixed (c :: s)) by done. by apply rstrip_fixed.
Qed.

Lemma strip_idemp (s : pystr) : strip (strip s) = strip s.
Proof. apply stripped_strip, strip_stripped. Qed.

(** What [strip] returns is a segment of its argument. *)
Lemma strip_segment (s : pystr) : exists l r, s = l ++ strip s ++ r.
Proof.
  destruct (lstrip_suffix s) as (l & Hl & _).
  destruct (rstrip_prefix (lstrip s)) as (r & Hr & _).
  exists l, r. unfold strip. congruence.
Qed.

Lemma strip_Forall (P : N -> Prop) (s : pystr) : Forall P s -> Forall P (strip s).
Proof.
  destruct (strip_segment s) as (l & r & Hs). intros Hall. rewrite Hs in Hall.
  by apply Forall_app in Hall as [_ [Hall _]%Forall_app].
Qed.

Section KeyFacts.
Context `{UnicodeData}.

Lemma py_lower_ascii (s : pystr) :
  Forall (fun c => (c < 0x80)%N) s -> py_lower s = List.map ascii_lower s.
Proof.
  intros Hs. unfold py_lower.
  assert (forallb (fun c => (c <? 0x100)%N) s = true) as ->.
  { apply forallb_forall. rewrite Forall_forall in Hs. intros c Hc.
    apply N.ltb_lt. specialize (Hs c). rewrite list_elem_of_In in Hs.
    specialize (Hs Hc). lia. }
  apply map_ext_in. intros c Hc. rewrite Forall_forall in Hs.
  specialize (Hs c). rewrite list_elem_of_In in Hs. specialize (Hs Hc).
  unfold latin1_lower, ascii_lower.
  destruct (N.leb_spec 0x41 c), (N.leb_spec c 0x5A), (N.leb_spec 0xC0 c); simpl; try done; lia.
Qed.

Lemma encode_ascii (s : pystr) : Forall (fun c => (c < 0x80)%N) (encode_ascii_ignore s).
Proof.
  apply Forall_forall. intros c Hc. apply list_elem_of_In, List.filter_In in Hc as [_ Hc].
  by apply N.ltb_lt in Hc.
Qed.

Lemma ascii_lower_key (c : N) : (c < 0x80)%N -> key_char (ascii_lower c).
Proof.
  intros Hc. unfold key_char, ascii_lower.
  destruct (N.leb_spec 0x41 c), (N.leb_spec c 0x5A); simpl; lia.
Qed.

Lemma ascii_lower_fixed (c : N) : key_char c -> ascii_lower c = c.
Proof.
  intros [_ Hc]. unfold ascii_lower.
  destruct (N.leb_spec 0x41 c), (N.leb_spec c 0x5A); simpl; try done. lia.
Qed.

Lemma normalize_name_chars (name : pystr) : Forall key_char (normalize_name name).
Proof.
  rewrite normalize_name_key. unfold normalize_key. destruct name as [|c name]; [constructor|].
  apply strip_Forall. rewrite py_lower_ascii by apply encode_ascii.
  apply Forall_forall. intros x Hx. apply list_elem_of_In, in_map_iff in Hx as (y & <- & Hy).
  apply ascii_lower_key.
  pose proof (encode_ascii (flat_map decomp (c :: name))) as Hall.
  rewrite Forall_forall in Hall. by apply Hall, list_elem_of_In.
Qed.

Lemma normalize_name_stripped (name : pystr) : stripped (normalize_name name).
Proof. unfold normalize_name. destruct name; [done|]. apply strip_stripped. Qed.

Lemma decomp_key (s : pystr) : Forall key_char s -> flat_map decomp s = s.
Proof.
  induction 1 as [|c s [Hc _] _ IH]; [done|]. simpl. rewrite IH.
  unfold decomp. by destruct (N.ltb_spec c 0x80); [|lia].
Qed.

Lemma encode_key (s : pystr) : Forall key_char s -> encode_ascii_ignore s = s.
Proof.
  induction 1 as [|c s [Hc _] _ IH]; [done|]. unfold encode_ascii_ignore in *.
  cbn [List.filter]. unfold is_ascii at 1. destruct (N.ltb_spec c 0x80); [|lia].
  by f_equal.
Qed.

(** A key is its own key. *)
Lemma normalize_name_fixed (k : pystr) :
  Forall key_char k -> stripped k -> normalize_name k = k.
Proof.
  intros Hchars Hstripped. rewrite normalize_name_key. unfold normalize_key.
  destruct k as [|c k]; [done|].
  rewrite decomp_key, encode_key by done.
  rewrite py_lower_ascii by (eapply Forall_impl; [exact Hchars|by intros ? [? _]]).
  assert (List.map ascii_lower (c :: k) = c :: k) as ->; [|by apply stripped_strip].
  rewrite <- (map_id (c :: k)) at 2. apply map_ext_in. intros x Hx.
  apply ascii_lower_fixed. rewrite Forall_forall in Hchars. by apply Hchars, list_elem_of_In.
Qed.

End KeyFacts.

(** ** The resolver returns stored rows *)

Section ResolverFacts.
Context `{UnicodeData}.

Lemma exact_match_elem {A} (name_of : A -> pystr) (name : pystr) (table : list A) (r : A) :
  exact_match name_of name table = Some r -> r ∈ table.
Proof.
  unfold exact_match, first_row. intros Hr. apply find_some in Hr as [Hr _].
  by apply list_elem_of_In.
Qed.

Lemma first_return_some {A B} (body : A -> option B) (l : list A) (y : B) :
  first_return body l = Some y -> exists x, x ∈ l /\ body x = Some y.
Proof.
  induction l as [|x l IH]; simpl; [done|].
  destruct (body x) as [y'|] eqn:E.
  - intros [= <-]. exists x. split; [apply elem_of_cons; by left|done].
  - intros Hy. destruct (IH Hy) as (x' & Hx' & Hb). exists x'.
    split; [apply elem_of_cons; by right|done].
Qed.

Lemma alias_match_elem (name : pystr) (table : list Team) (t : Team) :
  alias_match name table = Some t -> t ∈ table.
Proof.
  unfold alias_match. intros Ht.
  apply first_return_some in Ht as (entry & _ & Ht).
  destruct (existsb _ _); [|done].
  apply first_return_some in Ht as (n & _ & Ht). by apply exact_match_elem in Ht.
Qed.

Lemma fuzzy_fold_elem {A} (name_of : A -> pystr) (name : pystr) (threshold : Q)
    (table : list A) : forall st r,
  (fold_left (fuzzy_step name_of name threshold) table st).1 = Some r ->
  st.1 = Some r \/ r ∈ table.
Proof.
  induction table as [|x table IH]; intros st r; simpl; [by left|].
  intros Hr. apply IH in Hr as [Hr|Hr]; [|right; apply elem_of_cons; by right].
  unfold fuzzy_step in Hr. destruct (_ && _); [|by left].
  simpl in Hr. injection Hr as ->. right. apply elem_of_cons. by left.
Qed.

Lemma fuzzy_match_elem {A} (name_of : A -> pystr) (name : pystr) (threshold : Q)
    (table : list A) (r : A) :
  fuzzy_match name_of name threshold table = Some r -> r ∈ table.
Proof.
  unfold fuzzy_match. intros Hr. by apply fuzzy_fold_elem in Hr as [Hr|Hr].
Qed.

(** No score exceeds 1, so a threshold above 1 turns the fuzzy step off. *)
Lemma fuzzy_fold_off {A} (name_of : A -> pystr) (name : pystr) (threshold : Q)
    (table : list A) : forall st,
  (1 < threshold)%Q ->
  fold_left (fuzzy_step name_of name threshold) table st = st.
Proof.
  induction table as [|x table IH]; intros st Hth; simpl; [done|].
  assert (fuzzy_step name_of name threshold st x = st) as ->; [|by apply IH].
  unfold fuzzy_step.
  destruct (Qle_bool threshold (similarity_score name (name_of x))) eqn:E.
  - apply Qle_bool_iff in E. exfalso.
    pose proof (ratio_range (normalize_name name) (normalize_name (name_of x))) as [_ Hle].
    unfold similarity_score in E. apply (Qlt_irrefl 1).
    eapply Qlt_le_trans; [exact Hth|]. eapply Qle_trans; [exact E|exact Hle].
  - by rewrite andb_false_r.
Qed.

Lemma fuzzy_match_off {A} (name_of : A -> pystr) (name : pystr) (threshold : Q)
    (table : list A) :
  (1 < threshold)%Q -> fuzzy_match name_of name threshold table = None.
Proof. intros Hth. unfold fuzzy_match. by rewrite fuzzy_fold_off. Qed.

End ResolverFacts.

(** ** A run of the link maintainer, row by row *)

Section LinkRun.
Context `{UnicodeData}.
Variables (s : Store) (threshold : Q).

Lemma link_loop_turns (unlinked : list WhoScoredPlayer) : forall table linked_count,
  link_loop unlinked s threshold table linked_count
  = ((fun r => fold_left (link_turn s threshold) unlinked r) <$> table,
     linked_count + Z.of_nat (length (List.filter (resolvable s threshold) unlinked))).
Proof.
  induction unlinked as [|w unlinked IH]; intros table linked_count; simpl.
  - rewrite list_fmap_id. apply pair_equal_spec. split; [done|lia].
  - unfold resolvable at 1.
    destruct (find_matching_player (ws_name w) s threshold) as [p|] eqn:E.
    + rewrite IH, bool_decide_eq_true_2 by (by eexists). simpl length.
      unfold set_link. change (List.map ?f table) with (f <$> table).
      rewrite <- list_fmap_compose. apply pair_equal_spec. split; [|lia].
      apply list_fmap_ext. intros i r _. simpl. unfold link_turn at 3. by rewrite E.
    + rewrite IH, bool_decide_eq_false_2 by (by intros [? ?]).
      apply pair_equal_spec. split; [|done].
      apply list_fmap_ext. intros i r _. simpl. unfold link_turn at 3. by rewrite E.
Qed.

Lemma link_turns_other (unlinked : list WhoScoredPlayer) : forall r,
  (forall w, w ∈ unlinked -> ws_id w <> ws_id r) ->
  fold_left (link_turn s threshold) unlinked r = r.
Proof.
  induction unlinked as [|w unlinked IH]; intros r Hids; simpl; [done|].
  assert (link_turn s threshold r w = r) as ->.
  { unfold link_turn. destruct (find_matching_player _ _ _); [|done].
    destruct (Z.eqb_spec (ws_id r) (ws_id w)) as [Heq|]; [|done].
    exfalso. apply (Hids w); [apply elem_of_cons; by left|done]. }
  apply IH. intros w' Hw'. apply Hids, elem_of_cons. by right.
Qed.

Lemma link_turn_self (r : WhoScoredPlayer) :
  ws_understat_player_id r = None -> link_turn s threshold r r = relinked s threshold r.
Proof.
  intros Hr. unfold link_turn, relinked. rewrite Hr.
  destruct (find_matching_player _ _ _); [|done]. by rewrite Z.eqb_refl.
Qed.

Lemma relinked_id (r : WhoScoredPlayer) : ws_id (relinked s threshold r) = ws_id r.
Proof.
  unfold relinked. destruct (ws_understat_player_id r); [done|].
  by destruct (find_matching_player _ _ _).
Qed.

Lemma link_turns_row (r : WhoScoredPlayer) :
  NoDup (ws_id <$> whoscored_players s) ->
  r ∈ whoscored_players s ->
  fold_left (link_turn s threshold) (unlinked_players s) r = relinked s threshold r.
Proof.
  intros Hnd Hr.
  assert (forall w, w ∈ unlinked_players s -> ws_id w = ws_id r -> w = r) as Hkey.
  { intros w Hw Heq. apply unlinked_players_spec in Hw as [Hw _].
    by apply (primary_key_inj (whoscored_players s)). }
  destruct (ws_understat_player_id r) as [link|] eqn:Hlink.
  - rewrite link_turns_other.
    + unfold relinked. by rewrite Hlink.
    + intros w Hw Heq. pose proof (Hkey w Hw Heq) as ->.
      apply unlinked_players_spec in Hw as [_ Hw]. congruence.
  - assert (r ∈ unlinked_players s) as Hin by (by apply unlinked_players_spec).
    assert (NoDup (unlinked_players s)) as Hnd'.
    { unfold unlinked_players. apply NoDup_ListNoDup, List.NoDup_filter, NoDup_ListNoDup.
      by apply NoDup_fmap_1 in Hnd. }
    apply list_elem_of_split in Hin as (l1 & l2 & Hsplit). rewrite Hsplit in Hnd', Hkey.
    rewrite Hsplit, fold_left_app. simpl.
    apply NoDup_app in Hnd' as (_ & Hl1 & Hl2). apply NoDup_cons in Hl2 as [Hl2 _].
    rewrite (link_turns_other l1 r).
    + rewrite link_turn_self by done. apply link_turns_other.
      intros w Hw Heq. rewrite relinked_id in Heq. apply Hl2.
      rewrite <- (Hkey w); [done| |done].
      apply elem_of_app. right. apply elem_of_cons. by right.
    + intros w Hw Heq. apply (Hl1 w Hw). rewrite (Hkey w); [|apply elem_of_app; by left|done].
      apply elem_of_cons. by left.
Qed.

(** The table after a run, and the number the run returns. *)
Lemma link_run (Hnd : NoDup (ws_id <$> whoscored_players s)) :
  link_whoscored_to_understat_players threshold s
  = (Z.of_nat (length (List.filter (resolvable s threshold) (unlinked_players s))),
     mkStore (leagues s) (seasons s) (teams s) (players s)
       (relinked s threshold <$> whoscored_players s)).
Proof.
  unfold link_whoscored_to_understat_players. rewrite link_loop_turns. simpl. f_equal. f_equal.
  apply list_fmap_ext. intros i r Hr. apply link_turns_row; [done|].
  by eapply list_elem_of_lookup_2.
Qed.

Lemma link_loop_none (unlinked : list WhoScoredPlayer) (s' : Store) : forall table n,
  (forall w, w ∈ unlinked -> find_matching_player (ws_name w) s' threshold = None) ->
  link_loop unlinked s' threshold table n = (table, n).
Proof.
  induction unlinked as [|w unlinked IH]; intros table n Hnone; simpl; [done|].
  rewrite (Hnone w) by (apply elem_of_cons; by left).
  apply IH. intros w' Hw'. apply Hnone, elem_of_cons. by right.
Qed.

Lemma find_matching_player_players (name : pystr) (s1 s2 : Store) :
  players s1 = players s2 ->
  find_matching_player name s1 threshold = find_matching_player name s2 threshold.
Proof. intros Heq. unfold find_matching_player. by rewrite Heq. Qed.

(** A run right after a run finds nothing left to link. *)
Lemma link_run_twice (Hnd : NoDup (ws_id <$> whoscored_players s)) :
  link_whoscored_to_understat_players threshold
    (link_whoscored_to_understat_players threshold s).2
  = (0, (link_whoscored_to_understat_players threshold s).2).
Proof.
  rewrite (link_run Hnd). simpl.
  set (s' := mkStore _ _ _ _ _).
  unfold link_whoscored_to_understat_players.
  rewrite link_loop_none; [done|].
  intros w Hw. apply unlinked_players_spec in Hw as [Hw Hnone]. simpl in Hw.
  apply list_elem_of_fmap in Hw as (r & -> & Hr).
  rewrite (find_matching_player_players _ s' s) by done.
  unfold relinked in *.
  destruct (ws_understat_player_id r) eqn:Hlink; [congruence|].
  by destruct (find_matching_player (ws_name r) s threshold) eqn:E.
Qed.

End LinkRun.

(** ** The alias table *)

Section AliasFacts.
Context `{UnicodeData}.

Lemma groups_apart_true : groups_apart = true.
Proof. vm_compute. reflexivity. Qed.

Lemma first_return_find {A B} (p : A -> bool) (g : A -> option B) (l : list A) (x : A) (y : B) :
  List.find p l = Some x -> g x = Some y ->
  first_return (fun x => if p x then g x else None) l = Some y.
Proof.
  induction l as [|x' l IH]; simpl; [done|].
  destruct (p x') eqn:E.
  - intros [= ->] Hg. by rewrite Hg.
  - intros Hfind Hg. by apply IH.
Qed.

Lemma first_return_ext {A B} (f g : A -> option B) (l : list A) :
  (forall x, f x = g x) -> first_return f l = first_return g l.
Proof. intros Hext. induction l as [|x l IH]; simpl; [done|]. by rewrite Hext, IH. Qed.

(** Every name of [TEAM_NAME_MAP] leads the alias step to its own group,
    whose canonical name is tried first. *)
Lemma alias_match_canonical (table : list Team) (canonical name : pystr)
    (aliases : list pystr) (t : Team) :
  (canonical, aliases) ∈ TEAM_NAME_MAP ->
  name ∈ canonical :: aliases ->
  exact_match team_name canonical table = Some t ->
  alias_match name table = Some t.
Proof.
  intros Hentry Hname Hcanonical.
  pose proof groups_apart_true as Hapart. unfold groups_apart in Hapart.
  rewrite forallb_forall in Hapart. apply list_elem_of_In in Hentry.
  specialize (Hapart _ Hentry). rewrite forallb_forall in Hapart.
  apply list_elem_of_In in Hname. specialize (Hapart _ Hname).
  apply bool_decide_eq_true in Hapart.
  unfold alias_match.
  rewrite (first_return_ext _
             (fun entry => if group_has_key name entry
                           then first_return (fun n => exact_match team_name n table)
                                  (entry.1 :: entry.2)
                           else None)).
  - apply (first_return_find _ _ _ (canonical, aliases)); [done|].
    simpl. by rewrite Hcanonical.
  - intros entry. unfold group_has_key. by rewrite existsb_key.
Qed.

End AliasFacts.

(** ** SQLite's [LIKE] *)

Lemma sqlite_like_percent (pat s : pystr) :
  sqlite_like (0x25%N :: pat) s
  = sqlite_like pat s
    || match s with [] => false | _ :: s' => sqlite_like (0x25%N :: pat) s' end.
Proof. by destruct s. Qed.

Lemma ascii_lower_percent (c : N) : ascii_lower c = 0x25%N -> c = 0x25%N.
Proof.
  unfold ascii_lower. destruct (N.leb_spec 0x41 c), (N.leb_spec c 0x5A); simpl; lia.
Qed.

(** A text that spells the pattern, up to ASCII case, matches it. *)
Lemma sqlite_like_spelled (name : pystr) : forall mid pat text,
  sqlite_lower mid = sqlite_lower name ->
  sqlite_like pat text = true ->
  sqlite_like (name ++ pat) (mid ++ text) = true.
Proof.
  induction name as [|p name IH]; intros [|c mid] pat text Heq Hrest; try done.
  injection Heq as Hc Hmid. rewrite <- !app_comm_cons.
  destruct (N.eqb_spec p 0x25) as [->|Hp].
  - apply ascii_lower_percent in Hc. subst c.
    rewrite sqlite_like_percent, (sqlite_like_percent _ (mid ++ text)).
    rewrite (IH mid pat text Hmid Hrest). by rewrite orb_true_r.
  - simpl. apply N.eqb_neq in Hp. rewrite Hp.
    rewrite (IH mid pat text Hmid Hrest), andb_true_r.
    apply orb_true_iff. right. apply N.eqb_eq. by symmetry.
Qed.

Lemma sqlite_like_skip (pat pre text : pystr) :
  sqlite_like pat text = true -> sqlite_like (0x25%N :: pat) (pre ++ text) = true.
Proof.
  intros Hrest. induction pre as [|c pre IH].
  - rewrite sqlite_like_percent. simpl. by rewrite Hrest.
  - rewrite sqlite_like_percent. rewrite <- app_comm_cons, IH. apply orb_true_r.
Qed.

Lemma sqlite_like_rest (text : pystr) : sqlite_like [0x25%N] text = true.
Proof.
  induction text as [|c text IH]; [done|].
  rewrite sqlite_like_percent, IH. apply orb_true_r.
Qed.

(** [%name%] matches every text that holds [name], up to ASCII case. *)
Lemma name_pattern_holds (name pre mid post : pystr) :
  sqlite_lower mid = sqlite_lower name ->
  sqlite_like (WhoScored.name_pattern name) (pre ++ mid ++ post) = true.
Proof.
  intros Heq. unfold WhoScored.name_pattern.
  change (u "%") with [0x25%N]. simpl.
  apply sqlite_like_skip, sqlite_like_spelled; [done|apply sqlite_like_rest].
Qed.

(** Without [%] and [_] in it, a pattern matches the texts that equal it
    up to ASCII case, and no other. *)
Lemma sqlite_like_plain (pat : pystr) : forall text,
  Forall plain_char pat ->
  sqlite_like pat text = true <-> sqlite_lower text = sqlite_lower pat.
Proof.
  induction pat as [|p pat IH]; intros [|c text] Hplain; simpl; try done.
  - apply Forall_cons in Hplain as [[Hp1 _] _].
    apply N.eqb_neq in Hp1. by rewrite Hp1.
  - apply Forall_cons in Hplain as [[Hp1 Hp2] Hplain].
    apply N.eqb_neq in Hp1, Hp2. rewrite Hp1, Hp2. simpl.
    rewrite andb_true_iff, N.eqb_eq, (IH text Hplain). split.
    + intros [-> ->]. done.
    + intros [= -> ->]. done.
Qed.

(** ** [_get_or_create_whoscored_player] *)

Lemma add_whoscored_player_found (whoscored_id : Z) (name : pystr) (link : option Z)
    (s : Store) :
  first_row (fun w => ws_whoscored_id w =? whoscored_id) (whoscored_players s) = None ->
  first_row (fun w => ws_whoscored_id w =? whoscored_id)
    (whoscored_players (add_whoscored_player whoscored_id name link s).2)
  = Some (add_whoscored_player whoscored_id name link s).1.
Proof.
  intros Hnone. simpl. apply first_row_added; [done|]. simpl. apply Z.eqb_refl.
Qed.

(** The row [first_row] returns is the first that passes the filter. *)
Lemma first_row_split {A} (p : A -> bool) (table : list A) (r : A) :
  first_row p table = Some r ->
  exists l1 l2, table = l1 ++ r :: l2 /\ p r = true /\ forall x, x ∈ l1 -> p x = false.
Proof.
  unfold first_row. induction table as [|x table IH]; simpl; [done|].
  destruct (p x) eqn:E.
  - intros [= ->]. exists [], table. split; [done|]. split; [done|].
    intros y Hy. by apply elem_of_nil in Hy.
  - intros Hr. destruct (IH Hr) as (l1 & l2 & -> & Hp & Hl1).
    exists (x :: l1), l2. split; [done|]. split; [done|].
    intros y Hy. apply elem_of_cons in Hy as [->|Hy]; [done|by apply Hl1].
Qed.

(** ** The header map *)

Section HeaderFacts.
Context `{UnicodeData}.

Lemma create_header_map_snoc (headers : list pystr) (h : pystr) :
  WhoScored._create_header_map (headers ++ [h])
  = match WhoScored.header_stat h with
    | Some stat_name => <[stat_name := length headers]> (WhoScored._create_header_map headers)
    | None => WhoScored._create_header_map headers
    end.
Proof.
  unfold WhoScored._create_header_map.
  rewrite length_app, seq_app, zip_with_app by (by rewrite length_seq).
  rewrite fold_left_app. simpl. done.
Qed.

(** The column of a statistic is the last header that names it. *)
Lemma create_header_map_lookup (headers : list pystr) (stat_name : string) (i : nat) :
  WhoScored._create_header_map headers !! stat_name = Some i
  <-> (exists h, headers !! i = Some h /\ WhoScored.header_stat h = Some stat_name)
      /\ forall j h, (i < j)%nat -> headers !! j = Some h ->
           WhoScored.header_stat h <> Some stat_name.
Proof.
  revert i. induction headers as [|h0 headers IH] using rev_ind; intros i.
  - unfold WhoScored._create_header_map. simpl. rewrite lookup_empty. split; [done|].
    intros [(h & Hh & _) _]. by rewrite lookup_nil in Hh.
  - rewrite create_header_map_snoc.
    assert (forall j h, (headers ++ [h0]) !! j = Some h ->
              (j < length headers)%nat /\ headers !! j = Some h
              \/ j = length headers /\ h = h0) as Hsplit.
    { intros j h Hj. apply lookup_app_Some in Hj as [Hj|[Hlen Hj]].
      - left. split; [by eapply lookup_lt_Some|done].
      - right. apply list_lookup_singleton_Some in Hj as [Hj ->]. split; [lia|done]. }
    destruct (WhoScored.header_stat h0) as [st|] eqn:Est.
    + destruct (decide (st = stat_name)) as [->|Hne].
      * rewrite lookup_insert_eq. split.
        -- intros [= <-]. split.
           ++ exists h0. split; [|done]. by rewrite lookup_app_r, Nat.sub_diag by lia.
           ++ intros j h Hlt Hj. apply Hsplit in Hj as [[Hj _]|[Hj _]]; lia.
        -- intros [(h & Hh & Hst) Hlast]. f_equal.
           apply Hsplit in Hh as [[Hlt Hh]|[-> _]]; [|done].
           exfalso. apply (Hlast (length headers) h0 Hlt); [|done].
           by rewrite lookup_app_r, Nat.sub_diag by lia.
      * rewrite lookup_insert_ne by done. rewrite IH. split.
        -- intros [(h & Hh & Hst) Hlast]. split.
           ++ exists h. split; [|done]. by apply lookup_app_l_Some.
           ++ intros j h' Hlt Hj. apply Hsplit in Hj as [[_ Hj]|[_ ->]].
              ** by apply (Hlast j).
              ** rewrite Est. congruence.
        -- intros [(h & Hh & Hst) Hlast]. apply Hsplit in Hh as [[Hlt Hh]|[_ ->]].
           ++ split; [by exists h|]. intros j h' Hlt' Hj. apply (Hlast j); [done|].
              by apply lookup_app_l_Some.
           ++ congruence.
    + rewrite IH. split.
      * intros [(h & Hh & Hst) Hlast]. split.
        -- exists h. split; [|done]. by apply lookup_app_l_Some.
        -- intros j h' Hlt Hj. apply Hsplit in Hj as [[_ Hj]|[_ ->]].
           ++ by apply (Hlast j).
           ++ by rewrite Est.
      * intros [(h & Hh & Hst) Hlast]. apply Hsplit in Hh as [[Hlt Hh]|[_ ->]].
        -- split; [by exists h|]. intros j h' Hlt' Hj. apply (Hlast j); [done|].
           by apply lookup_app_l_Some.
        -- congruence.
Qed.

(** Every keyword of the table, as a header, names its own statistic. *)
Lemma keywords_name_their_statistic :
  forallb (fun entry : string * list pystr =>
             forallb (fun kw => bool_decide (WhoScored.header_stat kw = Some entry.1)) entry.2)
          WhoScored.defensive_stats = true.
Proof. vm_compute. reflexivity. Qed.

End HeaderFacts.

(** ** Substrings *)

Lemma starts_with_spec (kw s : pystr) :
  WhoScored.starts_with kw s = true <-> exists post, s = kw ++ post.
Proof.
  revert s. induction kw as [|k kw IH]; intros s; simpl.
  - split; [by exists s|done].
  - destruct s as [|c s]; simpl.
    + split; [done|]. by intros (post & ?).
    + rewrite andb_true_iff, N.eqb_eq, IH. split.
      * intros [-> (post & ->)]. by exists post.
      * intros (post & [= -> ->]). split; [done|by exists post].
Qed.

Lemma contains_spec (kw s : pystr) :
  WhoScored.contains kw s = true <-> exists pre post, s = pre ++ kw ++ post.
Proof.
  induction s as [|c s IH]; simpl.
  - rewrite orb_false_r, starts_with_spec. split.
    + intros (post & ->). by exists [], post.
    + intros (pre & post & Hs). destruct pre; [by exists post|done].
  - rewrite orb_true_iff, starts_with_spec, IH. split.
    + intros [(post & ->)|(pre & post & ->)]; [by exists [], post|by exists (c :: pre), post].
    + intros (pre & post & Hs). destruct pre as [|c' pre].
      * left. by exists post.
      * injection Hs as -> ->. right. by exists pre, post.
Qed.

(** ** Stores that grow *)

Lemma grows_refl (s : Store) : grows s s.
Proof. by repeat split. Qed.

Lemma prefix_snoc {A} (l : list A) (x : A) : l `prefix_of` l ++ [x].
Proof. by exists [x]. Qed.

Lemma grows_only_ret {A} (x : A) : grows_only (ret x).
Proof. intros s. split; [apply grows_refl|done]. Qed.

Lemma grows_only_query {A} (f : Store -> A) : grows_only (query f).
Proof. intros s. split; [apply grows_refl|done]. Qed.

Lemma grows_only_bind {A B} (m : Session A) (k : A -> Session B) :
  grows_only m -> (forall x, grows_only (k x)) -> grows_only (m ≫= k).
Proof.
  intros Hm Hk s. unfold mbind, session_bind.
  destruct (Hm s) as [Hg Ho]. destruct (m s) as [x s1]. simpl in *.
  destruct (Hk x s1) as [Hg' Ho']. split; [|by intros; apply Ho', Ho].
  destruct Hg as (? & ? & ? & ? & ?), Hg' as (? & ? & ? & ? & ?).
  repeat split; by etrans.
Qed.

Lemma grows_only_add_league name display_name : grows_only (add_league name display_name).
Proof.
  intros s. split.
  - repeat split; simpl; try done. apply prefix_snoc.
  - intros (? & ? & ? & ? & ?). repeat split; simpl; try done. by apply rowid_order_add.
Qed.

Lemma grows_only_add_season year lid : grows_only (add_season year lid).
Proof.
  intros s. split.
  - repeat split; simpl; try done. apply prefix_snoc.
  - intros (? & ? & ? & ? & ?). repeat split; simpl; try done. by apply rowid_order_add.
Qed.

Lemma grows_only_add_team understat_id name lid : grows_only (add_team understat_id name lid).
Proof.
  intros s. split.
  - repeat split; simpl; try done. apply prefix_snoc.
  - intros (? & ? & ? & ? & ?). repeat split; simpl; try done. by apply rowid_order_add.
Qed.

Lemma grows_only_add_player understat_id name : grows_only (add_player understat_id name).
Proof.
  intros s. split.
  - repeat split; simpl; try done. apply prefix_snoc.
  - intros (? & ? & ? & ? & ?). repeat split; simpl; try done. by apply rowid_order_add.
Qed.

Lemma grows_only_add_whoscored_player whoscored_id name link :
  grows_only (add_whoscored_player whoscored_id name link).
Proof.
  intros s. split.
  - repeat split; simpl; try done. apply prefix_snoc.
  - intros (? & ? & ? & ? & ?). repeat split; simpl; try done. by apply rowid_order_add.
Qed.

Create HintDb grows discriminated.
#[local] Hint Resolve grows_only_ret grows_only_query grows_only_add_league
  grows_only_add_season grows_only_add_team grows_only_add_player
  grows_only_add_whoscored_player : grows.

Ltac grows_only_steps :=
  repeat first
    [ apply grows_only_bind; [solve [auto with grows]|intros ?]
    | match goal with |- grows_only (match ?x with _ => _ end) => destruct x end
    | match goal with |- grows_only (if ?b then _ else _) => destruct b end
    | solve [auto with grows] ].

Lemma grows_only_understat_league code : grows_only (Understat._get_or_create_league code).
Proof. unfold Understat._get_or_create_league. grows_only_steps. Qed.

Lemma grows_only_understat_season year league :
  grows_only (Understat._get_or_create_season year league).
Proof. unfold Understat._get_or_create_season. grows_only_steps. Qed.

Lemma grows_only_understat_team understat_id name league :
  grows_only (Understat._get_or_create_team understat_id name league).
Proof. unfold Understat._get_or_create_team. grows_only_steps. Qed.

Lemma grows_only_understat_player understat_id name :
  grows_only (Understat._get_or_create_player understat_id name).
Proof. unfold Understat._get_or_create_player. grows_only_steps. Qed.

Lemma grows_only_player_team `{PyHash} title league :
  grows_only (understat_player_team title league).
Proof. unfold understat_player_team. grows_only_steps. Qed.

Lemma grows_only_whoscored_team `{PyHash} name league :
  grows_only (whoscored_get_or_create_team name league).
Proof. unfold whoscored_get_or_create_team. grows_only_steps. Qed.

Lemma grows_only_whoscored_player whoscored_id name :
  grows_only (WhoScored._get_or_create_whoscored_player whoscored_id name).
Proof. unfold WhoScored._get_or_create_whoscored_player. grows_only_steps. Qed.

Lemma grows_only_whoscored_season year league :
  grows_only (WhoScored._get_season year league).
Proof. unfold WhoScored._get_season. grows_only_steps. Qed.

Lemma grows_only_league_and_season code year :
  grows_only (WhoScored.league_and_season code year).
Proof.
  unfold WhoScored.league_and_season, WhoScored._get_league.
  destruct (negb _); [auto with grows|].
  apply grows_only_bind; [auto with grows|intros league].
  apply grows_only_bind; [destruct league; auto with grows|intros league'].
  apply grows_only_bind; [apply grows_only_whoscored_season|intros season].
  auto with grows.
Qed.

(** ** The team of a player record *)

Lemma before_comma_no_comma (s : pystr) : 0x2C%N ∉ before_comma s.
Proof.
  induction s as [|c s IH]; simpl; [apply not_elem_of_nil|].
  destruct (N.eqb_spec c 0x2C); [apply not_elem_of_nil|].
  intros Hin. apply elem_of_cons in Hin as [Hin|Hin]; [congruence|done].
Qed.

Lemma before_comma_app (a rest : pystr) :
  0x2C%N ∉ a -> before_comma (a ++ 0x2C%N :: rest) = a.
Proof.
  induction a as [|c a IH]; intros Hno; simpl; [done|].
  destruct (N.eqb_spec c 0x2C) as [->|_].
  - exfalso. apply Hno, elem_of_cons. by left.
  - f_equal. apply IH. intros Hin. apply Hno, elem_of_cons. by right.
Qed.

Lemma before_comma_plain (a : pystr) : 0x2C%N ∉ a -> before_comma a = a.
Proof.
  induction a as [|c a IH]; intros Hno; simpl; [done|].
  destruct (N.eqb_spec c 0x2C) as [->|_].
  - exfalso. apply Hno, elem_of_cons. by left.
  - f_equal. apply IH. intros Hin. apply Hno, elem_of_cons. by right.
Qed.

Lemma strip_no_comma (s : pystr) : 0x2C%N ∉ s -> 0x2C%N ∉ strip s.
Proof.
  intros Hno Hin. apply Hno. destruct (strip_segment s) as (l & r & ->).
  apply elem_of_app. right. apply elem_of_app. by left.
Qed.

(** ** [drop_duplicates], row by row *)

(** What [drop_duplicates] keeps: the rows no earlier row shares the key
    of. *)
Lemma drop_duplicates_from_spec (df : list StatsRow) : forall seen r,
  (r ∈ drop_duplicates_from seen df)
  <-> exists l1 l2, df = l1 ++ r :: l2
        /\ (group_key r ∉ seen)
        /\ forall r', r' ∈ l1 -> group_key r' <> group_key r.
Proof.
  induction df as [|r0 df IH]; intros seen r; simpl.
  - rewrite elem_of_nil. split; [done|]. intros (l1 & l2 & Hnil & _). by destruct l1.
  - case_bool_decide as Hseen.
    + rewrite IH. split.
      * intros (l1 & l2 & -> & Hr & Hl1). exists (r0 :: l1), l2. split; [done|].
        split; [done|]. intros r' Hr'. apply elem_of_cons in Hr' as [->|Hr']; [|by apply Hl1].
        intros Heq. apply Hr. by rewrite <- Heq.
      * intros (l1 & l2 & Hsplit & Hr & Hl1). destruct l1 as [|x l1].
        -- injection Hsplit as -> _. done.
        -- injection Hsplit as -> ->. exists l1, l2. split; [done|]. split; [done|].
           intros r' Hr'. apply Hl1, elem_of_cons. by right.
    + rewrite elem_of_cons, IH. split.
      * intros [->|(l1 & l2 & -> & Hr & Hl1)].
        -- exists [], df. split; [done|]. split; [done|]. intros r' Hr'.
           by apply elem_of_nil in Hr'.
        -- exists (r0 :: l1), l2. split; [done|].
           split; [intros Hin; apply Hr, elem_of_cons; by right|].
           intros r' Hr'. apply elem_of_cons in Hr' as [->|Hr']; [|by apply Hl1].
           intros Heq. apply Hr, elem_of_cons. by left.
      * intros (l1 & l2 & Hsplit & Hr & Hl1). destruct l1 as [|x l1].
        -- injection Hsplit as -> _. by left.
        -- injection Hsplit as -> ->. right. exists l1, l2. split; [done|]. split.
           ++ intros Hin. apply elem_of_cons in Hin as [Heq|Hin]; [|done].
              apply (Hl1 x); [apply elem_of_cons; by left|done].
           ++ intros r' Hr'. apply Hl1, elem_of_cons. by right.
Qed.

Lemma drop_duplicates_from_sublist (df : list StatsRow) : forall seen,
  drop_duplicates_from seen df `sublist_of` df.
Proof.
  induction df as [|r0 df IH]; intros seen; simpl; [constructor|].
  case_bool_decide.
  - apply sublist_cons, IH.
  - apply sublist_skip, IH.
Qed.

(** A frame without a repeated key is left as it is. *)
Lemma drop_duplicates_from_fixed (df : list StatsRow) : forall seen,
  NoDup (group_key <$> df) ->
  (forall r, r ∈ df -> group_key r ∉ seen) ->
  drop_duplicates_from seen df = df.
Proof.
  induction df as [|r0 df IH]; intros seen Hnd Hseen; simpl; [done|].
  rewrite fmap_cons in Hnd. apply NoDup_cons in Hnd as [Hr0 Hnd].
  rewrite bool_decide_eq_false_2 by (apply Hseen, elem_of_cons; by left).
  f_equal. apply IH; [done|].
  intros r Hr Hin. apply elem_of_cons in Hin as [Heq|Hin].
  - apply Hr0. rewrite <- Heq. by apply list_elem_of_fmap_2.
  - apply (Hseen r); [apply elem_of_cons; by right|done].
Qed.

Section MergerMore.
Context `{ArgSort}.

(** Rows without tackles are not moved past each other. *)
Lemma sort_values_missing (df : list StatsRow) :
  (forall r, r ∈ df -> row_tackles r = None) -> sort_values_tackles df = df.
Proof.
  intros Hall. rewrite sort_values_shape.
  assert (List.filter has_tackles df = []) as ->.
  { induction df as [|r df IH]; [done|]. simpl.
    rewrite (has_tackles_none r) by (apply Hall, elem_of_cons; by left).
    apply IH. intros r' Hr'. apply Hall, elem_of_cons. by right. }
  assert (List.filter (fun r => negb (has_tackles r)) df = df) as ->.
  { induction df as [|r df IH]; [done|]. simpl.
    rewrite (has_tackles_none r) by (apply Hall, elem_of_cons; by left). simpl.
    f_equal. apply IH. intros r' Hr'. apply Hall, elem_of_cons. by right. }
  assert (omap row_tackles df = []) as ->.
  { induction df as [|r df IH]; [done|]. rewrite omap_tackles_cons.
    rewrite (Hall r) by (apply elem_of_cons; by left).
    apply IH. intros r' Hr'. apply Hall, elem_of_cons. by right. }
  simpl. pose proof (argsort_perm []) as Hp. simpl in Hp.
  apply Permutation_nil_r in Hp. rewrite Hp. done.
Qed.

End MergerMore.

(** * Further properties of the code *)

(** ** Keys and scores *)

(** X1: a key holds lowercase ASCII characters only and has no
    whitespace at either end, and it is its own key: normalising twice
    gives what normalising once gives. *)
Theorem normalize_name_idempotent `{UnicodeData} (name : pystr) :
  Forall key_char (normalize_name name)
  /\ stripped (normalize_name name)
  /\ normalize_name (normalize_name name) = normalize_name name.
Proof.
  split; [apply normalize_name_chars|]. split; [apply normalize_name_stripped|].
  apply normalize_name_fixed; [apply normalize_name_chars|apply normalize_name_stripped].
Qed.

(** X2: the key of a name written in ASCII is the name with its capitals
    folded and the whitespace at its ends removed; nothing else of it is
    changed. *)
Theorem normalize_name_ascii `{UnicodeData} (name : pystr) :
  Forall (fun c => (c < 0x80)%N) name ->
  normalize_name name = strip (sqlite_lower name).
Proof.
  intros Hascii. rewrite normalize_name_key. unfold normalize_key.
  destruct name as [|c name]; [done|].
  assert (flat_map decomp (c :: name) = c :: name) as ->.
  { induction Hascii as [|x l Hx _ IH]; [done|]. simpl. rewrite IH.
    unfold decomp. by destruct (N.ltb_spec x 0x80); [|lia]. }
  assert (encode_ascii_ignore (c :: name) = c :: name) as ->.
  { unfold encode_ascii_ignore. induction Hascii as [|x l Hx _ IH]; [done|].
    cbn [List.filter]. unfold is_ascii at 1. destruct (N.ltb_spec x 0x80); [|lia].
    by f_equal. }
  by rewrite py_lower_ascii.
Qed.

Lemma normalize_name_ascii_witness :
  Forall (fun c => (c < 0x80)%N) (u "  Man UTD ")
  /\ @normalize_name latin1_only (u "  Man UTD ") = u "man utd".
Proof.
  assert (Forall (fun c => (c < 0x80)%N) (u "  Man UTD ")) as Hascii.
  { vm_compute. repeat constructor. }
  split; [exact Hascii|].
  rewrite (@normalize_name_ascii latin1_only (u "  Man UTD ") Hascii).
  vm_compute. reflexivity.
Defined.

(** X3: two names score 1 exactly when their keys are equal. *)
Theorem similarity_one_iff_same_key `{UnicodeData} (a b : pystr) :
  (similarity_score a b == 1)%Q <-> normalize_name a = normalize_name b.
Proof.
  unfold similarity_score. split.
  - apply ratio_one_eq.
  - intros ->. apply ratio_self.
Qed.

(** X4: two names whose keys have no character in common score 0,
    unless both keys are empty (the score is 1 then). *)
Theorem similarity_zero_disjoint_keys `{UnicodeData} (a b : pystr) :
  (forall c, c ∈ normalize_name a -> c ∉ normalize_name b) ->
  normalize_name a <> [] \/ normalize_name b <> [] ->
  (similarity_score a b == 0)%Q.
Proof. intros Hdisj Hne. unfold similarity_score. by apply ratio_disjoint. Qed.

Lemma similarity_zero_disjoint_keys_witness :
  (@similarity_score latin1_only (u "Lyon") (u "Metz") == 0)%Q.
Proof.
  apply (@similarity_zero_disjoint_keys latin1_only (u "Lyon") (u "Metz")).
  - rewrite !normalize_name_key. vm_compute. intros c Hc Hc'.
    repeat (apply elem_of_cons in Hc as [->|Hc];
            [repeat (apply elem_of_cons in Hc' as [Hc'|Hc']; [discriminate|]);
             by apply elem_of_nil in Hc'|]).
    by apply elem_of_nil in Hc.
  - left. rewrite normalize_name_key. vm_compute. discriminate.
Defined.

(** ** The resolver *)

(** X5: the resolver makes no row up: the team or the player it returns
    is a row of the table it searched. *)
Theorem resolver_returns_stored_row `{UnicodeData} (name : pystr) (s : Store) (threshold : Q) :
  (forall t, find_matching_team name s threshold = Some t -> t ∈ teams s)
  /\ (forall p, find_matching_player name s threshold = Some p -> p ∈ players s).
Proof.
  split.
  - intros t. unfold find_matching_team.
    destruct (exact_match team_name name (teams s)) as [t'|] eqn:E.
    { intros [= <-]. by apply exact_match_elem in E. }
    destruct (alias_match name (teams s)) as [t'|] eqn:E'.
    { intros [= <-]. by apply alias_match_elem in E'. }
    apply fuzzy_match_elem.
  - intros p. unfold find_matching_player.
    destruct (exact_match player_name name (players s)) as [p'|] eqn:E.
    { intros [= <-]. by apply exact_match_elem in E. }
    apply fuzzy_match_elem.
Qed.

Lemma resolver_returns_stored_row_witness : arsenal ∈ teams sample_store.
Proof.
  apply (proj1 (@resolver_returns_stored_row latin1_only (u "Arsenall") sample_store
                  TEAM_THRESHOLD)).
  vm_compute. reflexivity.
Defined.

(** X6: no score exceeds 1, so under a threshold above 1 the fuzzy step
    finds nothing: a player is found by the exact step or not at all, a
    team by the exact or the alias step or not at all. *)
Theorem threshold_above_one_is_exact `{UnicodeData} (name : pystr) (s : Store)
    (threshold : Q) :
  (1 < threshold)%Q ->
  find_matching_player name s threshold = exact_match player_name name (players s)
  /\ find_matching_team name s threshold
     = match exact_match team_name name (teams s) with
       | Some team => Some team
       | None => alias_match name (teams s)
       end.
Proof.
  intros Hth. unfold find_matching_player, find_matching_team.
  rewrite !fuzzy_match_off by done. split.
  - by destruct (exact_match player_name name (players s)).
  - destruct (exact_match team_name name (teams s)); [done|].
    by destruct (alias_match name (teams s)).
Qed.

Lemma threshold_above_one_is_exact_witness :
  @find_matching_team latin1_only (u "Arsenall") sample_store 2 = None.
Proof.
  rewrite (proj2 (@threshold_above_one_is_exact latin1_only (u "Arsenall") sample_store 2
                    eq_refl)).
  vm_compute. reflexivity.
Defined.

(** X7: every alias of [TEAM_NAME_MAP] leads to the team stored under
    the canonical name of its group: when the table holds no team under
    the alias itself and the exact step finds [t] for the canonical name,
    the resolver returns [t] for the alias, whatever the threshold. *)
Theorem alias_resolves_to_canonical `{UnicodeData} (s : Store) (threshold : Q)
    (canonical name : pystr) (aliases : list pystr) (t : Team) :
  (canonical, aliases) ∈ TEAM_NAME_MAP ->
  name ∈ aliases ->
  exact_match team_name name (teams s) = None ->
  exact_match team_name canonical (teams s) = Some t ->
  find_matching_team name s threshold = Some t.
Proof.
  intros Hentry Hname Hnone Hcanonical. unfold find_matching_team. rewrite Hnone.
  rewrite (alias_match_canonical (teams s) canonical name aliases t); try done.
  apply elem_of_cons. by right.
Qed.

Lemma alias_resolves_to_canonical_witness :
  @find_matching_team latin1_only (u "Man Utd") one_team_store TEAM_THRESHOLD = Some man_utd.
Proof.
  apply (@alias_resolves_to_canonical latin1_only one_team_store TEAM_THRESHOLD
           (u "Manchester United") (u "Man Utd") [u "Man United"; u "Man Utd"] man_utd).
  - apply elem_of_cons. by left.
  - apply elem_of_cons. right. apply elem_of_cons. by left.
  - vm_compute. reflexivity.
  - vm_compute. reflexivity.
Defined.

(** ** The link maintainer *)

(** X8: a run of the link maintainer, row by row: a WhoScored row without
    a link gets the id of the player the resolver finds for its name, if
    it finds one; every other row, and every other table, stays as it is;
    and the number returned is the number of rows that got a link. *)
Theorem link_run_rows `{UnicodeData} (s : Store) (threshold : Q) :
  NoDup (ws_id <$> whoscored_players s) ->
  link_whoscored_to_understat_players threshold s
  = (Z.of_nat (length (List.filter (resolvable s threshold) (unlinked_players s))),
     mkStore (leagues s) (seasons s) (teams s) (players s)
       (relinked s threshold <$> whoscored_players s)).
Proof. apply link_run. Qed.

Lemma link_run_rows_witness :
  NoDup (ws_id <$> whoscored_players unlinked_store)
  /\ @link_whoscored_to_understat_players latin1_only PLAYER_THRESHOLD unlinked_store
     = (1, mkStore [epl] [] [man_utd; arsenal] [saka]
             [ws_saka; mkWhoScoredPlayer 2 300001 (u "bukayo saka") (Some 1); ws_lost]).
Proof.
  assert (NoDup (ws_id <$> whoscored_players unlinked_store)) as Hnd.
  { apply (bool_decide_unpack _). vm_compute. exact I. }
  split; [exact Hnd|].
  rewrite (@link_run_rows latin1_only unlinked_store PLAYER_THRESHOLD Hnd).
  vm_compute. reflexivity.
Defined.

(** X9: a run of the link maintainer right after a run links nothing and
    leaves the store as it is: the rows still without a link are those
    the resolver found no player for, and it finds none again. *)
Theorem link_run_twice_is_fixed `{UnicodeData} (s : Store) (threshold : Q) :
  NoDup (ws_id <$> whoscored_players s) ->
  link_whoscored_to_understat_players threshold
    (link_whoscored_to_understat_players threshold s).2
  = (0, (link_whoscored_to_understat_players threshold s).2).
Proof. apply link_run_twice. Qed.

Lemma link_run_twice_is_fixed_witness :
  NoDup (ws_id <$> whoscored_players unlinked_store)
  /\ @link_whoscored_to_understat_players latin1_only PLAYER_THRESHOLD
       (@link_whoscored_to_understat_players latin1_only PLAYER_THRESHOLD unlinked_store).2
     = (0, (@link_whoscored_to_understat_players latin1_only PLAYER_THRESHOLD
              unlinked_store).2).
Proof.
  assert (NoDup (ws_id <$> whoscored_players unlinked_store)) as Hnd.
  { apply (bool_decide_unpack _). vm_compute. exact I. }
  split; [exact Hnd|].
  exact (@link_run_twice_is_fixed latin1_only unlinked_store PLAYER_THRESHOLD Hnd).
Defined.

(** ** Ingestion *)

(** X10: the team name taken from the [team_title] of a player record
    holds no comma and no whitespace at its ends, and of a title that
    lists several teams only the first counts: the record is given the
    team the first name alone would be given. *)
Theorem first_listed_team `{PyHash} (title : pystr) :
  (0x2C%N ∉ understat_team_name title)
  /\ stripped (understat_team_name title)
  /\ forall first rest league s,
       title = first ++ 0x2C%N :: rest -> 0x2C%N ∉ first -> first <> [] ->
       understat_player_team title league s = understat_player_team first league s.
Proof.
  split; [|split].
  - unfold understat_team_name. destruct title as [|c title].
    + vm_compute. intros Hin.
      repeat (apply elem_of_cons in Hin as [Hin|Hin]; [discriminate|]).
      by apply elem_of_nil in Hin.
    + apply strip_no_comma, before_comma_no_comma.
  - unfold understat_team_name. destruct title as [|c title]; [|apply strip_stripped].
    vm_compute. split; [done|]. by intros d [= <-].
  - intros first rest league s -> Hno Hne.
    assert (understat_team_name (first ++ 0x2C%N :: rest) = understat_team_name first) as Hname.
    { unfold understat_team_name. destruct first as [|c first]; [done|].
      rewrite <- app_comm_cons, app_comm_cons, before_comma_app by done.
      by rewrite before_comma_plain. }
    unfold understat_player_team. by rewrite Hname.
Qed.

Lemma first_listed_team_witness :
  @understat_player_team length_hash (u "Arsenal,Chelsea") epl one_team_store
  = @understat_player_team length_hash (u "Arsenal") epl one_team_store.
Proof.
  apply (proj2 (proj2 (@first_listed_team length_hash (u "Arsenal,Chelsea")))
           (u "Arsenal") (u "Chelsea") epl one_team_store).
  - vm_compute. reflexivity.
  - vm_compute. intros Hin.
    repeat (apply elem_of_cons in Hin as [Hin|Hin]; [discriminate|]).
    by apply elem_of_nil in Hin.
  - discriminate.
Defined.

(** X11: get-or-create only ever adds: after any of the get-or-create
    functions of the two scrapers every row the store held is still
    there, unchanged and at its place, new rows come after the old ones,
    and tables whose primary keys grew along the table still do. *)
Theorem stores_only_grow `{PyHash} :
  (forall code, grows_only (Understat._get_or_create_league code))
  /\ (forall year league, grows_only (Understat._get_or_create_season year league))
  /\ (forall understat_id name league,
        grows_only (Understat._get_or_create_team understat_id name league))
  /\ (forall understat_id name, grows_only (Understat._get_or_create_player understat_id name))
  /\ (forall title league, grows_only (understat_player_team title league))
  /\ (forall name league, grows_only (whoscored_get_or_create_team name league))
  /\ (forall whoscored_id name,
        grows_only (WhoScored._get_or_create_whoscored_player whoscored_id name))
  /\ (forall code year, grows_only (WhoScored.league_and_season code year)).
Proof.
  split; [apply grows_only_understat_league|].
  split; [apply grows_only_understat_season|].
  split; [apply grows_only_understat_team|].
  split; [apply grows_only_understat_player|].
  split; [apply grows_only_player_team|].
  split; [apply grows_only_whoscored_team|].
  split; [apply grows_only_whoscored_player|].
  apply grows_only_league_and_season.
Qed.

Lemma stores_only_grow_witness :
  ordered one_team_store
  /\ grows one_team_store (Understat._get_or_create_team 83 (u "Arsenal") epl one_team_store).2
  /\ ordered (Understat._get_or_create_team 83 (u "Arsenal") epl one_team_store).2.
Proof.
  assert (ordered one_team_store) as Hord.
  { unfold ordered, rowid_order. simpl. repeat split; repeat constructor. }
  destruct (proj1 (proj2 (proj2 (@stores_only_grow length_hash))) 83 (u "Arsenal") epl
              one_team_store) as [Hgrows Hordered].
  split; [exact Hord|]. split; [exact Hgrows|]. exact (Hordered Hord).
Defined.

(** ** The two scrapers on one store *)

Lemma understat_league_found (code : pystr) (s s1 : Store) (l : League) :
  Understat._get_or_create_league code s = (l, s1) ->
  first_row (league_is code) (leagues s1) = Some l /\ seasons s1 = seasons s.
Proof.
  unfold Understat._get_or_create_league, mbind, session_bind, query, ret, mret, session_ret.
  fold (league_is code).
  destruct (first_row (league_is code) (leagues s)) as [l'|] eqn:E.
  - by intros [= <- <-].
  - unfold add_league. intros [= <- <-]. simpl. split; [|done].
    apply first_row_added; [done|]. apply pystr_eqb_refl.
Qed.

Lemma season_found (year : Z) (league : League) (s s1 : Store) (r : Season) :
  Understat._get_or_create_season year league s = (r, s1) ->
  first_row (season_is year (league_id league)) (seasons s1) = Some r
  /\ leagues s1 = leagues s.
Proof.
  unfold Understat._get_or_create_season, mbind, session_bind, query, ret, mret, session_ret.
  change (fun r0 : Season =>
            (season_year r0 =? year) && (season_league_id r0 =? league_id league))
    with (season_is year (league_id league)).
  destruct (first_row (season_is year (league_id league)) (seasons s)) as [r'|] eqn:E.
  - by intros [= <- <-].
  - unfold add_season. intros [= <- <-]. simpl. split; [|done].
    apply first_row_added; [done|]. unfold season_is. simpl. by rewrite !Z.eqb_refl.
Qed.

Lemma whoscored_season_eq (year : Z) (league : League) :
  WhoScored._get_season year league = Understat._get_or_create_season year league.
Proof. done. Qed.

Lemma league_and_season_run (code : pystr) (year : Z) (s : Store) :
  code ∈ WhoScored.WHOSCORED_LEAGUES ->
  WhoScored.league_and_season code year s
  = let '(league, s1) :=
      match first_row (league_is code) (leagues s) with
      | Some league => (league, s)
      | None => add_league code code s
      end in
    let '(season, s2) := Understat._get_or_create_season year league s1 in
    (Some (league, season), s2).
Proof.
  intros Hcode. unfold WhoScored.league_and_season.
  assert (existsb (pystr_eqb code) WhoScored.WHOSCORED_LEAGUES = true) as ->.
  { apply existsb_exists. exists code. split; [by apply list_elem_of_In|apply pystr_eqb_refl]. }
  change (negb true) with false. cbv iota.
  unfold WhoScored._get_league, mbind, session_bind, query, ret, mret, session_ret.
  fold (league_is code). cbv beta.
  by destruct (first_row (league_is code) (leagues s)) as [l|].
Qed.

(** What WhoScored's set-up returns is what the Understat scraper gets
    afterwards. *)
Lemma league_and_season_reused (code : pystr) (year : Z) (s s2 : Store) (league : League)
    (season : Season) :
  code ∈ WhoScored.WHOSCORED_LEAGUES ->
  WhoScored.league_and_season code year s = (Some (league, season), s2) ->
  Understat._get_or_create_league code s2 = (league, s2)
  /\ Understat._get_or_create_season year league s2 = (season, s2).
Proof.
  intros Hcode. rewrite league_and_season_run by done.
  destruct (match first_row (league_is code) (leagues s) with
            | Some l => (l, s) | None => add_league code code s end) as [l s1] eqn:E1.
  destruct (Understat._get_or_create_season year l s1) as [r s2'] eqn:E2.
  intros [= -> -> ->].
  assert (first_row (league_is code) (leagues s1) = Some league) as Hleague.
  { destruct (first_row (league_is code) (leagues s)) as [l'|] eqn:E.
    - by injection E1 as -> ->.
    - unfold add_league in E1. injection E1 as <- <-. simpl.
      apply first_row_added; [done|]. apply pystr_eqb_refl. }
  pose proof (season_found _ _ _ _ _ E2) as [Hseason Hleagues].
  split.
  - unfold Understat._get_or_create_league, mbind, session_bind, query, ret, mret, session_ret.
    fold (league_is code). by rewrite Hleagues, Hleague.
  - unfold Understat._get_or_create_season, mbind, session_bind, query, ret, mret,
      session_ret.
    change (fun r0 : Season =>
              (season_year r0 =? year) && (season_league_id r0 =? league_id league))
      with (season_is year (league_id league)).
    by rewrite Hseason.
Qed.

(** X12: the two scrapers share leagues and seasons: on a store where the
    Understat scraper got or created a league and a season, WhoScored's
    set-up finds these two rows and adds nothing; and the league and the
    season of WhoScored's set-up are the rows the Understat scraper gets
    afterwards, again with nothing added. *)
Theorem scrapers_share_league_and_season (code : pystr) (year : Z) :
  code ∈ WhoScored.WHOSCORED_LEAGUES ->
  (forall s league s1 season s2,
     Understat._get_or_create_league code s = (league, s1) ->
     Understat._get_or_create_season year league s1 = (season, s2) ->
     WhoScored.league_and_season code year s2 = (Some (league, season), s2))
  /\ (forall s league season s2,
        WhoScored.league_and_season code year s = (Some (league, season), s2) ->
        Understat._get_or_create_league code s2 = (league, s2)
        /\ Understat._get_or_create_season year league s2 = (season, s2)).
Proof.
  intros Hcode. split.
  - intros s league s1 season s2 Hleague Hseason.
    apply understat_league_found in Hleague as [Hleague _].
    apply season_found in Hseason as [Hseason Hleagues].
    rewrite league_and_season_run by done. rewrite Hleagues, Hleague.
    unfold Understat._get_or_create_season, mbind, session_bind, query, ret, mret, session_ret.
    change (fun r0 : Season =>
              (season_year r0 =? year) && (season_league_id r0 =? league_id league))
      with (season_is year (league_id league)).
    by rewrite Hseason.
  - intros s league season s2. by apply league_and_season_reused.
Qed.

Lemma scrapers_share_league_and_season_witness :
  u "EPL" ∈ WhoScored.WHOSCORED_LEAGUES
  /\ WhoScored.league_and_season (u "EPL") 2024
       (Understat._get_or_create_season 2024 epl league_only_store).2
     = (Some (epl, mkSeason 1 2024 1),
        (Understat._get_or_create_season 2024 epl league_only_store).2).
Proof.
  assert (u "EPL" ∈ WhoScored.WHOSCORED_LEAGUES) as Hcode.
  { apply elem_of_cons. by left. }
  split; [exact Hcode|].
  apply (proj1 (scrapers_share_league_and_season (u "EPL") 2024 Hcode) league_only_store
           epl league_only_store).
  - vm_compute. reflexivity.
  - vm_compute. reflexivity.
Defined.

(** X13: the display name of a league is that of the scraper that
    creates it: created by WhoScored's set-up it is the league code, and
    the Understat scraper, which would have stored the name [LEAGUES]
    gives, gets that row as it is; created by the Understat scraper it is
    the name [LEAGUES] gives. *)
Theorem display_name_of_first_scraper (code : pystr) (year : Z) (s : Store) :
  code ∈ WhoScored.WHOSCORED_LEAGUES ->
  first_row (league_is code) (leagues s) = None ->
  (forall league season s2,
     WhoScored.league_and_season code year s = (Some (league, season), s2) ->
     league_display_name league = code
     /\ (Understat._get_or_create_league code s2).1 = league)
  /\ league_display_name (Understat._get_or_create_league code s).1
     = Understat.LEAGUES_get code.
Proof.
  intros Hcode Hnone. split.
  - intros league season s2 Hrun.
    destruct (league_and_season_reused code year s s2 league season Hcode Hrun) as [-> _].
    split; [|done]. rewrite league_and_season_run, Hnone in Hrun by done.
    unfold add_league in Hrun.
    destruct (Understat._get_or_create_season _ _ _) in Hrun.
    by injection Hrun as <- _ _.
  - unfold Understat._get_or_create_league, mbind, session_bind, query, ret, mret, session_ret.
    fold (league_is code). by rewrite Hnone.
Qed.

Lemma display_name_of_first_scraper_witness :
  league_display_name (Understat._get_or_create_league (u "EPL") empty_store).1
  = u "English Premier League"
  /\ exists league season s2,
       WhoScored.league_and_season (u "EPL") 2024 empty_store = (Some (league, season), s2)
       /\ league_display_name league = u "EPL".
Proof.
  assert (u "EPL" ∈ WhoScored.WHOSCORED_LEAGUES) as Hcode by (apply elem_of_cons; by left).
  destruct (display_name_of_first_scraper (u "EPL") 2024 empty_store Hcode eq_refl)
    as [Hfirst Hsecond].
  split; [rewrite Hsecond; vm_compute; reflexivity|].
  assert (WhoScored.league_and_season (u "EPL") 2024 empty_store
          = (Some (mkLeague 1 (u "EPL") (u "EPL"), mkSeason 1 2024 1),
             mkStore [mkLeague 1 (u "EPL") (u "EPL")] [mkSeason 1 2024 1] [] [] []))
    as Hrun by (vm_compute; reflexivity).
  eexists _, _, _. split; [exact Hrun|]. exact (proj1 (Hfirst _ _ _ Hrun)).
Defined.

(** ** WhoScored players and teams *)

(** X14: get-or-create of a WhoScored player returns a stored row with
    the WhoScored id asked for, and every later call with that id returns
    the same row and leaves the store as it is, whatever name it is
    called with: the stored name and link are not revised. *)
Theorem whoscored_player_idempotent (whoscored_id : Z) (name : pystr) (s s1 : Store)
    (w : WhoScoredPlayer) :
  WhoScored._get_or_create_whoscored_player whoscored_id name s = (w, s1) ->
  ws_whoscored_id w = whoscored_id
  /\ w ∈ whoscored_players s1
  /\ forall name', WhoScored._get_or_create_whoscored_player whoscored_id name' s1 = (w, s1).
Proof.
  unfold WhoScored._get_or_create_whoscored_player, mbind, session_bind, query, ret, mret,
    session_ret.
  destruct (first_row (fun w => ws_whoscored_id w =? whoscored_id) (whoscored_players s))
    as [w'|] eqn:E.
  - intros [= <- <-]. apply first_row_some in E as Hw. destruct Hw as [Hin Hid].
    apply Z.eqb_eq in Hid. split; [done|]. split; [done|]. intros name'. by rewrite E.
  - set (link := player_id <$> _). intros Hadd.
    pose proof (add_whoscored_player_found whoscored_id name link s E) as Hfound.
    rewrite Hadd in Hfound. simpl in Hfound.
    apply first_row_some in Hfound as Hw. destruct Hw as [Hin Hid]. apply Z.eqb_eq in Hid.
    split; [done|]. split; [done|]. intros name'. by rewrite Hfound.
Qed.

Lemma whoscored_player_idempotent_witness :
  WhoScored._get_or_create_whoscored_player 300005 (u "R. Hernandez")
    (WhoScored._get_or_create_whoscored_player 300005 (u "Rodri") two_players_store).2
  = WhoScored._get_or_create_whoscored_player 300005 (u "Rodri") two_players_store.
Proof.
  exact (proj2 (proj2 (whoscored_player_idempotent 300005 (u "Rodri") two_players_store
                         _ _ eq_refl)) (u "R. Hernandez")).
Defined.

(** X15: a WhoScored player is linked when it is created if some
    Understat player's name holds its name, up to ASCII case: the link is
    the id of a stored player whose name matches [%name%], and with the
    table in rowid order no matching player has a lower id, so it need
    not be the player of the same name. *)
Theorem whoscored_player_linked_at_creation (whoscored_id : Z) (name : pystr) (s s1 : Store)
    (w : WhoScoredPlayer) (p : Player) (pre mid post : pystr) :
  first_row (fun w => ws_whoscored_id w =? whoscored_id) (whoscored_players s) = None ->
  WhoScored._get_or_create_whoscored_player whoscored_id name s = (w, s1) ->
  p ∈ players s ->
  player_name p = pre ++ mid ++ post ->
  sqlite_lower mid = sqlite_lower name ->
  rowid_order player_id (players s) ->
  ws_name w = name
  /\ exists q, ws_understat_player_id w = Some (player_id q)
       /\ q ∈ players s
       /\ sqlite_like (WhoScored.name_pattern name) (player_name q) = true
       /\ player_id q <= player_id p.
Proof.
  intros Hnew Hrun Hp Hname Hmid Hord.
  unfold WhoScored._get_or_create_whoscored_player, mbind, session_bind, query, ret, mret,
    session_ret in Hrun.
  rewrite Hnew in Hrun.
  assert (sqlite_like (WhoScored.name_pattern name) (player_name p) = true) as Hmatch.
  { rewrite Hname. by apply name_pattern_holds. }
  destruct (first_row (fun p => sqlite_like (WhoScored.name_pattern name) (player_name p))
              (players s)) as [q|] eqn:E.
  - unfold add_whoscored_player in Hrun. injection Hrun as <- _. simpl.
    split; [done|]. exists q. split; [done|].
    apply first_row_some in E as Hq. destruct Hq as [Hq Hlike]. split; [done|]. split; [done|].
    apply first_row_split in E as (l1 & l2 & Hsplit & _ & Hl1).
    rewrite Hsplit in Hp, Hord. apply elem_of_app in Hp as [Hp|Hp].
    + specialize (Hl1 p Hp). cbv beta in Hl1. congruence.
    + apply elem_of_cons in Hp as [->|Hp]; [lia|].
      apply StronglySorted_app_1_r, StronglySorted_inv in Hord as [_ Hbelow].
      rewrite Forall_forall in Hbelow. specialize (Hbelow p Hp). lia.
  - exfalso. pose proof (first_row_none_elem _ _ p E Hp) as Hno. cbv beta in Hno. congruence.
Qed.

Lemma whoscored_player_linked_at_creation_witness :
  exists q,
    ws_understat_player_id
      (WhoScored._get_or_create_whoscored_player 300005 (u "Rodri") two_players_store).1
    = Some (player_id q)
    /\ q ∈ players two_players_store
    /\ sqlite_like (WhoScored.name_pattern (u "Rodri")) (player_name q) = true
    /\ player_id q <= player_id rodri.
Proof.
  assert (rowid_order player_id (players two_players_store)) as Hord.
  { unfold rowid_order. repeat constructor; simpl; lia. }
  assert (rodri ∈ players two_players_store) as Hin.
  { apply elem_of_cons. right. apply elem_of_cons. by left. }
  exact (proj2 (whoscored_player_linked_at_creation 300005 (u "Rodri") two_players_store
                  _ _ rodri [] (u "Rodri") [] eq_refl (surjective_pairing _) Hin
                  eq_refl eq_refl Hord)).
Defined.

(** The player the link goes to is not the one of the same name. *)
Example rodri_linked_to_rodrigo :
  ws_understat_player_id
    (WhoScored._get_or_create_whoscored_player 300005 (u "Rodri") two_players_store).1
  = Some (player_id rodrigo).
Proof. vm_compute. reflexivity. Qed.

(** X16: WhoScored's team get-or-create creates no second row for a name
    that differs from a stored name in ASCII case only: it returns a
    stored team whose name matches the name as a [LIKE] pattern and
    leaves the store as it is; for a name without [%] and [_] the
    returned team's name and the name differ in ASCII case at most. *)
Theorem whoscored_team_reused_up_to_case `{PyHash} (name : pystr) (league : League)
    (s : Store) (t0 : Team) :
  name <> [] ->
  t0 ∈ teams s ->
  sqlite_lower (team_name t0) = sqlite_lower name ->
  exists t,
    whoscored_get_or_create_team name league s = (t, s)
    /\ t ∈ teams s
    /\ sqlite_like name (team_name t) = true
    /\ (Forall plain_char name -> sqlite_lower (team_name t) = sqlite_lower name).
Proof.
  intros Hne Ht0 Hlower.
  assert (sqlite_like name (team_name t0) = true) as Hlike.
  { pose proof (sqlite_like_spelled name (team_name t0) [] [] Hlower eq_refl) as Hl.
    by rewrite !app_nil_r in Hl. }
  unfold whoscored_get_or_create_team, mbind, session_bind, query, ret, mret, session_ret.
  assert (whoscored_team_name name = name) as -> by (by destruct name).
  destruct (first_row (fun t => pystr_eqb (team_name t) name) (teams s)) as [t|] eqn:E.
  - apply first_row_some in E as [Hin Heq]. apply pystr_eqb_eq in Heq.
    exists t. split; [done|]. split; [done|]. rewrite Heq. split; [|done].
    pose proof (sqlite_like_spelled name name [] [] eq_refl eq_refl) as Hl.
    by rewrite !app_nil_r in Hl.
  - destruct (first_row (fun t => sqlite_like name (team_name t)) (teams s)) as [t|] eqn:E'.
    + apply first_row_some in E' as [Hin Hl]. exists t. split; [done|]. split; [done|].
      split; [done|]. intros Hplain. by apply sqlite_like_plain.
    + exfalso. pose proof (first_row_none_elem _ _ t0 E' Ht0) as Hno. cbv beta in Hno. congruence.
Qed.

Lemma whoscored_team_reused_up_to_case_witness :
  exists t,
    @whoscored_get_or_create_team length_hash (u "manchester united") epl one_team_store
    = (t, one_team_store)
    /\ t ∈ teams one_team_store
    /\ sqlite_like (u "manchester united") (team_name t) = true
    /\ (Forall plain_char (u "manchester united") ->
        sqlite_lower (team_name t) = sqlite_lower (u "manchester united")).
Proof.
  assert (man_utd ∈ teams one_team_store) as Hin by (apply elem_of_cons; by left).
  exact (@whoscored_team_reused_up_to_case length_hash (u "manchester united") epl
           one_team_store man_utd ltac:(discriminate) Hin eq_refl).
Defined.

(** ** Column headers *)

(** X17: the header map gives a statistic the position of the last
    header that names it, and no position to a statistic no header
    names; so every position in the map is a position of the header row. *)
Theorem header_map_last_header `{UnicodeData} (headers : list pystr) (stat_name : string)
    (i : nat) :
  WhoScored._create_header_map headers !! stat_name = Some i
  <-> (exists h, headers !! i = Some h /\ WhoScored.header_stat h = Some stat_name)
      /\ forall j h, (i < j)%nat -> headers !! j = Some h ->
           WhoScored.header_stat h <> Some stat_name.
Proof. apply create_header_map_lookup. Qed.

(** X18: a header is given a statistic only if, in lower case and
    without the whitespace at its ends, it holds one of the keywords of
    that statistic; and every keyword of the table, as a header, is given
    its own statistic: no earlier group of the table claims it. *)
Theorem header_stat_by_keyword `{UnicodeData} :
  (forall header stat_name,
     WhoScored.header_stat header = Some stat_name ->
     exists keywords kw pre post,
       (stat_name, keywords) ∈ WhoScored.defensive_stats /\ kw ∈ keywords
       /\ strip (py_lower header) = pre ++ kw ++ post)
  /\ (forall stat_name keywords kw,
        (stat_name, keywords) ∈ WhoScored.defensive_stats -> kw ∈ keywords ->
        WhoScored.header_stat kw = Some stat_name).
Proof.
  split.
  - intros header stat_name Hstat. unfold WhoScored.header_stat in Hstat.
    apply first_return_some in Hstat as ([st keywords] & Hentry & Hbody). simpl in Hbody.
    destruct (_ || _) eqn:E; [|done]. injection Hbody as ->.
    exists keywords. apply orb_true_iff in E as [E|E].
    + apply existsb_exists in E as (kw & Hkw & Heq). apply pystr_eqb_eq in Heq.
      exists kw, [], []. split; [done|]. split; [by apply list_elem_of_In|].
      by rewrite app_nil_r.
    + apply existsb_exists in E as (kw & Hkw & Hc). apply contains_spec in Hc as (pre & post & Hc).
      exists kw, pre, post. split; [done|]. split; [by apply list_elem_of_In|done].
  - intros stat_name keywords kw Hentry Hkw.
    pose proof keywords_name_their_statistic as Hall.
    rewrite forallb_forall in Hall. apply list_elem_of_In in Hentry.
    specialize (Hall _ Hentry). rewrite forallb_forall in Hall.
    apply list_elem_of_In in Hkw. specialize (Hall _ Hkw).
    by apply bool_decide_eq_true in Hall.
Qed.

Lemma header_stat_by_keyword_witness :
  @WhoScored.header_stat latin1_only (u "int") = Some "interceptions"%string.
Proof.
  apply (proj2 (@header_stat_by_keyword latin1_only) "interceptions"%string
           [u "interceptions"; u "inter"; u "int"] (u "int")).
  - apply elem_of_cons. right. apply elem_of_cons. by left.
  - apply elem_of_cons. right. apply elem_of_cons. right. apply elem_of_cons. by left.
Defined.

(** The header row the source documents for the defensive view. *)
Example documented_headers :
  @WhoScored._create_header_map latin1_only
     [u "apps"; u "mins"; u "tackles"; u "inter"; u "fouls"; u "offsides"; u "clear";
      u "drb"; u "blocks"; u "owng"; u "rating"]
  = list_to_map
      [("apps", 0); ("mins", 1); ("tackles", 2); ("interceptions", 3); ("fouls", 4);
       ("offsides", 5); ("clearances", 6); ("dribbles", 7); ("blocks", 8);
       ("own_goals", 9); ("rating", 10)]%string%nat.
Proof. vm_compute. reflexivity. Qed.

(** ** Numeric conversion *)

(** X19: [_safe_int] lets no [ValueError] and no [TypeError] out: the one
    exception it can raise is [OverflowError], and it raises it exactly
    when the text, without its commas, reads as an infinity. *)
Theorem safe_int_raises_only_overflow `{NumberData} (value : pyval) (default : Z) (e : exn) :
  _safe_int value default = inl e ->
  e = OverflowError
  /\ exists negative,
       float_of_str (List.filter (fun c => negb (c =? 0x2C)%N) (py_str value))
       = Some (FInf negative).
Proof.
  unfold _safe_int. destruct (_ || _); [done|].
  destruct (float_of_str _) as [[q|negative|]|]; simpl; try done.
  intros [= <-]. split; [done|]. by exists negative.
Qed.

Lemma safe_int_raises_only_overflow_witness :
  exists negative,
    @float_of_str ascii_numbers
      (List.filter (fun c => negb (c =? 0x2C)%N) (py_str (PyStr (u "-Infinity"))))
    = Some (FInf negative).
Proof.
  exact (proj2 (@safe_int_raises_only_overflow ascii_numbers (PyStr (u "-Infinity")) 0
                  OverflowError eq_refl)).
Defined.

(** ** The stats merger *)

(** X20: [sort_values] loses and adds no row, puts the rows in descending
    order of tackles, and leaves the rows without tackles at the end in
    the order they came in. *)
Theorem sort_values_keeps_rows `{ArgSort} (df : list StatsRow) :
  sort_values_tackles df ≡ₚ df
  /\ StronglySorted descending (sort_values_tackles df)
  /\ exists valued,
       sort_values_tackles df = valued ++ List.filter (fun r => negb (has_tackles r)) df
       /\ valued ≡ₚ List.filter has_tackles df.
Proof.
  split; [apply sort_values_perm|]. split; [apply sort_values_descending|].
  rewrite sort_values_shape. eexists. split; [done|].
  rewrite <- Permutation_rev, take_at_perm; [by rewrite <- Permutation_rev|].
  rewrite argsort_perm. by rewrite !length_rev, omap_tackles_length.
Qed.

(** X21: [drop_duplicates] keeps, in their order, exactly the rows that
    no earlier row shares the player and the season of; so the rows it
    keeps have different keys, a frame without a repeated key is left as
    it is, and dropping twice drops nothing more. *)
Theorem drop_duplicates_keeps_first (df : list StatsRow) :
  drop_duplicates df `sublist_of` df
  /\ NoDup (group_key <$> drop_duplicates df)
  /\ (forall r, r ∈ drop_duplicates df
         <-> exists l1 l2, df = l1 ++ r :: l2
               /\ forall r', r' ∈ l1 -> group_key r' <> group_key r)
  /\ (NoDup (group_key <$> df) -> drop_duplicates df = df)
  /\ drop_duplicates (drop_duplicates df) = drop_duplicates df.
Proof.
  assert (forall df', NoDup (group_key <$> df') -> drop_duplicates df' = df') as Hfixed.
  { intros df' Hnd. apply drop_duplicates_from_fixed; [done|].
    intros r _. apply not_elem_of_nil. }
  split; [apply drop_duplicates_from_sublist|].
  split; [apply drop_duplicates_from_keys|].
  split; [|split; [apply Hfixed|apply Hfixed, drop_duplicates_from_keys]].
  intros r. unfold drop_duplicates. rewrite drop_duplicates_from_spec. split.
  - intros (l1 & l2 & Hsplit & _ & Hl1). by exists l1, l2.
  - intros (l1 & l2 & Hsplit & Hl1). exists l1, l2. split; [done|].
    split; [apply not_elem_of_nil|done].
Qed.

Lemma drop_duplicates_keeps_first_witness :
  NoDup (group_key <$> [tied_first; row_12]) /\ drop_duplicates [tied_first; row_12]
  = [tied_first; row_12].
Proof.
  assert (NoDup (group_key <$> [tied_first; row_12])) as Hnd.
  { apply (bool_decide_unpack _). vm_compute. exact I. }
  split; [exact Hnd|].
  exact (proj1 (proj2 (proj2 (proj2 (drop_duplicates_keeps_first [tied_first; row_12])))) Hnd).
Defined.

(** X22: on a frame in which no row has tackles, the merger does not
    depend on the sort: it keeps the first row of every player and
    season, in the order of the frame. *)
Theorem stats_merger_without_tackles `{ArgSort} (df : list StatsRow) :
  (forall r, r ∈ df -> row_tackles r = None) ->
  stats_merger df = drop_duplicates df.
Proof. intros Hall. unfold stats_merger. by rewrite sort_values_missing. Qed.

Lemma stats_merger_without_tackles_witness :
  @stats_merger late_argsort [mkStatsRow 1 7 10 3 None; mkStatsRow 2 7 11 3 None]
  = [mkStatsRow 1 7 10 3 None].
Proof.
  rewrite (@stats_merger_without_tackles late_argsort).
  - vm_compute. reflexivity.
  - intros r Hr. apply elem_of_cons in Hr as [->|Hr]; [done|].
    apply elem_of_cons in Hr as [->|Hr]; [done|]. by apply elem_of_nil in Hr.
Defined.

(** X23: merging a merged frame changes its rows no more: what a second
    run of the merger returns is the first result, up to the order of its
    rows. *)
Theorem stats_merger_idempotent `{ArgSort} (df : list StatsRow) :
  stats_merger (stats_merger df) ≡ₚ stats_merger df.
Proof.
  unfold stats_merger at 1.
  assert (NoDup (group_key <$> sort_values_tackles (stats_merger df))) as Hnd.
  { rewrite sort_values_perm. apply drop_duplicates_from_keys. }
  unfold drop_duplicates. rewrite drop_duplicates_from_fixed; [apply sort_values_perm|done|].
  intros r _. apply not_elem_of_nil.
Qed.

(** ** Placeholders and real ids *)

(** X24: a placeholder is not negative: it lies in 0..999999, where the
    ids of Understat lie too.  So when a team was created under a
    placeholder, the Understat scraper's get-or-create by the id equal to
    that placeholder returns the placeholder row and adds nothing,
    whatever team it asks for. *)
Theorem placeholder_row_answers_real_id `{PyHash} (title : pystr) (league : League)
    (s s' : Store) (t : Team) :
  understat_player_team title league s = (t, s') ->
  teams s' <> teams s ->
  team_understat_id t = placeholder_id (understat_team_name title)
  /\ 0 <= team_understat_id t < 1000000
  /\ forall name league',
       Understat._get_or_create_team (team_understat_id t) name league' s' = (t, s').
Proof.
  unfold understat_player_team, mbind, session_bind, query, ret, mret, session_ret.
  destruct (first_row _ (teams s)) as [t1|] eqn:E1; [by intros [= <- <-]|].
  destruct (first_row (fun t => team_understat_id t =? placeholder_id _) (teams s))
    as [t2|] eqn:E2; [by intros [= <- <-]|].
  unfold add_team. intros [= <- <-] _. simpl.
  split; [done|]. split; [apply Z.mod_pos_bound; lia|].
  intros name league'.
  unfold Understat._get_or_create_team, mbind, session_bind, query, ret, mret, session_ret.
  simpl.
  destruct (first_row_added
              (fun t => team_understat_id t =? placeholder_id (understat_team_name title))
              (teams s)
              (mkTeam (next_id (team_id <$> teams s)) (placeholder_id (understat_team_name title))
                 (understat_team_name title) (league_id league)) E2) as [Hfound _].
  { simpl. apply Z.eqb_refl. }
  by rewrite Hfound.
Qed.

Lemma placeholder_row_answers_real_id_witness :
  Understat._get_or_create_team 999993 (u "Aston Villa") epl
    (@understat_player_team length_hash (u "Arsenal") epl one_team_store).2
  = ((@understat_player_team length_hash (u "Arsenal") epl one_team_store).1,
     (@understat_player_team length_hash (u "Arsenal") epl one_team_store).2).
Proof.
  exact (proj2 (proj2 (@placeholder_row_answers_real_id length_hash (u "Arsenal") epl
                         one_team_store _ _ (surjective_pairing _)
                         ltac:(vm_compute; discriminate)))
           (u "Aston Villa") epl).
Defined.

(** ** The exact step and capitals *)

(** X25: the exact step compares SQLite's [lower] of the stored name
    with Python's [lower] of the name asked for, and the two agree on
    ASCII only.  A name written in ASCII finds the rows stored under it,
    whatever its capitals; a Latin-1 name with a capital letter outside
    ASCII is found under no row that is stored under exactly this name. *)
Theorem exact_step_and_capitals `{UnicodeData} {A} (name_of : A -> pystr) (name : pystr)
    (table : list A) :
  (Forall (fun c => (c < 0x80)%N) name ->
   forall r, r ∈ table -> sqlite_lower (name_of r) = sqlite_lower name ->
     exists r', exact_match name_of name table = Some r'
                /\ sqlite_lower (name_of r') = sqlite_lower name)
  /\ (Forall (fun c => (c < 0x100)%N) name ->
      (exists c, c ∈ name /\ latin1_capital c) ->
      forall r, exact_match name_of name table = Some r -> name_of r <> name).
Proof.
  split.
  - intros Hascii r Hr Hlower. unfold exact_match.
    rewrite py_lower_ascii by done. fold (sqlite_lower name).
    destruct (first_row _ table) as [r'|] eqn:E.
    + exists r'. split; [done|]. apply first_row_some in E as [_ E]. by apply pystr_eqb_eq in E.
    + pose proof (first_row_none_elem _ _ r E Hr) as Hno. cbv beta in Hno.
      rewrite Hlower, pystr_eqb_refl in Hno. done.
  - intros Hlatin (c & Hc & [Hrange Hne]) r Hr Heq. unfold exact_match in Hr.
    apply first_row_some in Hr as [_ Hr]. apply pystr_eqb_eq in Hr.
    rewrite Heq in Hr. unfold py_lower in Hr.
    assert (forallb (fun c => (c <? 0x100)%N) name = true) as Hall.
    { apply forallb_forall. intros x Hx. apply N.ltb_lt.
      rewrite Forall_forall in Hlatin. by apply Hlatin, list_elem_of_In. }
    rewrite Hall in Hr. unfold sqlite_lower in Hr.
    clear Hall Heq Hlatin. induction name as [|x name IH]; [by apply elem_of_nil in Hc|].
    simpl in Hr. injection Hr as Hx Hrest.
    apply elem_of_cons in Hc as [->|Hc]; [|by apply IH].
    unfold ascii_lower, latin1_lower in Hx.
    destruct (N.leb_spec 0x41 x), (N.leb_spec x 0x5A), (N.leb_spec 0xC0 x),
      (N.leb_spec x 0xDE), (N.eqb_spec x 0xD7); simpl in Hx; lia.
Qed.

Lemma exact_step_and_capitals_witness :
  ~ (@exact_match latin1_only Team team_name (u "Östersund") [ostersund] = Some ostersund).
Proof.
  assert (Forall (fun c => (c < 0x100)%N) (u "Östersund")) as Hlatin.
  { vm_compute. repeat constructor. }
  assert (exists c, c ∈ u "Östersund" /\ latin1_capital c) as Hcapital.
  { exists 0xD6%N. split; [vm_compute; apply elem_of_cons; by left|].
    split; [lia|discriminate]. }
  intros Hr.
  apply (proj2 (@exact_step_and_capitals latin1_only Team team_name (u "Östersund")
                  [ostersund]) Hlatin Hcapital ostersund Hr).
  reflexivity.
Defined.

(** The team is not found under its own name by the exact step; the
    fuzzy step finds it. *)
Example ostersund_by_fuzzy_step :
  @exact_match latin1_only Team team_name (u "Östersund") [ostersund] = None
  /\ @find_matching_team latin1_only (u "Östersund") (mkStore [] [] [ostersund] [] [])
       TEAM_THRESHOLD = Some ostersund.
Proof. split; vm_compute; reflexivity. Qed.

(** ** Teams of the two scrapers *)

(** X26: the two scrapers share a team row by its name: the team the
    Understat scraper finds or creates for a player record, when it
    carries the name taken from the record, is the team WhoScored's
    get-or-create returns for that name, with nothing added; and the team
    WhoScored's get-or-create returns under the very name it was asked
    for is the team the Understat scraper gives a record with that title.
    A team returned for a colliding placeholder or a [LIKE] match carries
    another name, and is not shared in this way. *)
Theorem scrapers_share_team_by_name `{PyHash} (league league' : League) (s s' : Store)
    (t : Team) :
  (forall title,
     understat_player_team title league s = (t, s') ->
     team_name t = understat_team_name title ->
     understat_team_name title <> [] ->
     whoscored_get_or_create_team (understat_team_name title) league' s' = (t, s'))
  /\ (forall name,
        whoscored_get_or_create_team name league s = (t, s') ->
        team_name t = name ->
        understat_team_name name = name ->
        understat_player_team name league' s' = (t, s')).
Proof.
  assert (forall name s0 (t0 : Team),
            first_row (fun t => pystr_eqb (team_name t) name) (teams s0) = None ->
            t0 ∈ teams s0 -> team_name t0 = name -> False) as Hclash.
  { intros name s0 t0 Hnone Hin Hname.
    pose proof (first_row_none_elem _ _ t0 Hnone Hin) as Hno. cbv beta in Hno.
    by rewrite Hname, pystr_eqb_refl in Hno. }
  assert (forall name understat_id lid s0,
            first_row (fun t => pystr_eqb (team_name t) name) (teams s0) = None ->
            first_row (fun t => pystr_eqb (team_name t) name)
              (teams (add_team understat_id name lid s0).2)
            = Some (add_team understat_id name lid s0).1) as Hadded.
  { intros name understat_id lid s0 Hnone. simpl.
    apply first_row_added; [done|]. simpl. apply pystr_eqb_refl. }
  split.
  - intros title Hrun Hname Hne.
    assert (first_row (fun t => pystr_eqb (team_name t) (understat_team_name title)) (teams s')
            = Some t) as Hfound.
    { revert Hrun.
      unfold understat_player_team, mbind, session_bind, query, ret, mret, session_ret.
      destruct (first_row (fun t => pystr_eqb (team_name t) (understat_team_name title))
                  (teams s)) as [t1|] eqn:E1; [by intros [= <- <-]|].
      destruct (first_row (fun t => team_understat_id t =? placeholder_id _) (teams s))
        as [t2|] eqn:E2.
      - intros [= <- <-]. exfalso. apply first_row_some in E2 as [Hin _].
        by apply (Hclash _ _ _ E1 Hin).
      - intros Hadd. pose proof (Hadded _ (placeholder_id (understat_team_name title))
                                   (league_id league) s E1) as Hf.
        by rewrite Hadd in Hf. }
    unfold whoscored_get_or_create_team, mbind, session_bind, query, ret, mret, session_ret.
    assert (whoscored_team_name (understat_team_name title) = understat_team_name title) as ->.
    { by destruct (understat_team_name title). }
    by rewrite Hfound.
  - intros name Hrun Hname Hfixed.
    assert (whoscored_team_name name = name) as Hws.
    { destruct name; [|done]. by vm_compute in Hfixed. }
    assert (first_row (fun t => pystr_eqb (team_name t) name) (teams s') = Some t) as Hfound.
    { revert Hrun.
      unfold whoscored_get_or_create_team, mbind, session_bind, query, ret, mret, session_ret.
      rewrite Hws.
      destruct (first_row (fun t => pystr_eqb (team_name t) name) (teams s)) as [t1|] eqn:E1;
        [by intros [= <- <-]|].
      destruct (first_row (fun t => sqlite_like name (team_name t)) (teams s)) as [t2|] eqn:E2.
      { intros [= <- <-]. exfalso. apply first_row_some in E2 as [Hin _].
        by apply (Hclash _ _ _ E1 Hin). }
      destruct (first_row (fun t => team_understat_id t =? placeholder_id _) (teams s))
        as [t3|] eqn:E3.
      - intros [= <- <-]. exfalso. apply first_row_some in E3 as [Hin _].
        by apply (Hclash _ _ _ E1 Hin).
      - intros Hadd. pose proof (Hadded name (placeholder_id (u "ws_" ++ name))
                                   (league_id league) s E1) as Hf.
        by rewrite Hadd in Hf. }
    unfold understat_player_team, mbind, session_bind, query, ret, mret, session_ret.
    rewrite Hfixed. by rewrite Hfound.
Qed.

Lemma scrapers_share_team_by_name_witness :
  @whoscored_get_or_create_team length_hash (u "Arsenal") bundesliga
    (@understat_player_team length_hash (u "Arsenal,Chelsea") epl one_team_store).2
  = @understat_player_team length_hash (u "Arsenal,Chelsea") epl one_team_store.
Proof.
  exact (proj1 (@scrapers_share_team_by_name length_hash epl bundesliga one_team_store _ _)
           (u "Arsenal,Chelsea") (surjective_pairing _) eq_refl ltac:(discriminate)).
Defined.
